(** * NODE coffee analyser: the text-extraction and upload logic, verified

    A shallow embedding of the two client components of the repository:

    - [coffee-product-view.tsx]: [parseAnalysis] and [extractSection], the
      regular-expression scraping of the model's free-text answer, once as
      the function of the text they compute and once with their effects on
      the heap, and the cards that render the scraped fields
      ([ExpertOverviewSection], [CoffeeDetailsGrid],
      [InDepthDescriptionsSection]);
    - the chat modal: [validateFile], the two upload handlers, [removeImage],
      [compressImage], [handleFormSubmit], the [onError] and [onFinish]
      callbacks of [useChat], the address of the chat endpoint, the Send
      and View buttons and the images of the transcript.

    JavaScript strings are sequences of UTF-16 code units; numbers are the
    integral doubles [parseInt] can return and, for the sides of a picture,
    rationals rounded as binary64 rounds; regular expressions run on a
    backtracking matcher written after the continuation-passing semantics
    of ECMA-262 (22.2.2).  Browser services (FileReader, image elements,
    canvas, the event loop) are the environment: their outcomes are data of
    the model.  An asynchronous handler runs from one [await] to the next;
    what it waits for settles in an event of its own, so that other events
    can come in between, and may never settle. *)

From Stdlib Require Import ZArith NArith QArith Qround String Ascii List Bool Lia.
Import ListNotations.
Close Scope Q_scope.

(* ================================================================== *)
(** ** JavaScript values: strings and numbers *)
(* ================================================================== *)

Module JS.

(** A code unit is a 16-bit value; a string is a list of code units. *)
Definition CodeUnit := N.
Definition JSString := list CodeUnit.

Fixpoint bytes_of_string (s : string) : list N :=
  match s with
  | EmptyString => []
  | String a s' => N_of_ascii a :: bytes_of_string s'
  end.

(** The source files are UTF-8; a string literal of the program denotes the
    UTF-16 code units of the decoded text. *)
Fixpoint decodeUTF8 (bs : list N) : JSString :=
  match bs with
  | [] => []
  | b0 :: t0 =>
    if (b0 <? 0x80)%N then b0 :: decodeUTF8 t0
    else
      match t0 with
      | [] => []
      | b1 :: t1 =>
        if (b0 <? 0xE0)%N
        then ((b0 - 0xC0) * 64 + (b1 - 0x80))%N :: decodeUTF8 t1
        else
          match t1 with
          | [] => []
          | b2 :: t2 =>
            if (b0 <? 0xF0)%N
            then ((b0 - 0xE0) * 4096 + (b1 - 0x80) * 64 + (b2 - 0x80))%N
                 :: decodeUTF8 t2
            else
              match t2 with
              | [] => []
              | b3 :: t3 =>
                let cp := ((b0 - 0xF0) * 262144 + (b1 - 0x80) * 4096
                           + (b2 - 0x80) * 64 + (b3 - 0x80))%N in
                let v := (cp - 0x10000)%N in
                (0xD800 + v / 1024)%N :: (0xDC00 + v mod 1024)%N
                :: decodeUTF8 t3
              end
          end
      end
  end.

Definition str (s : string) : JSString := decodeUTF8 (bytes_of_string s).

Definition eqbStr (a b : JSString) : bool :=
  if list_eq_dec N.eq_dec a b then true else false.

(** WhiteSpace and LineTerminator code points (ECMA-262 12.2, 12.3): the set
    that [String.prototype.trim] strips and that [\s] matches. *)
Definition isWhiteSpace (c : CodeUnit) : bool :=
  ((c =? 0x09) || (c =? 0x0A) || (c =? 0x0B) || (c =? 0x0C) || (c =? 0x0D)
   || (c =? 0x20) || (c =? 0xA0) || (c =? 0x1680)
   || ((0x2000 <=? c) && (c <=? 0x200A))
   || (c =? 0x2028) || (c =? 0x2029) || (c =? 0x202F) || (c =? 0x205F)
   || (c =? 0x3000) || (c =? 0xFEFF))%N.

Definition isLineTerminator (c : CodeUnit) : bool :=
  ((c =? 0x0A) || (c =? 0x0D) || (c =? 0x2028) || (c =? 0x2029))%N.

Definition isDigit (c : CodeUnit) : bool := ((0x30 <=? c) && (c <=? 0x39))%N.

Fixpoint trimStart (s : JSString) : JSString :=
  match s with
  | [] => []
  | c :: t => if isWhiteSpace c then trimStart t else s
  end.

Definition trimEnd (s : JSString) : JSString := rev (trimStart (rev s)).

(** [String.prototype.trim] *)
Definition trim (s : JSString) : JSString := trimEnd (trimStart s).

Fixpoint startsWith (s prefix : JSString) : bool :=
  match prefix, s with
  | [], _ => true
  | p :: prefix', c :: s' => (c =? p)%N && startsWith s' prefix'
  | _ :: _, [] => false
  end.

(** [String.prototype.includes] *)
Fixpoint includes (s sub : JSString) : bool :=
  startsWith s sub ||
  match s with
  | [] => false
  | _ :: s' => includes s' sub
  end.

(** A string is falsy exactly when it is empty. *)
Definition truthyStr (s : JSString) : bool :=
  match s with [] => false | _ => true end.

(** *** Numbers

    The numbers of the product view come out of [parseInt] and out of the
    literals 1..5, so a number is NaN, an integral double, or an infinity. *)
Inductive Number :=
| NaN
| Finite (z : Z)
| Infinity (negative : bool).

(** Round-to-nearest, ties-to-even of a non-negative integer to binary64
    (53 bits of significand, overflow from 2^1024 on). *)
Definition roundToDouble (n : Z) : Number :=
  if (n <? 2 ^ 53)%Z then Finite n
  else
    let e := (Z.log2 n - 52)%Z in
    let q := (n / 2 ^ e)%Z in
    let r := (n mod 2 ^ e)%Z in
    let half := (2 ^ (e - 1))%Z in
    let q' := if ((half <? r) || ((r =? half) && Z.odd q))%Z
              then (q + 1)%Z else q in
    let v := (q' * 2 ^ e)%Z in
    if (2 ^ 1024 <=? v)%Z then Infinity false else Finite v.

Definition digitValue (radix : N) (c : CodeUnit) : option Z :=
  let d :=
    if ((0x30 <=? c) && (c <=? 0x39))%N then Some (c - 0x30)%N
    else if ((0x61 <=? c) && (c <=? 0x7A))%N then Some (c - 0x61 + 10)%N
    else if ((0x41 <=? c) && (c <=? 0x5A))%N then Some (c - 0x41 + 10)%N
    else None in
  match d with
  | Some v => if (v <? radix)%N then Some (Z.of_N v) else None
  | None => None
  end.

(** The longest prefix of radix-digits, read most significant digit first;
    [None] when there is no digit at all. *)
Fixpoint parseDigits (radix : N) (acc : option Z) (s : JSString) : option Z :=
  match s with
  | [] => acc
  | c :: t =>
    match digitValue radix c with
    | Some d =>
      parseDigits radix
        (Some (match acc with Some a => a * Z.of_N radix + d | None => d end)%Z) t
    | None => acc
    end
  end.

Definition negateNumber (x : Number) : Number :=
  match x with
  | NaN => NaN
  | Finite z => Finite (- z)
  | Infinity b => Infinity (negb b)
  end.

(** [parseInt(string)] with the radix left out (ECMA-262 19.2.5): leading
    white space, a sign, a hexadecimal prefix, then the digits.  The sign of
    a zero is not kept: no caller can observe it.  Every digit is read;
    ECMA-262 lets an implementation take the decimal digits after the 20th
    for zeros, which the engines that convert correctly rounded do not do. *)
Definition parseInt (input : JSString) : Number :=
  let s := trimStart input in
  let '(neg, s1) :=
    match s with
    | c :: t => if (c =? 0x2D)%N then (true, t)
                else if (c =? 0x2B)%N then (false, t) else (false, s)
    | [] => (false, s)
    end in
  let '(radix, s2) :=
    match s1 with
    | c0 :: c1 :: t =>
      if ((c0 =? 0x30) && ((c1 =? 0x78) || (c1 =? 0x58)))%N then (16%N, t)
      else (10%N, s1)
    | _ => (10%N, s1)
    end in
  match parseDigits radix None s2 with
  | None => NaN
  | Some v => if neg then negateNumber (roundToDouble v) else roundToDouble v
  end.

(** ToBoolean on an optional number: undefined, NaN and zero are falsy. *)
Definition truthyNum (x : option Number) : bool :=
  match x with
  | None => false
  | Some NaN => false
  | Some (Finite z) => negb (z =? 0)%Z
  | Some (Infinity _) => true
  end.

(** [a <= b] on numbers (false as soon as an operand is NaN). *)
Definition leNum (a b : Number) : bool :=
  match a, b with
  | NaN, _ | _, NaN => false
  | Finite x, Finite y => (x <=? y)%Z
  | Finite _, Infinity neg => negb neg
  | Infinity neg, Finite _ => neg
  | Infinity n1, Infinity n2 => n1 || negb n2
  end.

(** *** Arithmetic on doubles

    The chat modal multiplies and divides the sides of a picture.  A
    product or quotient of two doubles is the exact result rounded to the
    nearest double, ties to even (ECMA-262 6.1.6.1: IEEE 754-2019 binary64).
    A value is kept as the rational it is.  A result from 2^1024 on, or a
    quotient by zero, would not be a finite number; the program divides by
    a side of more than 800 pixels and its operands are whole numbers
    between 1 and 2^32, so every result lies between 2^-32 and 2^42, and
    no rational stands for an infinity. *)

(** The integer part of the binary logarithm of [n/d], for positive [n] and
    [d]: between the two candidates the logarithms of [n] and [d] leave,
    the comparison of [n/d] with a power of two decides. *)
Definition floorLog2 (n d : Z) : Z :=
  let k := (Z.log2 n - Z.log2 d)%Z in
  if (d * 2 ^ Z.max 0 k <=? n * 2 ^ Z.max 0 (- k))%Z then k else (k - 1)%Z.

Definition pow2 (e : Z) : Q :=
  if (0 <=? e)%Z then inject_Z (2 ^ e) else (1 / inject_Z (2 ^ (- e)))%Q.

(** [n/d] rounded to 53 significant bits: the significand is the quotient
    scaled into [2^52, 2^53), rounded to the nearest integer, to the even
    one when it lies half-way.  The exponent of the last place does not go
    below -1074: under 2^-1022 the significand has fewer bits. *)
Definition roundPositive (n d : Z) : Q :=
  let e := Z.max (floorLog2 n d - 52) (-1074) in
  let num := (n * 2 ^ Z.max 0 (- e))%Z in
  let den := (d * 2 ^ Z.max 0 e)%Z in
  let f := (num / den)%Z in
  let r := (num mod den)%Z in
  let f' := if ((den <? 2 * r) || ((2 * r =? den) && Z.odd f))%Z
            then (f + 1)%Z else f in
  (inject_Z f' * pow2 e)%Q.

Definition double (q : Q) : Q :=
  let q' := Qred q in
  match Qnum q' with
  | Z0 => 0%Q
  | Zpos n => roundPositive (Zpos n) (Zpos (Qden q'))
  | Zneg n => (- roundPositive (Zpos n) (Zpos (Qden q')))%Q
  end.

(** [x * y] and [x / y] on doubles. *)
Definition times (x y : Q) : Q := double (x * y).
Definition divide (x y : Q) : Q := double (x / y).

End JS.

Import JS.

(* ================================================================== *)
(** ** Regular expressions: a backtracking matcher after ECMA-262 22.2.2 *)
(* ================================================================== *)

Module RegExp.

(** The flags of a pattern: [i], [s], [g] and [y]. *)
Record Flags := {
  ignoreCase : bool;
  dotAll : bool;
  global : bool;
  sticky : bool
}.

Inductive CharClass :=
| ClassSpace                      (* \s *)
| ClassDigit                      (* \d *)
| ClassRange (lo hi : CodeUnit)   (* [lo-hi] *)
| ClassNotNewline                 (* [^\n] *)
| ClassDot.                       (* . *)

(** Pattern syntax.  Every pattern of the program has exactly one capture
    group, and none stands under a quantifier; [Group] is that group. *)
Inductive Regex :=
| Empty
| Char (c : CodeUnit)
| Class (k : CharClass)
| Seq (a b : Regex)
| Alt (a b : Regex)
| Star (greedy : bool) (a : Regex)        (* a* and a*? *)
| Plus (greedy : bool) (a : Regex)        (* a+ and a+? *)
| Group (a : Regex)                       (* ( a ) *)
| Lookahead (a : Regex)                   (* (?= a ) *)
| EndOfInput.                             (* $ without the m flag *)

Fixpoint Cat (rs : list Regex) : Regex :=
  match rs with
  | [] => Empty
  | r :: rs' => Seq r (Cat rs')
  end.

(** A run of literal pattern characters. *)
Definition Lit (s : JSString) : Regex := Cat (map Char s).

(** Canonicalize (22.2.5.6) without the [u] flag maps a code unit to its
    upper-case form, unless that form is longer than one unit or would turn a
    non-ASCII unit into an ASCII one.  The patterns of the program hold ASCII
    characters only, and no upper-case form of a non-ASCII unit is white
    space, so only the ASCII part of the mapping can be observed. *)
Definition toUpperCase (c : CodeUnit) : CodeUnit :=
  if ((0x61 <=? c) && (c <=? 0x7A))%N then (c - 0x20)%N else c.

Definition toLowerCase (c : CodeUnit) : CodeUnit :=
  if ((0x41 <=? c) && (c <=? 0x5A))%N then (c + 0x20)%N else c.

Definition Canonicalize (fl : Flags) (c : CodeUnit) : CodeUnit :=
  if ignoreCase fl then toUpperCase c else c.

Definition classMember (fl : Flags) (k : CharClass) (c : CodeUnit) : bool :=
  match k with
  | ClassSpace => isWhiteSpace c
  | ClassDigit => isDigit c
  | ClassRange lo hi => ((lo <=? c) && (c <=? hi))%N
  | ClassNotNewline => negb (c =? 0x0A)%N
  | ClassDot => if dotAll fl then true else negb (isLineTerminator c)
  end.

(** CharacterSetMatcher: under [i] a unit is in the set when some member of
    the set has the same canonical form, that is, when the unit or one of
    its two case variants is a member.  For the inverted class [[^\n]] the
    test is made on the class [\n] and then inverted, which gives the same
    answer, since a line feed has no case variant. *)
Definition classTest (fl : Flags) (k : CharClass) (c : CodeUnit) : bool :=
  if ignoreCase fl then
    match k with
    | ClassNotNewline => classMember fl k c
    | _ => classMember fl k c || classMember fl k (toUpperCase c)
           || classMember fl k (toLowerCase c)
    end
  else classMember fl k c.

(** A match state: the input still to be read, and the capture of the
    group ([None] while the group has not taken part). *)
Record MatchState := { rest : JSString; capture : option JSString }.

Definition Continuation := MatchState -> option MatchState.
Definition Matcher := MatchState -> Continuation -> option MatchState.

(** RepeatMatcher (22.2.2.3.1) for a minimum of 0 and no maximum.  An
    iteration that reads nothing is refused; [fuel] bounds the number of
    iterations and is always taken larger than the input left. *)
Fixpoint RepeatMatcher (m : Matcher) (greedy : bool) (c : Continuation)
    (fuel : nat) (x : MatchState) : option MatchState :=
  match fuel with
  | O => None
  | S fuel' =>
    let d : Continuation := fun y =>
      if Nat.eqb (length (rest y)) (length (rest x)) then None
      else RepeatMatcher m greedy c fuel' y in
    if greedy then
      match m x d with
      | Some z => Some z
      | None => c x
      end
    else
      match c x with
      | Some z => Some z
      | None => m x d
      end
  end.

Definition readChar (ok : CodeUnit -> bool) : Matcher := fun x c =>
  match rest x with
  | ch :: t => if ok ch then c {| rest := t; capture := capture x |} else None
  | [] => None
  end.

(** CompileSubpattern: a pattern to its matcher. *)
Fixpoint compile (fl : Flags) (r : Regex) : Matcher :=
  match r with
  | Empty => fun x c => c x
  | Char p => readChar (fun ch => (Canonicalize fl ch =? Canonicalize fl p)%N)
  | Class k => readChar (classTest fl k)
  | Seq a b => fun x c => compile fl a x (fun y => compile fl b y c)
  | Alt a b => fun x c =>
      match compile fl a x c with
      | Some z => Some z
      | None => compile fl b x c
      end
  | Star greedy a => fun x c =>
      RepeatMatcher (compile fl a) greedy c (S (length (rest x))) x
  | Plus greedy a => fun x c =>
      compile fl a x (fun y =>
        RepeatMatcher (compile fl a) greedy c (S (length (rest y))) y)
  | Group a => fun x c =>
      compile fl a x (fun y =>
        c {| rest := rest y;
             capture := Some (firstn (length (rest x) - length (rest y))
                                     (rest x)) |})
  | Lookahead a => fun x c =>
      match compile fl a x (fun y => Some y) with
      | Some y => c {| rest := rest x; capture := capture y |}
      | None => None
      end
  | EndOfInput => fun x c =>
      match rest x with
      | [] => c x
      | _ :: _ => None
      end
  end.

(** A RegExp object; [lastIndex] is its only mutable slot. *)
Record RegExpObject := { source : Regex; flags : Flags; lastIndex : nat }.

Definition setLastIndex (i : nat) (re : RegExpObject) : RegExpObject :=
  {| source := source re; flags := flags re; lastIndex := i |}.

(** The match at one start position. *)
Definition matchAt (re : RegExpObject) (t : JSString) : option MatchState :=
  compile (flags re) (source re) {| rest := t; capture := None |}
          (fun y => Some y).

(** What [String.prototype.match] returns for a pattern that is not global:
    the index of the match, the matched text and the text of group 1. *)
Record MatchResult :=
  { index : nat; matched : JSString; group1 : option JSString }.

(** The search loop of RegExpBuiltinExec: start positions are tried from
    the left, the end of the string included; [i] is the offset of [t]. *)
Fixpoint execFrom (re : RegExpObject) (i : nat) (t : JSString)
  : option MatchResult :=
  match matchAt re t with
  | Some y =>
    Some {| index := i;
            matched := firstn (length t - length (rest y)) t;
            group1 := capture y |}
  | None =>
    match t with
    | [] => None
    | _ :: t' => execFrom re (S i) t'
    end
  end.

(** RegExpBuiltinExec (22.2.7.2): the result and the object afterwards.
    Only a global or sticky pattern reads [lastIndex] or writes it; a sticky
    one is tried at that one position. *)
Definition RegExpBuiltinExec (re : RegExpObject) (s : JSString)
  : option MatchResult * RegExpObject :=
  let tracked := global (flags re) || sticky (flags re) in
  let start := if tracked then lastIndex re else 0 in
  if length s <? start then (None, if tracked then setLastIndex 0 re else re)
  else
    let t := skipn start s in
    let found :=
      if sticky (flags re) then
        match matchAt re t with
        | Some y =>
          Some {| index := start;
                  matched := firstn (length t - length (rest y)) t;
                  group1 := capture y |}
        | None => None
        end
      else execFrom re start t in
    match found with
    | Some m =>
      (Some m,
       if tracked then setLastIndex (index m + length (matched m)) re else re)
    | None => (None, if tracked then setLastIndex 0 re else re)
    end.

(** [s.match(re)] for a pattern that is not global, which is RegExpExec;
    every pattern of the program is of that kind. *)
Definition exec (re : RegExpObject) (s : JSString) : option MatchResult :=
  fst (RegExpBuiltinExec re s).

End RegExp.

Import RegExp.

(* ================================================================== *)
(** ** coffee-product-view.tsx *)
(* ================================================================== *)

Module ProductView.

Definition flagsI : Flags :=
  {| ignoreCase := true; dotAll := false; global := false; sticky := false |}.
Definition flagsS : Flags :=
  {| ignoreCase := false; dotAll := true; global := false; sticky := false |}.

Definition ws0 : Regex := Star true (Class ClassSpace).      (* \s* *)
Definition ws1 : Regex := Plus true (Class ClassSpace).      (* \s+ *)
Definition upper : Regex := Class (ClassRange 0x41%N 0x5A%N).    (* [A-Z] *)
Definition lower : Regex := Class (ClassRange 0x61%N 0x7A%N).    (* [a-z] *)
Definition newline : Regex := Char 0x0A%N.                     (* \n *)

(** [/Roast\s*level\s*Profile:\s*(\d+)\/5/i] *)
Definition roastRegex : RegExpObject :=
  {| source := Cat [Lit (str "Roast"); ws0; Lit (str "level"); ws0;
                    Lit (str "Profile:"); ws0;
                    Group (Plus true (Class ClassDigit)); Lit (str "/5")];
     flags := flagsI;
     lastIndex := 0 |}.

(** [/Primary\s*coffee\s*origin:\s*([^\n]+)/i] *)
Definition originRegex : RegExpObject :=
  {| source := Cat [Lit (str "Primary"); ws0; Lit (str "coffee"); ws0;
                    Lit (str "origin:"); ws0;
                    Group (Plus true (Class ClassNotNewline))];
     flags := flagsI;
     lastIndex := 0 |}.

(** [/Specific\s*farm\/region\/processing\s*detail:\s*([^\n]+)/i] *)
Definition regionRegex : RegExpObject :=
  {| source := Cat [Lit (str "Specific"); ws0;
                    Lit (str "farm/region/processing"); ws0;
                    Lit (str "detail:"); ws0;
                    Group (Plus true (Class ClassNotNewline))];
     flags := flagsI;
     lastIndex := 0 |}.

(** [/English\s*translation:\s*([^\n]+)/i] *)
Definition tastingRegex : RegExpObject :=
  {| source := Cat [Lit (str "English"); ws0; Lit (str "translation:"); ws0;
                    Group (Plus true (Class ClassNotNewline))];
     flags := flagsI;
     lastIndex := 0 |}.

(** [/Expert\s*Overview\s*(.*?)(?=\n\n|\n[A-Z]|$)/s] *)
Definition expertRegex : RegExpObject :=
  {| source := Cat [Lit (str "Expert"); ws0; Lit (str "Overview"); ws0;
                    Group (Star false (Class ClassDot));
                    Lookahead (Alt (Seq newline newline)
                              (Alt (Seq newline upper) EndOfInput))];
     flags := flagsS;
     lastIndex := 0 |}.

(** [new RegExp(`${sectionName}\\s+(.*?)(?=\\n\\n[A-Z]|\\n[A-Z][a-z]+\\s+[A-Z]|$)`, 's')].
    The section name is spliced into the pattern text as it is; the five
    names the program passes hold letters and spaces only, which stand for
    themselves in a pattern. *)
Definition sectionRegex (sectionName : JSString) : RegExpObject :=
  {| source := Cat [Lit sectionName; ws1;
                    Group (Star false (Class ClassDot));
                    Lookahead
                      (Alt (Cat [newline; newline; upper])
                      (Alt (Cat [newline; upper; Plus true lower; ws1; upper])
                           EndOfInput))];
     flags := flagsS;
     lastIndex := 0 |}.

(** Every pattern [parseAnalysis] and [extractSection] search with. *)
Definition programPatterns : list RegExpObject :=
  [roastRegex; originRegex; regionRegex; tastingRegex; expertRegex]
  ++ map sectionRegex
       [str "About the Origin"; str "Grade and Sourcing";
        str "Processing Method"; str "Flavor Profile"; str "Roast Level"].

(** [match[1]]: the group takes part in every match of these patterns (see
    [exec_group1_set]), so the [undefined] case is never read. *)
Definition capture1 (m : MatchResult) : JSString :=
  match group1 m with
  | Some s => s
  | None => []
  end.

(** [extractSection] *)
Definition extractSection (text sectionName : JSString) : JSString :=
  match exec (sectionRegex sectionName) text with
  | Some m => trim (capture1 m)
  | None => []
  end.

(** The object [parseAnalysis] returns.  A property that was never assigned
    reads as [undefined], here [None]; the five section bodies are always
    assigned. *)
Record AnalysisData := {
  roastLevel : option Number;
  origin : option JSString;
  tastingNotes : option JSString;
  expertOverview : option JSString;
  aboutOrigin : JSString;
  gradeAndSourcing : JSString;
  processingMethod : JSString;
  flavorProfile : JSString;
  roastLevelDescription : JSString
}.

Definition sectionNames : list JSString :=
  [str "About the Origin"; str "Grade and Sourcing"; str "Processing Method";
   str "Flavor Profile"; str "Roast Level"].

(** [parseAnalysis] *)
Definition parseAnalysis (analysisText : JSString) : AnalysisData :=
  let roastMatch := exec roastRegex analysisText in
  let originMatch := exec originRegex analysisText in
  let regionMatch := exec regionRegex analysisText in
  let tastingMatch := exec tastingRegex analysisText in
  let expertMatch := exec expertRegex analysisText in
  {| roastLevel :=
       match roastMatch with
       | Some m => Some (parseInt (capture1 m))
       | None => None
       end;
     origin :=
       match originMatch with
       | Some m =>
         Some (match regionMatch with
               | Some r => trim (capture1 m) ++ str " - " ++ trim (capture1 r)
               | None => trim (capture1 m)
               end)
       | None => None
       end;
     tastingNotes :=
       match tastingMatch with
       | Some m => Some (trim (capture1 m))
       | None => None
       end;
     expertOverview :=
       match expertMatch with
       | Some m => Some (trim (capture1 m))
       | None => None
       end;
     aboutOrigin := extractSection analysisText (str "About the Origin");
     gradeAndSourcing := extractSection analysisText (str "Grade and Sourcing");
     processingMethod := extractSection analysisText (str "Processing Method");
     flavorProfile := extractSection analysisText (str "Flavor Profile");
     roastLevelDescription := extractSection analysisText (str "Roast Level")
  |}.

(** *** The cards *)

(** A child of a JSX element: a number or a piece of text. *)
Inductive Child :=
| NumberChild (n : Number)
| TextChild (s : JSString).

(** The Roast Level card of [CoffeeDetailsGrid]: the placeholder paragraph,
    or the five circles (filled or not) with the label [{roastLevel}/5]. *)
Inductive RoastCard :=
| RoastPlaceholder (text : JSString)
| RoastScale (filled : list bool) (label : list Child).

Definition roastPlaceholder : JSString :=
  str "Roast level will appear after analysis".

Definition roastCard (roastLevel : option Number) : RoastCard :=
  match roastLevel with
  | Some n =>
    if truthyNum roastLevel then
      RoastScale
        (map (fun level => leNum (Finite level) n) [1; 2; 3; 4; 5]%Z)
        [NumberChild n; TextChild (str "/5")]
    else RoastPlaceholder roastPlaceholder
  | None => RoastPlaceholder roastPlaceholder
  end.

(** [a || b] on an optional string: [b] when [a] is undefined or empty. *)
Definition orElse (a : option JSString) (b : JSString) : JSString :=
  match a with
  | Some s => if truthyStr s then s else b
  | None => b
  end.

Definition originCard (origin : option JSString) : JSString :=
  orElse origin (str "Origin information will appear after analysis").

(** [String.prototype.split] with a separator of one code unit. *)
Fixpoint splitOn (sep : CodeUnit) (s : JSString) : list JSString :=
  match s with
  | [] => [[]]
  | c :: t =>
    if (c =? sep)%N then [] :: splitOn sep t
    else
      match splitOn sep t with
      | piece :: pieces => (c :: piece) :: pieces
      | [] => [[c]]
      end
  end.

(** The Tasting Notes card: one badge per comma-separated note, trimmed,
    or the placeholder paragraph. *)
Inductive TastingCard :=
| TastingPlaceholder (text : JSString)
| TastingBadges (notes : list JSString).

Definition tastingCard (tastingNotes : option JSString) : TastingCard :=
  match tastingNotes with
  | Some notes =>
    if truthyStr notes then TastingBadges (map trim (splitOn 0x2C%N notes))
    else TastingPlaceholder (str "Tasting notes will appear after analysis")
  | None => TastingPlaceholder (str "Tasting notes will appear after analysis")
  end.

(** One entry of [InDepthDescriptionsSection]: the heading and the text of
    the paragraph under it. *)
Record SectionCard := { title : JSString; body : JSString }.

(** [`${section.title} information will appear after analysis.`] *)
Definition sectionPlaceholder (title : JSString) : JSString :=
  title ++ str " information will appear after analysis.".

Definition sectionCard (title : JSString) (content : option JSString)
  : SectionCard :=
  {| title := title; body := orElse content (sectionPlaceholder title) |}.

(** [InDepthDescriptionsSection] *)
Definition InDepthDescriptionsSection
    (aboutOrigin gradeAndSourcing processingMethod flavorProfile
     roastLevelDescription : option JSString) : list SectionCard :=
  [sectionCard (str "About the Origin") aboutOrigin;
   sectionCard (str "Grade and Sourcing") gradeAndSourcing;
   sectionCard (str "Processing Method") processingMethod;
   sectionCard (str "Flavor Profile") flavorProfile;
   sectionCard (str "Roast Level") roastLevelDescription].

(** The properties of the component. *)
Record Props := {
  isOpen : bool;
  analysis : JSString;
  images : list JSString
}.

(** What [CoffeeProductView] renders of the analysis (the remaining
    sections of the page are constant). *)
Record View := {
  overviewText : JSString;
  roast : RoastCard;
  originText : JSString;
  tasting : TastingCard;
  inDepth : list SectionCard
}.

(** [CoffeeProductView]: nothing while closed; else the analysis is parsed
    and handed to the sections. *)
Definition CoffeeProductView (p : Props) : option View :=
  if negb (isOpen p) then None
  else
    let analysisData := parseAnalysis (analysis p) in
    Some {| overviewText :=
              orElse (expertOverview analysisData)
                     (str "Expert overview will appear here after analysis.");
            roast := roastCard (roastLevel analysisData);
            originText := originCard (origin analysisData);
            tasting := tastingCard (tastingNotes analysisData);
            inDepth :=
              InDepthDescriptionsSection
                (Some (aboutOrigin analysisData))
                (Some (gradeAndSourcing analysisData))
                (Some (processingMethod analysisData))
                (Some (flavorProfile analysisData))
                (Some (roastLevelDescription analysisData)) |}.

Arguments str : simpl never.
Arguments exec : simpl never.
Arguments extractSection : simpl never.
Arguments parseAnalysis : simpl never.

End ProductView.

Import ProductView.

(* ================================================================== *)
(** ** [parseAnalysis] with its effects *)
(* ================================================================== *)

(** The same two functions, statement by statement, with what they do to
    the world written out: every regular-expression literal and every
    [new RegExp] creates a RegExp object, [match] runs on that object,
    reading and writing its [lastIndex], and [data] is an object of the
    heap, filled by assignments and returned by reference. *)
Module Store.

(** A value of [data]: a number or a string. *)
Inductive Value :=
| VNumber (n : Number)
| VString (s : JSString).

(** An object of type [Record<string, any>]: its properties, the one
    assigned last first. *)
Definition DataObject := list (JSString * Value).

Definition Ref := nat.

(** What a call can reach: the properties the component was rendered with,
    which the closure holds, and the objects of the heap. *)
Record World := {
  props : Props;
  regexps : list RegExpObject;
  objects : list DataObject
}.

(** A computation that may read and change the world. *)
Definition M (A : Type) : Type := World -> A * World.

Definition ret {A} (a : A) : M A := fun w => (a, w).

Definition bind {A B} (m : M A) (f : A -> M B) : M B :=
  fun w => let '(a, w') := m w in f a w'.

Notation "x <- m ;; f" := (bind m (fun x => f))
  (at level 61, m at next level, right associativity).
Notation "m ;;; f" := (bind m (fun _ => f))
  (at level 61, right associativity).

Fixpoint updateAt {A} (i : nat) (f : A -> A) (l : list A) : list A :=
  match l, i with
  | [], _ => []
  | a :: t, O => f a :: t
  | a :: t, S i' => a :: updateAt i' f t
  end.

(** A regular-expression literal is evaluated, or [new RegExp] called: a
    new object, with [lastIndex] 0. *)
Definition newRegExp (re : RegExpObject) : M Ref := fun w =>
  (length (regexps w),
   {| props := props w;
      regexps := regexps w ++ [setLastIndex 0 re];
      objects := objects w |}).

(** [s.match(regex)] for a pattern that is not global: RegExpBuiltinExec on
    the object, which is left as the search leaves it. *)
Definition stringMatch (s : JSString) (regex : Ref) : M (option MatchResult) :=
  fun w =>
    match nth_error (regexps w) regex with
    | Some re =>
      let '(result, re') := RegExpBuiltinExec re s in
      (result,
       {| props := props w;
          regexps := updateAt regex (fun _ => re') (regexps w);
          objects := objects w |})
    | None => (None, w)
    end.

(** [{}] *)
Definition newObject : M Ref := fun w =>
  (length (objects w),
   {| props := props w; regexps := regexps w;
      objects := objects w ++ [[]] |}).

(** [data.name = v] *)
Definition setProperty (data : Ref) (name : JSString) (v : Value) : M unit :=
  fun w =>
    (tt,
     {| props := props w; regexps := regexps w;
        objects := updateAt data (fun o => (name, v) :: o) (objects w) |}).

Fixpoint lookup (name : JSString) (o : DataObject) : option Value :=
  match o with
  | [] => None
  | (n, v) :: o' => if eqbStr n name then Some v else lookup name o'
  end.

(** [data.name]; [undefined] reads as [None]. *)
Definition getProperty (data : Ref) (name : JSString) : M (option Value) :=
  fun w =>
    (match nth_error (objects w) data with
     | Some o => lookup name o
     | None => None
     end, w).

(** The text of a value in a template literal or behind [+=]. *)
Definition textOf (v : option Value) : JSString :=
  match v with
  | Some (VString s) => s
  | Some (VNumber _) | None => []
  end.

(** [extractSection] *)
Definition extractSection (text sectionName : JSString) : M JSString :=
  regex <- newRegExp (sectionRegex sectionName) ;;
  match_ <- stringMatch text regex ;;
  ret (match match_ with
       | Some m => trim (capture1 m)
       | None => []
       end).

(** [parseAnalysis]: the reference of the object it returns. *)
Definition parseAnalysis (analysisText : JSString) : M Ref :=
  data <- newObject ;;
  roastLiteral <- newRegExp roastRegex ;;
  roastMatch <- stringMatch analysisText roastLiteral ;;
  match roastMatch with
  | Some m => setProperty data (str "roastLevel")
                          (VNumber (parseInt (capture1 m)))
  | None => ret tt
  end ;;;
  originLiteral <- newRegExp originRegex ;;
  originMatch <- stringMatch analysisText originLiteral ;;
  regionLiteral <- newRegExp regionRegex ;;
  regionMatch <- stringMatch analysisText regionLiteral ;;
  match originMatch with
  | Some m =>
    setProperty data (str "origin") (VString (trim (capture1 m))) ;;;
    match regionMatch with
    | Some r =>
      origin <- getProperty data (str "origin") ;;
      setProperty data (str "origin")
        (VString (textOf origin ++ str " - " ++ trim (capture1 r)))
    | None => ret tt
    end
  | None => ret tt
  end ;;;
  tastingLiteral <- newRegExp tastingRegex ;;
  tastingMatch <- stringMatch analysisText tastingLiteral ;;
  match tastingMatch with
  | Some m => setProperty data (str "tastingNotes")
                          (VString (trim (capture1 m)))
  | None => ret tt
  end ;;;
  expertLiteral <- newRegExp expertRegex ;;
  expertMatch <- stringMatch analysisText expertLiteral ;;
  match expertMatch with
  | Some m => setProperty data (str "expertOverview")
                          (VString (trim (capture1 m)))
  | None => ret tt
  end ;;;
  aboutOrigin <- extractSection analysisText (str "About the Origin") ;;
  setProperty data (str "aboutOrigin") (VString aboutOrigin) ;;;
  gradeAndSourcing <- extractSection analysisText (str "Grade and Sourcing") ;;
  setProperty data (str "gradeAndSourcing") (VString gradeAndSourcing) ;;;
  processingMethod <- extractSection analysisText (str "Processing Method") ;;
  setProperty data (str "processingMethod") (VString processingMethod) ;;;
  flavorProfile <- extractSection analysisText (str "Flavor Profile") ;;
  setProperty data (str "flavorProfile") (VString flavorProfile) ;;;
  roastLevelDescription <- extractSection analysisText (str "Roast Level") ;;
  setProperty data (str "roastLevelDescription")
              (VString roastLevelDescription) ;;;
  ret data.

(** The object behind a reference, read as the record of its properties:
    what the component reads of [analysisData]. *)
Definition numberAt (o : DataObject) (name : JSString) : option Number :=
  match lookup name o with
  | Some (VNumber n) => Some n
  | _ => None
  end.

Definition stringAt (o : DataObject) (name : JSString) : option JSString :=
  match lookup name o with
  | Some (VString s) => Some s
  | _ => None
  end.

(** The properties of [o] are the fields of [d]. *)
Definition Holds (o : DataObject) (d : AnalysisData) : Prop :=
  numberAt o (str "roastLevel") = roastLevel d /\
  stringAt o (str "origin") = origin d /\
  stringAt o (str "tastingNotes") = tastingNotes d /\
  stringAt o (str "expertOverview") = expertOverview d /\
  stringAt o (str "aboutOrigin") = Some (aboutOrigin d) /\
  stringAt o (str "gradeAndSourcing") = Some (gradeAndSourcing d) /\
  stringAt o (str "processingMethod") = Some (processingMethod d) /\
  stringAt o (str "flavorProfile") = Some (flavorProfile d) /\
  stringAt o (str "roastLevelDescription") = Some (roastLevelDescription d).

(** [w'] is [w] with new objects behind the old ones: the properties of the
    component and every object of [w] are as they were. *)
Definition Extends (w w' : World) : Prop :=
  props w' = props w /\
  (exists created, regexps w' = regexps w ++ created /\
                   Forall (fun re => lastIndex re = 0) created) /\
  (exists created, objects w' = objects w ++ created).

End Store.

(* ================================================================== *)
(** ** The chat modal *)
(* ================================================================== *)

Module ChatModal.

Definition dquote : string := String (ascii_of_nat 34) EmptyString.

(** The prompt sent when only images were uploaded. *)
Definition COFFEE_ANALYSIS_PROMPT : JSString :=
  str ("The coffee bean package shows a roast level, 5 circles between "
   ++ dquote ++ "LIGHT"
   ++ dquote ++ " and "
   ++ dquote ++ "DARK"
   ++ dquote ++ " on the package. Indicate the roast level as X/5.")%string.

(** The prompt sent 100 ms after it. *)
Definition FOLLOW_UP_ANALYSIS_PROMPT : JSString :=
  str ("STEP 1 - VALIDATION:
If the NODE logo (dark navy blue, circular, around center of the package) is not present don’t continue to next step, stop here and respond with: "
   ++ dquote ++ "Please take a picture of a product sold by NODE COFFEE ROASTERS."
   ++ dquote ++ "

STEP 2 – Identify the following Product Description from Packaging:
1.	Primary coffee origin - Examples: BRAZIL, GUATEMALA, MANDHELING, COSTA RICA
2.	Specific farm/region/processing detail - Examples: 
o	MANDHELING: "
   ++ dquote ++ "PWN G1"
   ++ dquote ++ " (grade designation)
o	COSTA RICA: "
   ++ dquote ++ "Brunca Rivense Yellow Honey"
   ++ dquote ++ "
o	BRAZIL: "
   ++ dquote ++ "CARMO DE MINAS SANTA"
   ++ dquote ++ "
o	GUATEMALA: "
   ++ dquote ++ "Huehuetenango Maya Washed"
   ++ dquote ++ "
3.	Primary coffee origin and Specific farm/region/processing detail in CHINESE - Examples: Chinese versions of lines 1 on packaging
4.	Chinese tasting notes/flavor descriptors (Include English translation for this) - Examples: Flavor characteristics written in Chinese
5.	Origin region and processing method in Chinese (Include English translation for this) - Examples: 亚洲/半水洗, 中美洲/黄蜜处理法, 南美洲/去果皮日晒, 南美洲/水洗
6.	Roast level Profile – Get from previous analysis

STEP 3 - COFFEE PRODUCT ANALYSIS:
Coffee Product Analysis Prompt
You are a knowledgeable coffee expert working at NODE COFFEE SHOP who provides engaging, digestible analysis of your coffee products. When given coffee product information, create a compelling narrative that highlights the most interesting and relevant details for each specific coffee. Write with confidence and expertise about your products. CRITICAL: Never use uncertain language like "
   ++ dquote ++ "likely,"
   ++ dquote ++ " "
   ++ dquote ++ "probably,"
   ++ dquote ++ " "
   ++ dquote ++ "might refer to,"
   ++ dquote ++ " or similar phrases. If you are not confident about a specific detail or term, simply omit it entirely rather than speculating. Only include information you are reasonably confident about (80%+ certainty) to maintain accuracy and authority.
Analysis Structure:
1. About the Origin
•	Focus on what makes THIS specific region unique and noteworthy
•	Highlight 1-2 key geographical or cultural details that matter for this coffee
•	Mention altitude, climate, or soil only if particularly relevant to this origin
•	Keep it conversational and intriguing, not encyclopedic
2. Grade and Sourcing (include only if present)
•	Explain any specific grades, farm names, or quality indicators mentioned
•	Focus on what these details tell us about quality or traceability
•	Skip this section if no specific grading information is provided
3. Processing Method
•	Explain the processing method used and why it matters for THIS coffee
•	Connect the processing to the expected flavor outcomes
•	Be specific about how this method affects the final cup
4. Flavor Profile
•	Interpret the tasting notes in an engaging, accessible way
•	Explain how the flavors work together and what creates the overall experience
•	Make it easy to imagine what drinking this coffee will be like
5. Roast Level
•	Explain the roast level and its key characteristics
•	Focus on how this roast level serves this particular coffee
•	Mention visual and taste impacts concisely
6. Expert Overview
•	Create a concise, compelling sales pitch (2-3 sentences maximum)
•	Highlight key flavors and characteristics that make this coffee irresistible
•	Write as if you're personally recommending this coffee to a customer in the shop
•	Focus on the unique qualities and overall experience this coffee offers
•	Make it enticing and persuasive without being overly promotional
Guidelines:
•	Write in clear, engaging English throughout
•	Be selective - highlight the most compelling aspects for each specific coffee
•	Keep each section concise but informative (2-4 sentences typically)
•	Focus on practical insights that help readers understand what they're buying
•	Correct any geographical errors in source material
•	Adapt the depth of detail to what's most relevant for each coffee
•	Create a compelling narrative, not a technical report
Input Format Expected:
1.	Primary coffee name
2.	Specific farm/region/processing details
3.	Tasting notes/flavor descriptors
4.	Origin region and processing method
5.	Roast level profile
6.	Package weight (if provided)
Your goal is to create an informative yet digestible analysis that makes readers excited about their coffee while understanding its unique characteristics.")%string.

(** Security constants *)
Definition MAX_FILE_SIZE : N := 10 * 1024 * 1024.
Definition MAX_FILES : nat := 5.
Definition ALLOWED_MIME_TYPES : list JSString :=
  [str "image/jpeg"; str "image/jpg"; str "image/png"; str "image/webp"].

(** [Array.prototype.includes] on strings *)
Definition includesStr (l : list JSString) (x : JSString) : bool :=
  existsb (eqbStr x) l.

(** The picture an [Image] element has loaded: [img.width] and
    [img.height], unsigned longs. *)
Record Picture := { imgWidth : Z; imgHeight : Z }.

(** A [File] as the browser hands it over: its name, its MIME type, its
    bytes, whether a FileReader succeeds in reading it ([onload]) or fails
    ([onerror]), and the picture an image element loads from it ([onload]),
    if it loads one at all: a file whose bytes no decoder accepts makes the
    element fire [onerror] instead. *)
Record File := {
  name : JSString;
  type : JSString;
  bytes : list N;
  readable : bool;
  picture : option Picture
}.

(** [file.size] *)
Definition size (f : File) : N := N.of_nat (length (bytes f)).

(** [reader.readAsArrayBuffer(file.slice(0, 12))]: the first 12 bytes when
    the read succeeds. *)
Definition readHeader (f : File) : option (list N) :=
  if readable f then Some (firstn 12 (bytes f)) else None.

(** [uint8Array[i] === v]; an index past the end reads [undefined]. *)
Definition byteIs (a : list N) (i : nat) (v : N) : bool :=
  match nth_error a i with
  | Some b => (b =? v)%N
  | None => false
  end.

Definition isJPEG (a : list N) : bool :=
  byteIs a 0 0xFF && byteIs a 1 0xD8 && byteIs a 2 0xFF.
Definition isPNG (a : list N) : bool :=
  byteIs a 0 0x89 && byteIs a 1 0x50 && byteIs a 2 0x4E && byteIs a 3 0x47.
Definition isWEBP (a : list N) : bool :=
  byteIs a 8 0x57 && byteIs a 9 0x45 && byteIs a 10 0x42 && byteIs a 11 0x50.

(** [validateFile]: the value its promise resolves to. *)
Definition validateFile (file : File) : bool :=
  if (MAX_FILE_SIZE <? size file)%N then false
  else if negb (includesStr ALLOWED_MIME_TYPES (type file)) then false
  else
    match readHeader file with
    | Some uint8Array =>
      if isJPEG uint8Array || isPNG uint8Array || isWEBP uint8Array
      then true else false
    | None => false
    end.

(** *** Promises

    A promise of the program is read by what it does in the end: it
    resolves to a value, or it never settles.  None of them is rejected. *)
Definition Promise (A : Type) : Type := option A.

(** [Promise.all]: the values in order once every promise has resolved. *)
Fixpoint PromiseAll {A} (promises : list (Promise A)) : Promise (list A) :=
  match promises with
  | [] => Some []
  | p :: promises' =>
    match p, PromiseAll promises' with
    | Some v, Some vs => Some (v :: vs)
    | _, _ => None
    end
  end.

(** *** Compression *)

(** The canvas after [drawImage(img, 0, 0, width, height)]: its bitmap size
    (the [width] and [height] attributes are unsigned longs, so a fractional
    value is truncated) and the rectangle the picture was drawn into. *)
Record Canvas := {
  canvasWidth : Z;
  canvasHeight : Z;
  drawWidth : Q;
  drawHeight : Q
}.

(** What [canvas.toDataURL] returns: the text "data:," for a bitmap without
    pixels, else the bitmap serialised as a file, the encoder being the
    browser's: the type and quality it was asked for, and the bitmap.  (The
    browsers in use encode image/jpeg; one that did not would fall back to
    image/png.) *)
Inductive DataURL :=
| NoPixels
| Serialised (mimeType : JSString) (quality : Q) (bitmap : Canvas).

Definition toUnsignedLong (q : Q) : Z := (Qfloor q mod 2 ^ 32)%Z.

Definition maxSize : Z := 800.

(** The [width] and [height] variables of [img.onload] after the
    conditional. *)
Definition scaledSize (img : Picture) : Q * Q :=
  let width := imgWidth img in
  let height := imgHeight img in
  if (width >? height)%Z then
    if (width >? maxSize)%Z
    then (inject_Z maxSize,
          divide (times (inject_Z height) (inject_Z maxSize)) (inject_Z width))
    else (inject_Z width, inject_Z height)
  else
    if (height >? maxSize)%Z
    then (divide (times (inject_Z width) (inject_Z maxSize)) (inject_Z height),
          inject_Z maxSize)
    else (inject_Z width, inject_Z height).

(** The canvas at the end of [img.onload]. *)
Definition drawScaled (img : Picture) : Canvas :=
  let '(width, height) := scaledSize img in
  {| canvasWidth := toUnsignedLong width;
     canvasHeight := toUnsignedLong height;
     drawWidth := width;
     drawHeight := height |}.

(** [canvas.toDataURL(type, quality)] *)
Definition toDataURL (canvas : Canvas) (type : JSString) (quality : Q)
  : DataURL :=
  if ((canvasWidth canvas =? 0) || (canvasHeight canvas =? 0))%Z
  then NoPixels
  else Serialised type quality canvas.

(** [compressImage].  The promise is resolved in [img.onload] and nowhere
    else: there is no [img.onerror], so for a file the image element cannot
    load the promise never settles. *)
Definition compressImage (file : File) : Promise DataURL :=
  match picture file with
  | Some img =>
    Some (toDataURL (drawScaled img) (str "image/jpeg") (double 0.8))
  | None => None
  end.

(** *** Messages and component state *)

Inductive Role := User | Assistant.

Record Attachment := {
  attachmentName : JSString;
  contentType : JSString;
  url : DataURL
}.

Record Message := {
  role : Role;
  content : JSString;
  experimental_attachments : option (list Attachment)
}.

(** An asynchronous handler that has reached an [await] and waits for the
    promise to settle, with the values its closure holds: an upload handler
    in its loop, awaiting [validateFile(file)] for the first of [files]; the
    submit handler awaiting [Promise.all(imagePromises)]; the submit handler
    awaiting [append(...)]. *)
Inductive Task :=
| Validating (files validFiles : list File)
| Compressing (input : JSString) (uploadedImages : list File)
| Appending (input : JSString) (hasImages : bool).

(** The state of [ChatModal] and what the user has been shown: the React
    state, the messages handed to [append] in order, the timeouts still
    pending (delay and the message their callback appends), the [alert]
    dialogs raised so far, and the handlers that wait at an [await].
    Console output is not part of the state. *)
Record State := {
  isDragging : bool;
  uploadedImages : list File;
  error : option JSString;
  input : JSString;
  sent : list Message;
  timers : list (nat * Message);
  alerts : list JSString;
  awaiting : list Task
}.

Definition initialState : State :=
  {| isDragging := false; uploadedImages := []; error := None; input := [];
     sent := []; timers := []; alerts := []; awaiting := [] |}.

Definition setIsDragging (b : bool) (st : State) : State :=
  {| isDragging := b; uploadedImages := uploadedImages st; error := error st;
     input := input st; sent := sent st; timers := timers st;
     alerts := alerts st; awaiting := awaiting st |}.

Definition setUploadedImages (f : list File -> list File) (st : State) : State :=
  {| isDragging := isDragging st; uploadedImages := f (uploadedImages st);
     error := error st; input := input st; sent := sent st;
     timers := timers st; alerts := alerts st; awaiting := awaiting st |}.

Definition setError (e : option JSString) (st : State) : State :=
  {| isDragging := isDragging st; uploadedImages := uploadedImages st;
     error := e; input := input st; sent := sent st; timers := timers st;
     alerts := alerts st; awaiting := awaiting st |}.

Definition setInput (s : JSString) (st : State) : State :=
  {| isDragging := isDragging st; uploadedImages := uploadedImages st;
     error := error st; input := s; sent := sent st; timers := timers st;
     alerts := alerts st; awaiting := awaiting st |}.

Definition append (m : Message) (st : State) : State :=
  {| isDragging := isDragging st; uploadedImages := uploadedImages st;
     error := error st; input := input st; sent := sent st ++ [m];
     timers := timers st; alerts := alerts st; awaiting := awaiting st |}.

Definition setTimeout (delay : nat) (m : Message) (st : State) : State :=
  {| isDragging := isDragging st; uploadedImages := uploadedImages st;
     error := error st; input := input st; sent := sent st;
     timers := timers st ++ [(delay, m)]; alerts := alerts st;
     awaiting := awaiting st |}.

Definition alert (msg : JSString) (st : State) : State :=
  {| isDragging := isDragging st; uploadedImages := uploadedImages st;
     error := error st; input := input st; sent := sent st;
     timers := timers st; alerts := alerts st ++ [msg];
     awaiting := awaiting st |}.

Definition setAwaiting (f : list Task -> list Task) (st : State) : State :=
  {| isDragging := isDragging st; uploadedImages := uploadedImages st;
     error := error st; input := input st; sent := sent st;
     timers := timers st; alerts := alerts st; awaiting := f (awaiting st) |}.

(** A handler runs from its event, or from the promise it awaited, to its
    next [await] or to its end: the state it leaves, and the [await] it has
    reached, if any. *)
Definition Progress : Type := State * option Task.

(** *** The upload handlers *)

Definition limitMessage : JSString :=
  str "Maximum 5 files allowed. Please remove some files first.".

Definition rejectedMessage (file : File) : JSString :=
  str ("File " ++ dquote)%string ++ name file
  ++ str (dquote ++ " was rejected. Please use valid image files under 10MB.")%string.

(** The part the two handlers share textually, down to the first [await].
    [uploadedImages.length] is read here, once, from the render that
    created the handler. *)
Definition addFiles (dropped : list File) (st : State) : Progress :=
  let files := filter (fun file => includesStr ALLOWED_MIME_TYPES (type file))
                      dropped in
  if (MAX_FILES <? length (uploadedImages st) + length files)%nat
  then (alert limitMessage st, None)
  else
    match files with
    | _ :: _ => (st, Some (Validating files []))
    | [] => (st, None)
    end.

(** The end of an upload handler, behind its loop.  The list of images
    reaches the handler here only, as [prev], the argument of the state
    updater: it is the list of the moment, not the one whose length was
    checked. *)
Definition addValidFiles (validFiles : list File) (st : State) : State :=
  if (0 <? length validFiles)%nat
  then setUploadedImages (fun prev => prev ++ validFiles) st
  else st.

(** One turn of the loop, from the moment [validateFile(file)] has
    resolved: the file is pushed to [validFiles] or raises an alert; then
    the handler awaits the next file or, the loop over, comes to its end. *)
Definition validated (file : File) (files validFiles : list File) (st : State)
  : Progress :=
  let '(validFiles', st1) :=
    if validateFile file then (validFiles ++ [file], st)
    else (validFiles, alert (rejectedMessage file) st) in
  match files with
  | _ :: _ => (st1, Some (Validating files validFiles'))
  | [] => (addValidFiles validFiles' st1, None)
  end.

(** [handleDrop] *)
Definition handleDrop (dataTransferFiles : list File) (st : State) : Progress :=
  addFiles dataTransferFiles (setIsDragging false st).

(** [handleFileSelect]; [targetFiles] is [e.target.files || []]. *)
Definition handleFileSelect (targetFiles : list File) (st : State) : Progress :=
  addFiles targetFiles st.

Fixpoint removeAt {A} (i : nat) (l : list A) : list A :=
  match l, i with
  | [], _ => []
  | _ :: t, O => t
  | a :: t, S i' => a :: removeAt i' t
  end.

(** [removeImage] *)
Definition removeImage (i : nat) (st : State) : State :=
  setUploadedImages (removeAt i) st.

(** *** The submit handler *)

(** One of the [imagePromises]. *)
Definition imagePromise (file : File) : Promise Attachment :=
  match compressImage file with
  | Some compressedUrl =>
    Some {| attachmentName := name file;
            contentType := str "image/jpeg";
            url := compressedUrl |}
  | None => None
  end.

Definition imagePromises (uploadedImages : list File)
  : list (Promise Attachment) :=
  map imagePromise uploadedImages.

(** From [messageText] to the call of [append], whose promise the handler
    awaits.  [input] and [hasImages] are the values of the closure. *)
Definition sendMessage (input : JSString) (hasImages : bool)
    (attachments : option (list Attachment)) (st : State) : Progress :=
  let messageText :=
    if negb (truthyStr (trim input)) && hasImages
    then COFFEE_ANALYSIS_PROMPT else input in
  (append {| role := User; content := messageText;
             experimental_attachments := attachments |} st,
   Some (Appending input hasImages)).

(** Behind [await append(...)]: the follow-up timer, and the form is
    cleared. *)
Definition afterAppend (input : JSString) (hasImages : bool) (st : State)
  : State :=
  let st1 :=
    if hasImages && negb (truthyStr (trim input))
    then setTimeout 100 {| role := User;
                           content := FOLLOW_UP_ANALYSIS_PROMPT;
                           experimental_attachments := None |} st
    else st in
  setInput [] (setUploadedImages (fun _ => []) st1).

(** [handleFormSubmit], down to its first [await]. *)
Definition handleFormSubmit (st : State) : Progress :=
  if negb (truthyStr (trim (input st))) && (length (uploadedImages st) =? 0)%nat
  then (st, None)
  else
    let hasImages := (0 <? length (uploadedImages st))%nat in
    if hasImages
    then (st, Some (Compressing (input st) (uploadedImages st)))
    else sendMessage (input st) hasImages None st.

(** *** Handlers that wait *)

(** The promise a handler awaits has settled and the handler runs on.
    [None]: the promise never settles.  [validateFile] resolves on every
    path; [Promise.all] resolves once every picture has loaded; for the
    promise of [append] see [Settle] below. *)
Definition resume (task : Task) (st : State) : option Progress :=
  match task with
  | Validating (file :: files) validFiles =>
    Some (validated file files validFiles st)
  | Validating [] validFiles => Some (addValidFiles validFiles st, None)
  | Compressing input uploadedImages =>
    match PromiseAll (imagePromises uploadedImages) with
    | Some attachments => Some (sendMessage input true (Some attachments) st)
    | None => None
    end
  | Appending input hasImages => Some (afterAppend input hasImages st, None)
  end.

(** A handler that has reached an [await] joins the handlers that wait. *)
Definition start (r : Progress) : State :=
  match r with
  | (st, Some task) => setAwaiting (fun waiting => waiting ++ [task]) st
  | (st, None) => st
  end.

Fixpoint replaceAt {A} (i : nat) (a : A) (l : list A) : list A :=
  match l, i with
  | [], _ => []
  | _ :: t, O => a :: t
  | b :: t, S i' => b :: replaceAt i' a t
  end.

(** The promise the [k]-th waiting handler awaits settles. *)
Definition settle (k : nat) (st : State) : State :=
  match nth_error (awaiting st) k with
  | Some task =>
    match resume task st with
    | Some (st', Some task') => setAwaiting (replaceAt k task') st'
    | Some (st', None) => setAwaiting (removeAt k) st'
    | None => st
    end
  | None => st
  end.

(** The pending timeouts fire, oldest first: each callback calls [append]. *)
Definition fireTimers (st : State) : State :=
  {| isDragging := isDragging st; uploadedImages := uploadedImages st;
     error := error st; input := input st;
     sent := sent st ++ map snd (timers st);
     timers := []; alerts := alerts st; awaiting := awaiting st |}.

(** The [onError] callback of [useChat]; [message] is [error.message]. *)
Definition onError (message : JSString) (st : State) : State :=
  if includes message (str "429")
  then setError (Some (str "Too many requests. Please wait a minute before trying again.")) st
  else if includes message (str "503")
  then setError (Some (str "Service temporarily unavailable. Please try again later.")) st
  else setError (Some (str "An error occurred. Please try again.")) st.

(** The error banner above the input: shown while [error] is truthy, with
    [error] as its text. *)
Definition errorBanner (st : State) : option JSString :=
  match error st with
  | Some e => if truthyStr e then Some e else None
  | None => None
  end.

(** What can happen to the component.  [Settle k]: the promise the [k]-th
    waiting handler awaits settles, whenever the browser or [useChat] gets
    there; other events may come first, and a promise that never settles
    has no such event.  When the promise of [append] settles is [useChat]'s
    business: any moment after the call is taken to be possible. *)
Inductive Event :=
| Drop (files : list File)
| FileSelect (files : list File)
| RemoveImage (i : nat)
| InputChange (text : JSString)
| Submit
| Settle (k : nat)
| TimersFire
| ChatError (message : JSString)
| DismissError.

Definition step (e : Event) (st : State) : State :=
  match e with
  | Drop files => start (handleDrop files st)
  | FileSelect files => start (handleFileSelect files st)
  | RemoveImage i => removeImage i st
  | InputChange text => setInput text st
  | Submit => start (handleFormSubmit st)
  | Settle k => settle k st
  | TimersFire => fireTimers st
  | ChatError message => onError message st
  | DismissError => setError None st
  end.

Definition run (events : list Event) (st : State) : State :=
  fold_left (fun s e => step e s) events st.

(** The number of promises the handler of an event awaits at most. *)
Definition awaits (e : Event) : nat :=
  match e with
  | Drop files | FileSelect files => length files
  | Submit => 2
  | _ => 0
  end.

(** Event [e] with nothing in its way: the handler it starts runs on to its
    end before anything else happens, each promise it awaits settling in
    turn.  A handler whose promise never settles stays where it is. *)
Definition alone (e : Event) (st : State) : State :=
  run (e :: repeat (Settle (length (awaiting st))) (awaits e)) st.

(** A sequence of events none of which overlaps another. *)
Definition runEach (events : list Event) (st : State) : State :=
  fold_left (fun s e => alone e s) events st.

End ChatModal.

Import ChatModal.

(* ================================================================== *)
(** ** What a pattern matches, stated without the search *)
(* ================================================================== *)

Module Semantics.

(** [Derives fl r x y]: pattern [r] can read the input of [x] down to the
    input of [y], leaving the capture of [y].  The relation says which
    matches exist; the order in which the matcher tries them is not part of
    it.  A repetition step must read something, as in RepeatMatcher. *)
Inductive Derives (fl : Flags) : Regex -> MatchState -> MatchState -> Prop :=
| D_Empty : forall x, Derives fl Empty x x
| D_Char : forall p ch t cap,
    Canonicalize fl ch = Canonicalize fl p ->
    Derives fl (Char p) {| rest := ch :: t; capture := cap |}
                        {| rest := t; capture := cap |}
| D_Class : forall k ch t cap,
    classTest fl k ch = true ->
    Derives fl (Class k) {| rest := ch :: t; capture := cap |}
                         {| rest := t; capture := cap |}
| D_Seq : forall a b x y z,
    Derives fl a x y -> Derives fl b y z -> Derives fl (Seq a b) x z
| D_AltL : forall a b x y, Derives fl a x y -> Derives fl (Alt a b) x y
| D_AltR : forall a b x y, Derives fl b x y -> Derives fl (Alt a b) x y
| D_StarStop : forall g a x, Derives fl (Star g a) x x
| D_StarStep : forall g a x y z,
    Derives fl a x y -> length (rest y) <> length (rest x) ->
    Derives fl (Star g a) y z -> Derives fl (Star g a) x z
| D_Plus : forall g a x y z,
    Derives fl a x y -> Derives fl (Star g a) y z ->
    Derives fl (Plus g a) x z
| D_Group : forall a x y,
    Derives fl a x y ->
    Derives fl (Group a) x
      {| rest := rest y;
         capture := Some (firstn (length (rest x) - length (rest y))
                                 (rest x)) |}
| D_Lookahead : forall a x y,
    Derives fl a x y ->
    Derives fl (Lookahead a) x {| rest := rest x; capture := capture y |}
| D_EndOfInput : forall cap,
    Derives fl EndOfInput {| rest := []; capture := cap |}
                          {| rest := []; capture := cap |}.

(** The pattern matches at the head of [t], with [cap] as group 1 and
    [after] left unread. *)
Definition MatchesAt (re : RegExpObject) (t : JSString)
    (cap : option JSString) (after : JSString) : Prop :=
  Derives (flags re) (source re) {| rest := t; capture := None |}
          {| rest := after; capture := cap |}.

(** The group sets its capture on every path through the pattern. *)
Fixpoint setsGroup (r : Regex) : bool :=
  match r with
  | Group _ => true
  | Seq a b => setsGroup a || setsGroup b
  | Alt a b => setsGroup a && setsGroup b
  | Plus _ a => setsGroup a
  | Lookahead a => setsGroup a
  | _ => false
  end.

End Semantics.

Import Semantics.

(* ================================================================== *)
(** ** The vocabulary of the specification: phrases, texts, messages *)
(* ================================================================== *)

Module Vocabulary.

(** Equal up to the case of the ASCII letters. *)
Definition sameIgnoringCase (a b : JSString) : Prop :=
  map toUpperCase a = map toUpperCase b.

Definition allWhiteSpace (w : JSString) : Prop :=
  forallb isWhiteSpace w = true.

Definition allDigits (ds : JSString) : Prop :=
  forallb isDigit ds = true.

(** The integer a sequence of decimal digits denotes. *)
Definition decimalValue (ds : JSString) : Z :=
  fold_left (fun acc c => (acc * 10 + Z.of_N (c - 0x30))%Z) ds 0%Z.

(** [u] reads "Roast level Profile: N/5" with the letters in any case, any
    white space (none, too) where the phrase has a blank, and [ds], a
    non-empty sequence of decimal digits, for N. *)
Definition RoastPhrase (u ds : JSString) : Prop :=
  exists l1 w1 l2 w2 l3 w3,
    u = l1 ++ w1 ++ l2 ++ w2 ++ l3 ++ w3 ++ ds ++ str "/5" /\
    sameIgnoringCase l1 (str "Roast") /\ allWhiteSpace w1 /\
    sameIgnoringCase l2 (str "level") /\ allWhiteSpace w2 /\
    sameIgnoringCase l3 (str "Profile:") /\ allWhiteSpace w3 /\
    ds <> [] /\ allDigits ds.

(** The phrase stands in [s] from offset [i] on. *)
Definition RoastMatchAt (s : JSString) (i : nat) (ds : JSString) : Prop :=
  exists pre u post,
    s = pre ++ u ++ post /\ length pre = i /\ RoastPhrase u ds.

(** [ds] is the N of the first match of the phrase in [s]. *)
Definition FirstRoastMatch (s : JSString) (ds : JSString) : Prop :=
  exists i, RoastMatchAt s i ds /\
            forall j ds', RoastMatchAt s j ds' -> i <= j.

Definition noLineFeed (t : JSString) : Prop :=
  forallb (fun c => negb (c =? 0x0A)%N) t = true.

(** [u] reads a three-word label [a b c] (letters in any case, any white
    space after each word) followed by [text], a non-empty piece of one
    line. *)
Definition LabelledText (a b c u text : JSString) : Prop :=
  exists l1 w1 l2 w2 l3 w3,
    u = l1 ++ w1 ++ l2 ++ w2 ++ l3 ++ w3 ++ text /\
    sameIgnoringCase l1 a /\ allWhiteSpace w1 /\
    sameIgnoringCase l2 b /\ allWhiteSpace w2 /\
    sameIgnoringCase l3 c /\ allWhiteSpace w3 /\
    text <> [] /\ noLineFeed text.

(** "Primary coffee origin:" followed by [text]. *)
Definition OriginLine (u text : JSString) : Prop :=
  LabelledText (str "Primary") (str "coffee") (str "origin:") u text.

(** "Specific farm/region/processing detail:" followed by [text]. *)
Definition DetailLine (u text : JSString) : Prop :=
  LabelledText (str "Specific") (str "farm/region/processing")
               (str "detail:") u text.

(** [post] is empty or starts with a line feed: what stands in front of it
    runs to the end of its line. *)
Definition endsLine (post : JSString) : Prop :=
  post = [] \/ exists post', post = 0x0A%N :: post'.

(** Some part of [s] satisfies [P]. *)
Definition Occurs (P : JSString -> JSString -> Prop) (s : JSString) : Prop :=
  exists pre u text post, s = pre ++ u ++ post /\ P u text.

(** [needle] followed by a white-space character stands somewhere in [s]. *)
Definition HeadingOccurs (s needle : JSString) : Prop :=
  exists pre w post,
    s = pre ++ needle ++ w :: post /\ isWhiteSpace w = true.

(** [r] is empty or starts with a code unit outside [P]. *)
Definition stopsAt (P : CodeUnit -> bool) (r : JSString) : Prop :=
  match r with
  | [] => True
  | c :: _ => P c = false
  end.

(** In the words of the specification: the roast level is the integer the
    digits of the first match denote. *)
Definition roastLevelIsTheIntegerN (s : JSString) : Prop :=
  forall ds, FirstRoastMatch s ds ->
             roastLevel (parseAnalysis s) = Some (Finite (decimalValue ds)).

(** In the words of the specification: the placeholder is shown as soon
    as the text "Roast level Profile: 0/5" stands in the analysis. *)
Definition zeroAnywhereShowsPlaceholder (s : JSString) : Prop :=
  includes s (str "Roast level Profile: 0/5") = true ->
  roastCard (roastLevel (parseAnalysis s)) = RoastPlaceholder roastPlaceholder.

(** The file loads in an image element. *)
Definition loads (file : File) : Prop := picture file <> None.

(** [await Promise.all(imagePromises)] for a list of uploaded files. *)
Definition attachmentsOf (files : list File) : Promise (list Attachment) :=
  PromiseAll (imagePromises files).

(** The first message of an images-only submission and the one that
    follows it. *)
Definition analysisMessage (attachments : list Attachment) : Message :=
  {| role := User;
     content := COFFEE_ANALYSIS_PROMPT;
     experimental_attachments := Some attachments |}.

Definition followUpMessage : Message :=
  {| role := User;
     content := FOLLOW_UP_ANALYSIS_PROMPT;
     experimental_attachments := None |}.

(** The filter of the upload handlers, and the files that raise an alert. *)
Definition allowedType (file : File) : bool :=
  includesStr ALLOWED_MIME_TYPES (type file).

Definition isRejected (file : File) : bool := negb (validateFile file).

(** The state an upload leaves behind: [validFiles] are appended to the
    list of images and each of [rejected] has raised its alert. *)
Definition uploaded (validFiles rejected : list File) (st : State) : State :=
  {| isDragging := isDragging st;
     uploadedImages := uploadedImages st ++ validFiles;
     error := error st; input := input st; sent := sent st;
     timers := timers st;
     alerts := alerts st ++ map rejectedMessage rejected;
     awaiting := awaiting st |}.

(** The three texts of the error banner. *)
Definition tooManyRequests : JSString :=
  str "Too many requests. Please wait a minute before trying again.".
Definition serviceUnavailable : JSString :=
  str "Service temporarily unavailable. Please try again later.".
Definition genericError : JSString :=
  str "An error occurred. Please try again.".

(** In the words of the specification, for the failure of a chat request:
    it raises an alert and touches nothing else the user sees. *)
Definition chatFailureOnlyAlerts : Prop :=
  forall st message,
    alerts (onError message st) <> alerts st /\
    errorBanner (onError message st) = errorBanner st.

(** In the words of the specification, for the compression of a picture:
    the side that is not cut to 800 is scaled by the same ratio, exactly
    (height*800/width or width*800/height), both for the rectangle the
    picture is drawn into and for the picture that comes out. *)
Definition scaledBySameRatio (img : Picture) : Prop :=
  let w := imgWidth img in
  let h := imgHeight img in
  let out := drawScaled img in
  ((h < w)%Z -> (800 < w)%Z ->
     (drawHeight out == inject_Z (h * 800) / inject_Z w)%Q /\
     (inject_Z (canvasHeight out) == inject_Z (h * 800) / inject_Z w)%Q) /\
  ((w <= h)%Z -> (800 < h)%Z ->
     (drawWidth out == inject_Z (w * 800) / inject_Z h)%Q /\
     (inject_Z (canvasWidth out) == inject_Z (w * 800) / inject_Z h)%Q).

(** In the words of the specification: the output is always a JPEG data
    URL at quality 0.8. *)
Definition alwaysJPEG (file : File) : Prop :=
  exists canvas,
    compressImage file
    = Some (Serialised (str "image/jpeg") (double 0.8) canvas).

End Vocabulary.

Import Vocabulary.

(* ================================================================== *)
(** ** The shapes of text the patterns look for *)
(* ================================================================== *)

Module Shapes.

(** No capture group stands in the pattern. *)
Fixpoint noGroup (r : Regex) : bool :=
  match r with
  | Group _ => false
  | Seq a b | Alt a b => noGroup a && noGroup b
  | Star _ a | Plus _ a | Lookahead a => noGroup a
  | Empty | Char _ | Class _ | EndOfInput => true
  end.

Definition isUpper (c : CodeUnit) : bool := ((0x41 <=? c) && (c <=? 0x5A))%N.
Definition isLower (c : CodeUnit) : bool := ((0x61 <=? c) && (c <=? 0x7A))%N.

Definition LF : CodeUnit := 0x0A%N.

(** Where the body of an in-depth section stops: at the end of the text,
    in front of an empty line followed by a capital letter, or in front of
    a line that starts with a capitalised word, white space and another
    capital letter. *)
Definition SectionEnd (r : JSString) : Prop :=
  r = [] \/
  (exists U t, r = LF :: LF :: U :: t /\ isUpper U = true) \/
  (exists U lows ws U' t,
     r = LF :: U :: lows ++ ws ++ U' :: t /\
     isUpper U = true /\ lows <> [] /\ forallb isLower lows = true /\
     ws <> [] /\ allWhiteSpace ws /\ isUpper U' = true).

(** Where the expert overview stops: at the end of the text, in front of
    an empty line, or in front of a line that starts with a capital
    letter. *)
Definition OverviewEnd (r : JSString) : Prop :=
  r = [] \/
  (exists t, r = LF :: LF :: t) \/
  (exists U t, r = LF :: U :: t /\ isUpper U = true).

(** The lookaheads, as they stand in [sectionRegex] and in [expertRegex]. *)
Definition sectionStop : Regex :=
  Alt (Cat [newline; newline; upper])
      (Alt (Cat [newline; upper; Plus true lower; ws1; upper]) EndOfInput).

Definition overviewStop : Regex :=
  Alt (Seq newline newline) (Alt (Seq newline upper) EndOfInput).

(** [body] is the shortest piece of [body ++ post] that an end follows. *)
Definition ShortestBefore (End : JSString -> Prop) (body post : JSString)
  : Prop :=
  End post /\
  forall b1 b2, body = b1 ++ b2 -> b2 <> [] -> ~ End (b2 ++ post).

(** The first place in [s] where [name] stands in front of a white-space
    character is right behind [pre]. *)
Definition FirstHeading (s name pre : JSString) : Prop :=
  (exists c t, s = pre ++ name ++ c :: t /\ isWhiteSpace c = true) /\
  forall pre' c t,
    s = pre' ++ name ++ c :: t -> isWhiteSpace c = true ->
    length pre <= length pre'.

(** [s] read as the section pattern reads it: up to the first heading, the
    heading, all the white space behind it, the body, and what is left. *)
Definition SectionParts (s name pre w body post : JSString) : Prop :=
  s = pre ++ name ++ w ++ body ++ post /\
  FirstHeading s name pre /\
  w <> [] /\ allWhiteSpace w /\ stopsAt isWhiteSpace (body ++ post) /\
  ShortestBefore SectionEnd body post.

(** "Expert", any white space, "Overview": the heading of the overview. *)
Definition OverviewHeading (u : JSString) : Prop :=
  exists w, u = str "Expert" ++ w ++ str "Overview" /\ allWhiteSpace w.

(** Some text that satisfies [P] stands in [s] right behind [pre]. *)
Definition StandsAt (P : JSString -> Prop) (s pre : JSString) : Prop :=
  exists u t, s = pre ++ u ++ t /\ P u.

(** ... and nowhere further to the left. *)
Definition FirstAt (P : JSString -> Prop) (s pre : JSString) : Prop :=
  StandsAt P s pre /\
  forall pre', StandsAt P s pre' -> length pre <= length pre'.

(** [s] read as the overview pattern reads it: up to the first heading,
    the heading, all the white space behind it, the body, and what is
    left. *)
Definition OverviewParts (s pre u w body post : JSString) : Prop :=
  s = pre ++ u ++ w ++ body ++ post /\
  OverviewHeading u /\ FirstAt OverviewHeading s pre /\
  allWhiteSpace w /\ stopsAt isWhiteSpace (body ++ post) /\
  ShortestBefore OverviewEnd body post.

(** [u] reads "English translation:" (letters in any case, any white space
    after each word) followed by [text], a non-empty piece of one line. *)
Definition TranslationLine (u text : JSString) : Prop :=
  exists l1 w1 l2 w2,
    u = l1 ++ w1 ++ l2 ++ w2 ++ text /\
    sameIgnoringCase l1 (str "English") /\ allWhiteSpace w1 /\
    sameIgnoringCase l2 (str "translation:") /\ allWhiteSpace w2 /\
    text <> [] /\ noLineFeed text.

(** [u] reads the label and some text behind it. *)
Definition TranslationStarts (u : JSString) : Prop :=
  exists text, TranslationLine u text.

(** [u] reads the origin label, or the detail label, and some text
    behind it. *)
Definition OriginStarts (u : JSString) : Prop := exists text, OriginLine u text.
Definition DetailStarts (u : JSString) : Prop := exists text, DetailLine u text.

Definition comma : CodeUnit := 0x2C%N.

(** [Array.prototype.join] with a separator of one code unit. *)
Fixpoint joinWith (sep : CodeUnit) (pieces : list JSString) : JSString :=
  match pieces with
  | [] => []
  | piece :: pieces' =>
    match pieces' with
    | [] => piece
    | _ :: _ => piece ++ sep :: joinWith sep pieces'
    end
  end.

(** No white space at either end. *)
Definition Trimmed (t : JSString) : Prop :=
  stopsAt isWhiteSpace t /\ stopsAt isWhiteSpace (rev t).

Definition tastingPlaceholder : JSString :=
  str "Tasting notes will appear after analysis".

Definition overviewPlaceholder : JSString :=
  str "Expert overview will appear here after analysis.".

End Shapes.

Import Shapes.

(* ================================================================== *)
(** ** The rest of the chat modal: endpoint, transcript, buttons, views *)
(* ================================================================== *)

Module ChatModalView.

(** *** The address of the chat endpoint *)

Definition defaultConvexUrl : JSString :=
  str "https://combative-seahorse-878.convex.cloud".

(** [import.meta.env.VITE_CONVEX_URL || "https://..."]: the variable is a
    string or undefined. *)
Definition CONVEX_URL (VITE_CONVEX_URL : option JSString) : JSString :=
  orElse VITE_CONVEX_URL defaultConvexUrl.

Definition noFlags : Flags :=
  {| ignoreCase := false; dotAll := false; global := false; sticky := false |}.

(** [/.cloud$/]: the dot is not escaped. *)
Definition cloudRegex : RegExpObject :=
  {| source := Cat [Class ClassDot; Lit (str "cloud"); EndOfInput];
     flags := noFlags;
     lastIndex := 0 |}.

(** [String.prototype.replace] with a pattern that is not global and a
    replacement text that holds no "$": the first match is replaced. *)
Definition replace (s : JSString) (re : RegExpObject) (replacement : JSString)
  : JSString :=
  match exec re s with
  | Some m =>
    firstn (index m) s ++ replacement
    ++ skipn (index m + length (matched m)) s
  | None => s
  end.

Definition CONVEX_SITE_URL (VITE_CONVEX_URL : option JSString) : JSString :=
  replace (CONVEX_URL VITE_CONVEX_URL) cloudRegex (str ".site").

(** The [api] option of [useChat]. *)
Definition api (VITE_CONVEX_URL : option JSString) : JSString :=
  CONVEX_SITE_URL VITE_CONVEX_URL ++ str "/api/chat".

(** *** What the form sends *)

(** The message a submission of typed text sends. *)
Definition typedMessage (text : JSString)
    (attachments : option (list Attachment)) : Message :=
  {| role := User; content := text; experimental_attachments := attachments |}.




(** A handler that waits for a picture that never loads. *)
Definition Stuck (task : Task) : Prop :=
  match task with
  | Compressing _ uploadedImages => attachmentsOf uploadedImages = None
  | _ => False
  end.

(** The invariant of events handled in turn: at most 5 images, and no
    handler waits but for a picture that never loads. *)
Definition InTurn (st : State) : Prop :=
  length (uploadedImages st) <= 5 /\ Forall Stuck (awaiting st).

(** [file] with another MIME type. *)
Definition withType (t : JSString) (file : File) : File :=
  {| name := name file; type := t; bytes := bytes file;
     readable := readable file; picture := picture file |}.

(** *** The transcript *)

(** The decimal digits of a natural number, as [String(n)] gives them. *)
Fixpoint digitsOf (fuel n : nat) (acc : JSString) : JSString :=
  match fuel with
  | O => acc
  | S fuel' =>
    let acc' := N.of_nat (48 + n mod 10) :: acc in
    if n <? 10 then acc' else digitsOf fuel' (n / 10) acc'
  end.

Definition toString (n : nat) : JSString := digitsOf (S n) n [].

(** An [img] element of the transcript. *)
Record Img := { src : DataURL; alt : JSString }.

(** The images shown under a message: its attachments whose content type
    starts with "image/", in order, each with its name as alternative text,
    or "Image k" when the name is empty, k counting the images shown.  The
    attachments of this component always have a name and a content type. *)
Definition attachmentImages (msg : Message) : list Img :=
  match experimental_attachments msg with
  | Some attachments =>
    let shown :=
      filter (fun attachment =>
                startsWith (contentType attachment) (str "image/"))
             attachments in
    map (fun p =>
           let '(attachmentIndex, attachment) := p in
           {| src := url attachment;
              alt := if truthyStr (attachmentName attachment)
                     then attachmentName attachment
                     else str "Image " ++ toString (attachmentIndex + 1) |})
        (combine (seq 0 (length shown)) shown)
  | None => []
  end.

(** The image the transcript shows for the file at index [i] of an upload,
    [compressed] being what [compressImage] made of the file. *)
Definition shownImage (i : nat) (file : File) (compressed : DataURL) : Img :=
  {| src := compressed;
     alt := if truthyStr (name file) then name file
            else str "Image " ++ toString (i + 1) |}.

(** *** The remaining state of the component *)

(** [handleDragOver] and [handleDragLeave] *)
Definition handleDragOver (st : State) : State := setIsDragging true st.
Definition handleDragLeave (st : State) : State := setIsDragging false st.

(** The state the upload and submit handlers do not touch, around the one
    they do: whether the product view is shown, the captured analysis and
    its images, and [isLoading] of [useChat]. *)
Record Modal := {
  chat : State;
  showProductView : bool;
  analysisResult : JSString;
  analysisImages : list JSString;
  isLoading : bool
}.

Definition initialModal : Modal :=
  {| chat := initialState; showProductView := false; analysisResult := [];
     analysisImages := []; isLoading := false |}.

Definition setChat (f : State -> State) (m : Modal) : Modal :=
  {| chat := f (chat m); showProductView := showProductView m;
     analysisResult := analysisResult m; analysisImages := analysisImages m;
     isLoading := isLoading m |}.

Definition setShowProductView (b : bool) (m : Modal) : Modal :=
  {| chat := chat m; showProductView := b;
     analysisResult := analysisResult m; analysisImages := analysisImages m;
     isLoading := isLoading m |}.

Definition setAnalysisResult (s : JSString) (m : Modal) : Modal :=
  {| chat := chat m; showProductView := showProductView m;
     analysisResult := s; analysisImages := analysisImages m;
     isLoading := isLoading m |}.

Definition setAnalysisImages (l : list JSString) (m : Modal) : Modal :=
  {| chat := chat m; showProductView := showProductView m;
     analysisResult := analysisResult m; analysisImages := l;
     isLoading := isLoading m |}.

Definition setIsLoading (b : bool) (m : Modal) : Modal :=
  {| chat := chat m; showProductView := showProductView m;
     analysisResult := analysisResult m; analysisImages := analysisImages m;
     isLoading := b |}.

Section Reader.

(** [reader.result] after [readAsDataURL(file)]. *)
Variable readAsDataURL : File -> JSString.

(** The [onFinish] callback of [useChat].  [content] is [message.content];
    [uploaded] is [uploadedImages] as the callback sees it, from the render
    that created it.  The images are set once every reader has loaded; a
    reader that fails has no handler, and then they are never set. *)
Definition onFinish (content : JSString) (uploaded : list File) (m : Modal)
  : Modal :=
  if truthyStr content && (0 <? length uploaded)
  then
    let m1 := setAnalysisResult content m in
    if forallb readable uploaded
    then setAnalysisImages (map readAsDataURL uploaded) m1
    else m1
  else m.

(** [disabled] of the View button and of the Send button. *)
Definition viewDisabled (m : Modal) : bool :=
  negb (truthyStr (analysisResult m)) || isLoading m.

Definition sendDisabled (m : Modal) : bool :=
  isLoading m
  || (negb (truthyStr (trim (input (chat m))))
      && (length (uploadedImages (chat m)) =? 0)).

(** A click on the View button; a disabled button raises no click. *)
Definition clickView (m : Modal) : Modal :=
  if viewDisabled m then m else setShowProductView true m.

(** The product view as the modal renders it. *)
Definition productView (m : Modal) : option View :=
  CoffeeProductView {| isOpen := showProductView m;
                       analysis := analysisResult m;
                       images := analysisImages m |}.

(** What can happen to the modal: one of the events of the upload and
    submit handlers, a drag over or out of the message area, the end of a
    reply, a click on View, the closing of the product view, and [useChat]
    switching [isLoading]. *)
Inductive ModalEvent :=
| Handled (e : Event)
| DragOver
| DragLeave
| Finish (content : JSString) (uploaded : list File)
| ClickView
| CloseProductView
| Loading (b : bool).

Definition modalStep (e : ModalEvent) (m : Modal) : Modal :=
  match e with
  | Handled e' => setChat (step e') m
  | DragOver => setChat handleDragOver m
  | DragLeave => setChat handleDragLeave m
  | Finish content uploaded => onFinish content uploaded m
  | ClickView => clickView m
  | CloseProductView => setShowProductView false m
  | Loading b => setIsLoading b m
  end.

Definition modalRun (events : list ModalEvent) (m : Modal) : Modal :=
  fold_left (fun s e => modalStep e s) events m.

End Reader.

End ChatModalView.

Import ChatModalView.

(** Proof steps for boolean tests on code units. *)
Ltac bool_hyps :=
  repeat match goal with
  | H : (_ && _) = true |- _ => apply andb_true_iff in H; destruct H
  | H : (_ || _) = false |- _ => apply orb_false_iff in H; destruct H
  | H : (_ <=? _)%N = true |- _ => apply N.leb_le in H
  | H : (_ <=? _)%N = false |- _ => apply N.leb_gt in H
  | H : (_ =? _)%N = true |- _ => apply N.eqb_eq in H
  | H : (_ =? _)%N = false |- _ => apply N.eqb_neq in H
  end.

Ltac bool_false :=
  repeat match goal with
  | |- (_ || _) = false => apply orb_false_iff; split
  | |- (_ =? _)%N = false => apply N.eqb_neq; lia
  | |- (_ && _) = false =>
      apply andb_false_iff;
      solve [left; apply N.leb_gt; lia | right; apply N.leb_gt; lia]
  end.

(* ================================================================== *)

(* ================================================================== *)
(** ** Lists *)
(* ================================================================== *)

Module ListFacts.

Lemma nth_error_end {A} (l : list A) a : nth_error (l ++ [a]) (length l) = Some a.
Proof. induction l as [|b l IH]; [reflexivity | exact IH]. Qed.

Lemma filter_length_le {A} (f : A -> bool) l :
  length (filter f l) <= length l.
Proof.
  induction l as [|a l IH]; simpl; [lia|]. destruct (f a); simpl; lia.
Qed.

End ListFacts.

(** ** The matcher finds exactly the matches that exist *)
(* ================================================================== *)

Module MatcherFacts.

Lemma state_eta (x : MatchState) :
  x = {| rest := rest x; capture := capture x |}.
Proof. destruct x; reflexivity. Qed.

Lemma readChar_some ok x c z :
  readChar ok x c = Some z ->
  exists ch t, rest x = ch :: t /\ ok ch = true /\
               c {| rest := t; capture := capture x |} = Some z.
Proof.
  unfold readChar. destruct (rest x) as [|ch t]; [discriminate|].
  destruct (ok ch) eqn:E; [|discriminate].
  intros H. exists ch, t. auto.
Qed.

Section Soundness.
Variable fl : Flags.

Lemma RepeatMatcher_sound g a :
  (forall x c z, compile fl a x c = Some z ->
                 exists y, Derives fl a x y /\ c y = Some z) ->
  forall fuel x c z,
    RepeatMatcher (compile fl a) g c fuel x = Some z ->
    exists y, Derives fl (Star g a) x y /\ c y = Some z.
Proof.
  intros IHa. induction fuel as [|fuel IH]; intros x c z H; simpl in H.
  - discriminate.
  - assert (Hiter : forall z',
      compile fl a x
        (fun y => if Nat.eqb (length (rest y)) (length (rest x)) then None
                  else RepeatMatcher (compile fl a) g c fuel y) = Some z' ->
      exists y, Derives fl (Star g a) x y /\ c y = Some z').
    { intros z' E. apply IHa in E as (y & Hd & Hc).
      destruct (Nat.eqb (length (rest y)) (length (rest x))) eqn:Hlen;
        [discriminate|].
      apply Nat.eqb_neq in Hlen.
      apply IH in Hc as (y' & Hd' & Hc').
      exists y'. split; [eapply D_StarStep; eauto | assumption]. }
    destruct g.
    + destruct (compile fl a x _) as [z'|] eqn:E.
      * inversion H; subst. apply Hiter. assumption.
      * exists x. split; [constructor | assumption].
    + destruct (c x) as [z'|] eqn:E.
      * inversion H; subst. exists x. split; [constructor | assumption].
      * apply Hiter. assumption.
Qed.

(** Soundness: a result of the matcher comes from a match of the pattern
    followed by a success of the continuation. *)
Lemma compile_sound r :
  forall x c z, compile fl r x c = Some z ->
                exists y, Derives fl r x y /\ c y = Some z.
Proof.
  induction r as [|p|k|a IHa b IHb|a IHa b IHb|g a IHa|g a IHa|a IHa|a IHa|];
    intros x c z H; cbn [compile] in H.
  - exists x. split; [constructor | assumption].
  - apply readChar_some in H as (ch & t & Hx & Hok & Hc).
    apply N.eqb_eq in Hok.
    exists {| rest := t; capture := capture x |}. split; [|assumption].
    rewrite (state_eta x), Hx. simpl. constructor. assumption.
  - apply readChar_some in H as (ch & t & Hx & Hok & Hc).
    exists {| rest := t; capture := capture x |}. split; [|assumption].
    rewrite (state_eta x), Hx. simpl. constructor. assumption.
  - apply IHa in H as (y & Hd & Hc). apply IHb in Hc as (y' & Hd' & Hc').
    exists y'. split; [econstructor; eauto | assumption].
  - destruct (compile fl a x c) as [z'|] eqn:E.
    + inversion H; subst. apply IHa in E as (y & Hd & Hc).
      exists y. split; [apply D_AltL; assumption | assumption].
    + apply IHb in H as (y & Hd & Hc).
      exists y. split; [apply D_AltR; assumption | assumption].
  - eapply RepeatMatcher_sound; eauto.
  - apply IHa in H as (y & Hd & Hc).
    eapply RepeatMatcher_sound in Hc as (y' & Hd' & Hc'); eauto.
    exists y'. split; [econstructor; eauto | assumption].
  - apply IHa in H as (y & Hd & Hc).
    eexists. split; [apply D_Group; eassumption | assumption].
  - destruct (compile fl a x (fun y => Some y)) as [y|] eqn:E; [|discriminate].
    apply IHa in E as (y' & Hd & Hc). inversion Hc; subst.
    eexists. split; [apply D_Lookahead; eassumption | assumption].
  - destruct (rest x) eqn:Hx; [|discriminate].
    exists x. split; [|assumption].
    rewrite (state_eta x), Hx. constructor.
Qed.

End Soundness.

Section Completeness.
Variable fl : Flags.

Lemma Derives_length r x y :
  Derives fl r x y -> length (rest y) <= length (rest x).
Proof.
  induction 1; simpl in *; lia.
Qed.

Lemma RepeatMatcher_ext g (m : Matcher) :
  (forall x c c',
      (forall y, length (rest y) <= length (rest x) -> c y = c' y) ->
      m x c = m x c') ->
  forall fuel x c c',
    (forall y, length (rest y) <= length (rest x) -> c y = c' y) ->
    RepeatMatcher m g c fuel x = RepeatMatcher m g c' fuel x.
Proof.
  intros Hm. induction fuel as [|fuel IH]; intros x c c' Hc; simpl.
  - reflexivity.
  - rewrite (Hc x) by lia.
    rewrite (Hm x _ (fun y =>
               if Nat.eqb (length (rest y)) (length (rest x)) then None
               else RepeatMatcher m g c' fuel y)).
    + reflexivity.
    + intros y Hy. destruct (Nat.eqb _ _); [reflexivity|].
      apply IH. intros y' Hy'. apply Hc. lia.
Qed.

(** A matcher only ever hands its continuation a state that has no more
    input left than the state it started from. *)
Lemma compile_ext r :
  forall x c c',
    (forall y, length (rest y) <= length (rest x) -> c y = c' y) ->
    compile fl r x c = compile fl r x c'.
Proof.
  induction r as [|p|k|a IHa b IHb|a IHa b IHb|g a IHa|g a IHa|a IHa|a IHa|];
    intros x c c' Hc; cbn [compile].
  - apply Hc. lia.
  - unfold readChar. destruct (rest x) as [|ch t] eqn:Hx; [reflexivity|].
    destruct (_ =? _)%N; [|reflexivity]. apply Hc. simpl. lia.
  - unfold readChar. destruct (rest x) as [|ch t] eqn:Hx; [reflexivity|].
    destruct (classTest fl k ch); [|reflexivity]. apply Hc. simpl. lia.
  - apply IHa. intros y Hy. apply IHb. intros y' Hy'. apply Hc. lia.
  - rewrite (IHa x c c' Hc), (IHb x c c' Hc). reflexivity.
  - apply RepeatMatcher_ext; assumption.
  - apply IHa. intros y Hy. apply RepeatMatcher_ext; [assumption|].
    intros y' Hy'. apply Hc. lia.
  - apply IHa. intros y Hy. apply Hc. simpl. lia.
  - destruct (compile fl a x (fun y => Some y)); [|reflexivity].
    apply Hc. simpl. lia.
  - destruct (rest x) eqn:Hx; [|reflexivity]. apply Hc. rewrite Hx. simpl. lia.
Qed.

(** The fuel of a repetition is never used up: any amount above the length
    of the input left gives the same result. *)
Lemma RepeatMatcher_fuel g a c :
  forall f1 f2 x,
    length (rest x) < f1 -> length (rest x) < f2 ->
    RepeatMatcher (compile fl a) g c f1 x
    = RepeatMatcher (compile fl a) g c f2 x.
Proof.
  induction f1 as [|f1 IH]; intros f2 x H1 H2; [lia|].
  destruct f2 as [|f2]; [lia|]. simpl.
  rewrite (compile_ext a x _ (fun y =>
             if Nat.eqb (length (rest y)) (length (rest x)) then None
             else RepeatMatcher (compile fl a) g c f2 y)).
  - reflexivity.
  - intros y Hy. destruct (Nat.eqb _ _) eqn:E; [reflexivity|].
    apply Nat.eqb_neq in E. apply IH; lia.
Qed.

(** Completeness: when the pattern has a match after which the continuation
    succeeds whatever the capture, the matcher does not fail. *)
Lemma compile_complete r x y :
  Derives fl r x y ->
  forall x' c,
    rest x' = rest x ->
    (forall y', rest y' = rest y -> c y' <> None) ->
    compile fl r x' c <> None.
Proof.
  induction 1 as [x|p ch t cap Hch|k ch t cap Hk|a b x y z _ IHa _ IHb
                  |a b x y _ IHa|a b x y _ IHb|g a x
                  |g a x y z Ha IHa Hlen Hs IHs|g a x y z Ha IHa Hs IHs
                  |a x y _ IHa|a x y _ IHa|cap];
    intros x' c Hx Hc; cbn [compile].
  - apply Hc. assumption.
  - unfold readChar. simpl in Hx. rewrite Hx.
    apply N.eqb_eq in Hch. rewrite Hch. apply Hc. reflexivity.
  - unfold readChar. simpl in Hx. rewrite Hx, Hk. apply Hc. reflexivity.
  - apply IHa; [assumption|]. intros y' Hy'. apply IHb; assumption.
  - destruct (compile fl a x' c) eqn:E; [discriminate|].
    exfalso. revert E. apply IHa; assumption.
  - destruct (compile fl a x' c) eqn:E; [discriminate|].
    apply IHb; assumption.
  - simpl. destruct g.
    + destruct (compile fl a x' _); [discriminate|]. apply Hc. assumption.
    + destruct (c x') eqn:E; [discriminate|].
      exfalso. revert E. apply Hc. assumption.
  - assert (Hiter :
      compile fl a x'
        (fun y0 => if Nat.eqb (length (rest y0)) (length (rest x')) then None
                   else RepeatMatcher (compile fl a) g c (length (rest x')) y0)
      <> None).
    { apply IHa; [assumption|]. intros y' Hy'.
      pose proof (Derives_length _ _ _ Ha) as Hle.
      destruct (Nat.eqb _ _) eqn:E.
      - apply Nat.eqb_eq in E. rewrite Hy', Hx in E. contradiction.
      - rewrite (RepeatMatcher_fuel g a c (length (rest x'))
                   (S (length (rest y'))) y') by (rewrite ?Hy', ?Hx; lia).
        apply (IHs y' c Hy' Hc). }
    simpl. destruct g.
    + destruct (compile fl a x' _); [discriminate|]. contradiction.
    + destruct (c x'); [discriminate|]. assumption.
  - apply IHa; [assumption|]. intros y' Hy'. apply (IHs y' c Hy' Hc).
  - apply IHa; [assumption|]. intros y' Hy'. apply Hc. simpl. assumption.
  - destruct (compile fl a x' (fun y0 => Some y0)) eqn:E.
    + apply Hc. simpl. assumption.
    + exfalso. revert E. apply IHa; [assumption|]. discriminate.
  - simpl in Hx. rewrite Hx. apply Hc. assumption.
Qed.

(** A match leaves the capture set once it was set, and sets it when the
    pattern has the group on every path. *)
Lemma Derives_capture r x y :
  Derives fl r x y ->
  (capture x <> None -> capture y <> None) /\
  (setsGroup r = true -> capture y <> None).
Proof.
  induction 1; simpl in *; repeat split; intros;
    repeat match goal with
           | H : _ /\ _ |- _ => destruct H
           | H : _ || _ = true |- _ => apply orb_true_iff in H; destruct H
           | H : _ && _ = true |- _ => apply andb_true_iff in H; destruct H
           end; try discriminate; auto.
Qed.

End Completeness.

(** *** A greedy run in front of a continuation that cannot fail *)

Lemma RepeatMatcher_total (m : Matcher) c fuel x :
  (forall y, c y <> None) -> 0 < fuel ->
  RepeatMatcher m true c fuel x <> None.
Proof.
  intros Hc Hf. destruct fuel as [|fuel]; [lia|]. simpl.
  destruct (m x _); [discriminate | apply Hc].
Qed.

(** With nothing to backtrack for, a greedy repetition of a class reads
    the whole run of its members. *)
Lemma RepeatMatcher_greedy_class P c :
  (forall y, c y <> None) ->
  forall fuel x z,
    length (rest x) < fuel ->
    RepeatMatcher (readChar P) true c fuel x = Some z ->
    exists y, c y = Some z /\ stopsAt P (rest y).
Proof.
  intros Hc. induction fuel as [|fuel IH]; intros x z Hlen H; [lia|].
  simpl in H. unfold readChar at 1 in H.
  destruct (rest x) as [|ch t] eqn:Hx.
  - exists x. rewrite Hx. split; [assumption | exact I].
  - destruct (P ch) eqn:Hp.
    + cbn [rest] in H.
      assert (E : Nat.eqb (length t) (length (ch :: t)) = false)
        by (apply Nat.eqb_neq; simpl; lia).
      rewrite E in H. simpl in Hlen.
      destruct (RepeatMatcher (readChar P) true c fuel
                  {| rest := t; capture := capture x |}) as [z'|] eqn:Er.
      * inversion H; subst. eapply IH; [|exact Er]. simpl. lia.
      * exfalso. revert Er. apply RepeatMatcher_total; [assumption | lia].
    + exists x. rewrite Hx. split; [assumption | exact Hp].
Qed.

Lemma GroupPlus_last fl k x z :
  compile fl (Cat [Group (Plus true (Class k))]) x (fun y => Some y) = Some z ->
  stopsAt (classTest fl k) (rest z).
Proof.
  cbn [Cat compile]. intros H.
  apply readChar_some in H as (ch & t & Hx & Hk & H).
  apply RepeatMatcher_greedy_class in H as (y & Hy & Hstop).
  - inversion Hy; subst. assumption.
  - discriminate.
  - simpl. lia.
Qed.

(** What holds of the input left by the last piece of a concatenation
    holds of the input left by the whole. *)
Lemma Cat_last_rest fl (Q : JSString -> Prop) last rs :
  (forall x z, compile fl (Cat [last]) x (fun y => Some y) = Some z ->
               Q (rest z)) ->
  forall x z,
    compile fl (Cat (rs ++ [last])) x (fun y => Some y) = Some z ->
    Q (rest z).
Proof.
  intros Hlast. induction rs as [|r rs IH]; intros x z H.
  - apply (Hlast x z H).
  - simpl app in H. cbn [Cat compile] in H.
    apply compile_sound in H as (y & _ & H). apply (IH y z H).
Qed.

(** *** One start position, then all of them *)

Lemma matchAt_sound re t y :
  matchAt re t = Some y ->
  Derives (flags re) (source re) {| rest := t; capture := None |} y.
Proof.
  unfold matchAt. intros H. apply compile_sound in H as (y' & Hd & Hc).
  inversion Hc; subst. assumption.
Qed.

Lemma matchAt_complete re t y :
  Derives (flags re) (source re) {| rest := t; capture := None |} y ->
  matchAt re t <> None.
Proof.
  unfold matchAt. intros H.
  eapply compile_complete; [eassumption | reflexivity | discriminate].
Qed.

Lemma matchAt_none re t :
  matchAt re t = None <->
  (forall cap after, ~ MatchesAt re t cap after).
Proof.
  split.
  - intros H cap after Hd. apply matchAt_complete in Hd. contradiction.
  - intros H. destruct (matchAt re t) as [y|] eqn:E; [|reflexivity].
    apply matchAt_sound in E. exfalso.
    apply (H (capture y) (rest y)). unfold MatchesAt.
    rewrite <- state_eta. assumption.
Qed.

Lemma execFrom_some re : forall t i m,
  execFrom re i t = Some m ->
  exists k y,
    index m = i + k /\ k <= length t /\
    matchAt re (skipn k t) = Some y /\
    group1 m = capture y /\
    matched m = firstn (length (skipn k t) - length (rest y)) (skipn k t) /\
    (forall j, j < k -> matchAt re (skipn j t) = None).
Proof.
  induction t as [|ch t IH]; intros i m H; simpl in H.
  - destruct (matchAt re []) as [y|] eqn:E; [|discriminate].
    inversion H; subst; clear H. exists 0, y. simpl.
    repeat split; auto; try lia.
  - destruct (matchAt re (ch :: t)) as [y|] eqn:E.
    + inversion H; subst; clear H. exists 0, y. simpl.
      repeat split; auto; try lia.
    + apply IH in H as (k & y & Hi & Hk & Hm & Hg & Hmt & Hfirst).
      exists (S k), y. simpl. repeat split; auto; try lia.
      intros [|j] Hj; simpl; [assumption|]. apply Hfirst. lia.
Qed.

Lemma execFrom_none re : forall t i,
  execFrom re i t = None ->
  forall j, matchAt re (skipn j t) = None.
Proof.
  induction t as [|ch t IH]; intros i H j; simpl in H.
  - destruct (matchAt re []) eqn:E; [discriminate|].
    destruct j; simpl; assumption.
  - destruct (matchAt re (ch :: t)) eqn:E; [discriminate|].
    destruct j as [|j]; simpl; [assumption|]. eapply IH; eassumption.
Qed.

Lemma execFrom_first re : forall t i k y,
  matchAt re (skipn k t) = Some y ->
  (forall j, j < k -> matchAt re (skipn j t) = None) ->
  k <= length t ->
  execFrom re i t =
    Some {| index := i + k;
            matched := firstn (length (skipn k t) - length (rest y))
                              (skipn k t);
            group1 := capture y |}.
Proof.
  induction t as [|ch t IH]; intros i k y Hm Hfirst Hk.
  - assert (k = 0) by (simpl in Hk; lia). subst. simpl in *.
    rewrite Hm, Nat.add_0_r. reflexivity.
  - destruct k as [|k].
    + simpl in *. rewrite Hm, Nat.add_0_r. reflexivity.
    + pose proof (Hfirst 0 ltac:(lia)) as H0. cbn [skipn] in H0, Hm |- *.
      cbn [execFrom]. rewrite H0.
      rewrite (IH (S i) k y Hm).
      * rewrite Nat.add_succ_comm. reflexivity.
      * intros j Hj. apply (Hfirst (S j)). lia.
      * simpl in Hk. lia.
Qed.

(** A pattern that is neither global nor sticky is searched from offset 0,
    whatever its [lastIndex], and is left as it was. *)
Lemma RegExpBuiltinExec_plain re s :
  global (flags re) = false -> sticky (flags re) = false ->
  RegExpBuiltinExec re s = (execFrom re 0 s, re).
Proof.
  intros Hg Hs. unfold RegExpBuiltinExec. rewrite Hg, Hs. simpl.
  destruct (execFrom re 0 s); reflexivity.
Qed.

Lemma exec_plain re s :
  global (flags re) = false -> sticky (flags re) = false ->
  exec re s = execFrom re 0 s.
Proof.
  intros Hg Hs. unfold exec. rewrite RegExpBuiltinExec_plain by assumption.
  reflexivity.
Qed.

End MatcherFacts.

(* ================================================================== *)
(** ** What the patterns of the program match *)
(* ================================================================== *)

Module PatternFacts.
Import MatcherFacts.

Lemma Derives_Seq_inv fl a b x z :
  Derives fl (Seq a b) x z <->
  exists y, Derives fl a x y /\ Derives fl b y z.
Proof.
  split.
  - intros H. inversion H; subst. eauto.
  - intros (y & Ha & Hb). econstructor; eauto.
Qed.

Lemma Derives_Empty_inv fl x y : Derives fl Empty x y <-> y = x.
Proof.
  split.
  - intros H. inversion H. reflexivity.
  - intros ->. constructor.
Qed.

Lemma state_ext (x y : MatchState) :
  rest x = rest y -> capture x = capture y -> x = y.
Proof. destruct x, y; simpl; intros; subst; reflexivity. Qed.

(** A literal reads characters that canonicalize like its own. *)
Lemma Derives_Lit fl p : forall x y,
  Derives fl (Lit p) x y <->
  exists l, rest x = l ++ rest y /\
            Forall2 (fun ch pc => Canonicalize fl ch = Canonicalize fl pc) l p /\
            capture y = capture x.
Proof.
  unfold Lit. induction p as [|pc p IH]; intros x y; simpl.
  - rewrite Derives_Empty_inv. split.
    + intros ->. exists []. repeat split; constructor.
    + intros (l & Hr & Hf & Hc). inversion Hf; subst. simpl in Hr.
      apply state_ext; auto.
  - rewrite Derives_Seq_inv. split.
    + intros (m & Hch & Hrest). inversion Hch; subst.
      apply IH in Hrest as (l & Hr & Hf & Hc). simpl in *.
      exists (ch :: l). simpl. rewrite Hr. repeat split; auto.
    + intros (l & Hr & Hf & Hc). inversion Hf as [|ch pc' l' p' Hch Hf']; subst.
      exists {| rest := l' ++ rest y; capture := capture x |}. split.
      * rewrite (state_eta x), Hr. simpl. constructor. assumption.
      * apply IH. exists l'. simpl. auto.
Qed.

(** A repeated class reads a run of members of the class. *)
Lemma Derives_StarClass fl g k x y :
  Derives fl (Star g (Class k)) x y <->
  exists w, rest x = w ++ rest y /\ forallb (classTest fl k) w = true /\
            capture y = capture x.
Proof.
  split.
  - intros H. remember (Star g (Class k)) as r eqn:Hr.
    induction H; try discriminate; inversion Hr; subst.
    + exists []. auto.
    + destruct (IHDerives2 eq_refl) as (w & Hw & Hall & Hc).
      inversion H; subst. simpl in *.
      exists (ch :: w). simpl. rewrite Hw, Hall.
      match goal with Hk : classTest _ _ _ = true |- _ => rewrite Hk end.
      auto.
  - intros (w & Hw & Hall & Hc). revert x Hw Hc.
    induction w as [|ch w IH]; intros x Hw Hc; simpl in *.
    + rewrite (state_ext y x) by auto. constructor.
    + apply andb_true_iff in Hall as [Hch Hall].
      apply D_StarStep with (y := {| rest := w ++ rest y; capture := capture x |}).
      * rewrite (state_eta x), Hw. constructor. assumption.
      * rewrite Hw. simpl. lia.
      * apply IH; auto.
Qed.

Lemma Derives_PlusClass fl g k x y :
  Derives fl (Plus g (Class k)) x y <->
  exists w, w <> [] /\ rest x = w ++ rest y /\
            forallb (classTest fl k) w = true /\ capture y = capture x.
Proof.
  split.
  - intros H. inversion H as [| | | | | | | |g' a' x' m z' Hm Hs| | |]; subst.
    apply Derives_StarClass in Hs as (w & Hw & Hall & Hc).
    inversion Hm as [| |k' ch t cap Hk| | | | | | | | |]; subst. simpl in *.
    exists (ch :: w). rewrite Hw. simpl. rewrite Hk, Hall.
    repeat split; auto. discriminate.
  - intros (w & Hne & Hw & Hall & Hc).
    destruct w as [|ch w]; [contradiction|]. simpl in *.
    apply andb_true_iff in Hall as [Hch Hall].
    apply D_Plus with (y := {| rest := w ++ rest y; capture := capture x |}).
    + rewrite (state_eta x), Hw. constructor. assumption.
    + apply Derives_StarClass. exists w. auto.
Qed.

Lemma Derives_Group_inv fl a x z :
  Derives fl (Group a) x z <->
  exists y, Derives fl a x y /\
            z = {| rest := rest y;
                   capture := Some (firstn (length (rest x) - length (rest y))
                                           (rest x)) |}.
Proof.
  split.
  - intros H. inversion H; subst. eauto.
  - intros (y & Ha & ->). constructor. assumption.
Qed.

Lemma firstn_consumed {A} (w r : list A) :
  firstn (length (w ++ r) - length r) (w ++ r) = w.
Proof.
  rewrite length_app, Nat.add_sub.
  rewrite firstn_app, Nat.sub_diag, firstn_all. simpl. apply app_nil_r.
Qed.

(** The group around a repeated class captures the run it read. *)
Lemma Derives_GroupPlusClass fl g k x z :
  Derives fl (Group (Plus g (Class k))) x z <->
  exists w, w <> [] /\ rest x = w ++ rest z /\
            forallb (classTest fl k) w = true /\ capture z = Some w.
Proof.
  rewrite Derives_Group_inv. split.
  - intros (y & Hp & ->). apply Derives_PlusClass in Hp as (w & Hne & Hw & Hall & _).
    exists w. simpl. rewrite Hw, firstn_consumed. auto.
  - intros (w & Hne & Hw & Hall & Hc).
    exists {| rest := rest z; capture := capture x |}. split.
    + apply Derives_PlusClass. exists w. auto.
    + simpl. rewrite Hw, firstn_consumed. apply state_ext; simpl; auto.
Qed.

(** *** Stepping through a concatenation *)

Lemma Cat_Lit_step fl p rs t cap z :
  Derives fl (Cat (Lit p :: rs)) {| rest := t; capture := cap |} z <->
  exists l t',
    t = l ++ t' /\
    Forall2 (fun ch pc => Canonicalize fl ch = Canonicalize fl pc) l p /\
    Derives fl (Cat rs) {| rest := t'; capture := cap |} z.
Proof.
  cbn [Cat]. rewrite Derives_Seq_inv. split.
  - intros (y & Hl & Hr). apply Derives_Lit in Hl as (l & Ht & Hf & Hc).
    simpl in *. exists l, (rest y). repeat split; auto.
    rewrite <- Hc, <- state_eta. assumption.
  - intros (l & t' & -> & Hf & Hr).
    exists {| rest := t'; capture := cap |}. split; [|assumption].
    apply Derives_Lit. exists l. auto.
Qed.

Lemma Cat_Star_step fl g k rs t cap z :
  Derives fl (Cat (Star g (Class k) :: rs)) {| rest := t; capture := cap |} z <->
  exists w t',
    t = w ++ t' /\ forallb (classTest fl k) w = true /\
    Derives fl (Cat rs) {| rest := t'; capture := cap |} z.
Proof.
  cbn [Cat]. rewrite Derives_Seq_inv. split.
  - intros (y & Hl & Hr). apply Derives_StarClass in Hl as (w & Ht & Hf & Hc).
    simpl in *. exists w, (rest y). repeat split; auto.
    rewrite <- Hc, <- state_eta. assumption.
  - intros (w & t' & -> & Hf & Hr).
    exists {| rest := t'; capture := cap |}. split; [|assumption].
    apply Derives_StarClass. exists w. auto.
Qed.

Lemma Cat_Plus_step fl g k rs t cap z :
  Derives fl (Cat (Plus g (Class k) :: rs)) {| rest := t; capture := cap |} z <->
  exists w t',
    w <> [] /\ t = w ++ t' /\ forallb (classTest fl k) w = true /\
    Derives fl (Cat rs) {| rest := t'; capture := cap |} z.
Proof.
  cbn [Cat]. rewrite Derives_Seq_inv. split.
  - intros (y & Hl & Hr).
    apply Derives_PlusClass in Hl as (w & Hne & Ht & Hf & Hc).
    simpl in *. exists w, (rest y). repeat split; auto.
    rewrite <- Hc, <- state_eta. assumption.
  - intros (w & t' & Hne & -> & Hf & Hr).
    exists {| rest := t'; capture := cap |}. split; [|assumption].
    apply Derives_PlusClass. exists w. auto.
Qed.

Lemma Cat_GroupPlus_step fl g k rs t cap z :
  Derives fl (Cat (Group (Plus g (Class k)) :: rs))
          {| rest := t; capture := cap |} z <->
  exists w t',
    w <> [] /\ t = w ++ t' /\ forallb (classTest fl k) w = true /\
    Derives fl (Cat rs) {| rest := t'; capture := Some w |} z.
Proof.
  cbn [Cat]. rewrite Derives_Seq_inv. split.
  - intros (y & Hl & Hr).
    apply Derives_GroupPlusClass in Hl as (w & Hne & Ht & Hf & Hc).
    simpl in *. exists w, (rest y). repeat split; auto.
    rewrite <- Hc, <- state_eta. assumption.
  - intros (w & t' & Hne & -> & Hf & Hr).
    exists {| rest := t'; capture := Some w |}. split; [|assumption].
    apply Derives_GroupPlusClass. exists w. auto.
Qed.

Lemma Derives_GroupStarClass fl g k x z :
  Derives fl (Group (Star g (Class k))) x z <->
  exists w, rest x = w ++ rest z /\
            forallb (classTest fl k) w = true /\ capture z = Some w.
Proof.
  rewrite Derives_Group_inv. split.
  - intros (y & Hp & ->).
    apply Derives_StarClass in Hp as (w & Hw & Hall & _).
    exists w. simpl. rewrite Hw, firstn_consumed. auto.
  - intros (w & Hw & Hall & Hc).
    exists {| rest := rest z; capture := capture x |}. split.
    + apply Derives_StarClass. exists w. auto.
    + simpl. rewrite Hw, firstn_consumed. apply state_ext; simpl; auto.
Qed.

Lemma Cat_GroupStar_step fl g k rs t cap z :
  Derives fl (Cat (Group (Star g (Class k)) :: rs))
          {| rest := t; capture := cap |} z <->
  exists w t',
    t = w ++ t' /\ forallb (classTest fl k) w = true /\
    Derives fl (Cat rs) {| rest := t'; capture := Some w |} z.
Proof.
  cbn [Cat]. rewrite Derives_Seq_inv. split.
  - intros (y & Hl & Hr).
    apply Derives_GroupStarClass in Hl as (w & Ht & Hf & Hc).
    simpl in *. exists w, (rest y). repeat split; auto.
    rewrite <- Hc, <- state_eta. assumption.
  - intros (w & t' & -> & Hf & Hr).
    exists {| rest := t'; capture := Some w |}. split; [|assumption].
    apply Derives_GroupStarClass. exists w. auto.
Qed.

Lemma Cat_nil_step fl x z : Derives fl (Cat []) x z <-> z = x.
Proof. apply Derives_Empty_inv. Qed.

(** *** Code units: case, white space, digits *)

Lemma letter_range_not_space c :
  (0x41 <= c <= 0x7A)%N -> isWhiteSpace c = false.
Proof. intros H. unfold isWhiteSpace. bool_false. Qed.

Lemma letter_range_not_digit c :
  (0x41 <= c <= 0x7A)%N -> isDigit c = false.
Proof. intros H. unfold isDigit. bool_false. Qed.

Lemma toUpperCase_cases c :
  (toUpperCase c = c /\ ~ (0x61 <= c <= 0x7A)%N) \/
  (toUpperCase c = (c - 0x20)%N /\ (0x61 <= c <= 0x7A)%N).
Proof.
  unfold toUpperCase.
  destruct ((0x61 <=? c) && (c <=? 0x7A))%N eqn:E.
  - right. bool_hyps. split; [reflexivity | lia].
  - left. split; [reflexivity|]. intros [H1 H2].
    apply andb_false_iff in E as [E|E]; apply N.leb_gt in E; lia.
Qed.

Lemma toLowerCase_cases c :
  (toLowerCase c = c /\ ~ (0x41 <= c <= 0x5A)%N) \/
  (toLowerCase c = (c + 0x20)%N /\ (0x41 <= c <= 0x5A)%N).
Proof.
  unfold toLowerCase.
  destruct ((0x41 <=? c) && (c <=? 0x5A))%N eqn:E.
  - right. bool_hyps. split; [reflexivity | lia].
  - left. split; [reflexivity|]. intros [H1 H2].
    apply andb_false_iff in E as [E|E]; apply N.leb_gt in E; lia.
Qed.

Lemma isWhiteSpace_upper c : isWhiteSpace (toUpperCase c) = isWhiteSpace c.
Proof.
  destruct (toUpperCase_cases c) as [[-> _]|[-> H]]; [reflexivity|].
  rewrite !letter_range_not_space by lia. reflexivity.
Qed.

Lemma isWhiteSpace_lower c : isWhiteSpace (toLowerCase c) = isWhiteSpace c.
Proof.
  destruct (toLowerCase_cases c) as [[-> _]|[-> H]]; [reflexivity|].
  rewrite !letter_range_not_space by lia. reflexivity.
Qed.

Lemma isDigit_upper c : isDigit (toUpperCase c) = isDigit c.
Proof.
  destruct (toUpperCase_cases c) as [[-> _]|[-> H]]; [reflexivity|].
  rewrite !letter_range_not_digit by lia. reflexivity.
Qed.

Lemma isDigit_lower c : isDigit (toLowerCase c) = isDigit c.
Proof.
  destruct (toLowerCase_cases c) as [[-> _]|[-> H]]; [reflexivity|].
  rewrite !letter_range_not_digit by lia. reflexivity.
Qed.

(** Under [i], [\s] and [\d] still match white space and digits only. *)
Lemma classTest_space_i c : classTest flagsI ClassSpace c = isWhiteSpace c.
Proof.
  unfold classTest. cbn [ignoreCase flagsI classMember].
  rewrite isWhiteSpace_upper, isWhiteSpace_lower.
  destruct (isWhiteSpace c); reflexivity.
Qed.

Lemma classTest_digit_i c : classTest flagsI ClassDigit c = isDigit c.
Proof.
  unfold classTest. cbn [ignoreCase flagsI classMember].
  rewrite isDigit_upper, isDigit_lower.
  destruct (isDigit c); reflexivity.
Qed.

Lemma forallb_ext_eq {A} (f g : A -> bool) l :
  (forall a, f a = g a) -> forallb f l = forallb g l.
Proof.
  intros H. induction l as [|a l IH]; simpl; [reflexivity|].
  rewrite H, IH. reflexivity.
Qed.

Lemma digit_not_space c : isDigit c = true -> isWhiteSpace c = false.
Proof.
  unfold isDigit. intros H. bool_hyps. unfold isWhiteSpace. bool_false.
Qed.

Lemma Forall2_sameIgnoringCase l p :
  Forall2 (fun ch pc => Canonicalize flagsI ch = Canonicalize flagsI pc) l p
  <-> sameIgnoringCase l p.
Proof.
  unfold sameIgnoringCase, Canonicalize. cbn [ignoreCase flagsI]. split.
  - induction 1; simpl; congruence.
  - revert p. induction l as [|c l IH]; intros [|pc p] H;
      simpl in H; try discriminate; constructor.
    + congruence.
    + apply IH. congruence.
Qed.

Lemma sameIgnoringCase_length l p :
  sameIgnoringCase l p -> length l = length p.
Proof.
  unfold sameIgnoringCase. intros H.
  rewrite <- (length_map toUpperCase l), H. apply length_map.
Qed.

Lemma sameIgnoringCase_cons l pc p :
  sameIgnoringCase l (pc :: p) ->
  exists c l', l = c :: l' /\ toUpperCase c = toUpperCase pc /\
               sameIgnoringCase l' p.
Proof.
  unfold sameIgnoringCase. destruct l as [|c l']; simpl; intros H;
    [discriminate|]. inversion H. eauto.
Qed.

(** A pattern character that is no letter is matched by itself only. *)
Lemma toUpperCase_nonletter c p :
  toUpperCase c = p -> ~ (0x41 <= p <= 0x5A)%N -> c = p.
Proof.
  intros H Hp. destruct (toUpperCase_cases c) as [[E _]|[E Hr]];
    rewrite E in H; [assumption | lia].
Qed.

(** *** Splitting a string in one way only *)

Lemma app_length_inj {A} (l l' r r' : list A) :
  length l = length l' -> l ++ r = l' ++ r' -> l = l' /\ r = r'.
Proof.
  revert l'. induction l as [|a l IH]; intros [|a' l'] Hlen H;
    simpl in *; try discriminate; auto.
  inversion H; subst. destruct (IH l') as [-> ->]; auto.
Qed.

Lemma span_unique P w w' r r' :
  forallb P w = true -> forallb P w' = true ->
  stopsAt P r -> stopsAt P r' ->
  w ++ r = w' ++ r' -> w = w' /\ r = r'.
Proof.
  revert w'. induction w as [|c w IH]; intros [|c' w'] Hw Hw' Hr Hr' H;
    simpl in *.
  - auto.
  - subst r. simpl in Hr. apply andb_true_iff in Hw' as [Hc _]. congruence.
  - subst r'. simpl in Hr'. apply andb_true_iff in Hw as [Hc _]. congruence.
  - inversion H; subst. apply andb_true_iff in Hw as [_ Hw].
    apply andb_true_iff in Hw' as [_ Hw'].
    destruct (IH w' Hw Hw' Hr Hr') as [-> ->]; auto.
Qed.

Lemma literal_unique l l' r r' p :
  sameIgnoringCase l p -> sameIgnoringCase l' p ->
  l ++ r = l' ++ r' -> l = l' /\ r = r'.
Proof.
  intros H H'. apply app_length_inj.
  rewrite (sameIgnoringCase_length _ _ H), (sameIgnoringCase_length _ _ H').
  reflexivity.
Qed.

(** White space stops in front of a literal whose first character is none. *)
Lemma literal_stops_space l p r :
  sameIgnoringCase l p ->
  match p with
  | pc :: _ => isWhiteSpace (toUpperCase pc)
  | [] => true
  end = false ->
  stopsAt isWhiteSpace (l ++ r).
Proof.
  destruct p as [|pc p]; [discriminate|]. intros H Hpc.
  apply sameIgnoringCase_cons in H as (c & l' & -> & Hc & _).
  simpl. rewrite <- isWhiteSpace_upper, Hc. assumption.
Qed.

Lemma digits_stop_space ds r :
  ds <> [] -> allDigits ds -> stopsAt isWhiteSpace (ds ++ r).
Proof.
  destruct ds as [|d ds]; [contradiction|]. unfold allDigits. simpl.
  intros _ H. apply andb_true_iff in H as [Hd _].
  apply digit_not_space. assumption.
Qed.

(** *** The roast-level pattern *)

Lemma str_slash5 : str "/5" = [0x2F; 0x35]%N.
Proof. reflexivity. Qed.

Lemma literal_slash5 l :
  sameIgnoringCase l (str "/5") -> l = str "/5".
Proof.
  rewrite str_slash5. intros H.
  apply sameIgnoringCase_cons in H as (c1 & l1 & -> & H1 & H).
  apply sameIgnoringCase_cons in H as (c2 & l2 & -> & H2 & H).
  unfold sameIgnoringCase in H. destruct l2; [|discriminate].
  apply toUpperCase_nonletter in H1;
    [|intros [A _]; vm_compute in A; apply A; reflexivity].
  apply toUpperCase_nonletter in H2;
    [|intros [A _]; vm_compute in A; apply A; reflexivity].
  subst. reflexivity.
Qed.

Lemma sameIgnoringCase_refl l : sameIgnoringCase l l.
Proof. reflexivity. Qed.

(** The pattern matches at the head of [t] exactly when [t] starts with
    the phrase; the group holds the digits. *)
Lemma roast_MatchesAt t cap after :
  MatchesAt roastRegex t cap after <->
  exists u ds, t = u ++ after /\ RoastPhrase u ds /\ cap = Some ds.
Proof.
  unfold MatchesAt, roastRegex, ws0. cbn [source flags]. split.
  - intros H.
    apply Cat_Lit_step in H as (l1 & t1 & -> & F1 & H).
    apply Cat_Star_step in H as (w1 & t2 & -> & A1 & H).
    apply Cat_Lit_step in H as (l2 & t3 & -> & F2 & H).
    apply Cat_Star_step in H as (w2 & t4 & -> & A2 & H).
    apply Cat_Lit_step in H as (l3 & t5 & -> & F3 & H).
    apply Cat_Star_step in H as (w3 & t6 & -> & A3 & H).
    apply Cat_GroupPlus_step in H as (ds & t7 & Hne & -> & Ad & H).
    apply Cat_Lit_step in H as (l4 & t8 & -> & F4 & H).
    apply Cat_nil_step in H. inversion H; subst; clear H.
    apply Forall2_sameIgnoringCase in F1, F2, F3, F4.
    apply literal_slash5 in F4. subst l4.
    rewrite (forallb_ext_eq _ _ _ classTest_space_i) in A1.
    rewrite (forallb_ext_eq _ _ _ classTest_space_i) in A2.
    rewrite (forallb_ext_eq _ _ _ classTest_space_i) in A3.
    rewrite (forallb_ext_eq _ _ _ classTest_digit_i) in Ad.
    exists (l1 ++ w1 ++ l2 ++ w2 ++ l3 ++ w3 ++ ds ++ str "/5"), ds.
    split; [|split; [|reflexivity]].
    + repeat rewrite <- app_assoc. reflexivity.
    + exists l1, w1, l2, w2, l3, w3. repeat split; assumption.
  - intros (u & ds & -> & (l1 & w1 & l2 & w2 & l3 & w3 & -> & F1 & A1 & F2
                          & A2 & F3 & A3 & Hne & Ad) & ->).
    repeat rewrite <- app_assoc.
    apply Cat_Lit_step. eexists _, _. split; [reflexivity|].
    split; [apply Forall2_sameIgnoringCase; assumption|].
    apply Cat_Star_step. eexists _, _. split; [reflexivity|].
    split; [rewrite (forallb_ext_eq _ _ _ classTest_space_i); assumption|].
    apply Cat_Lit_step. eexists _, _. split; [reflexivity|].
    split; [apply Forall2_sameIgnoringCase; assumption|].
    apply Cat_Star_step. eexists _, _. split; [reflexivity|].
    split; [rewrite (forallb_ext_eq _ _ _ classTest_space_i); assumption|].
    apply Cat_Lit_step. eexists _, _. split; [reflexivity|].
    split; [apply Forall2_sameIgnoringCase; assumption|].
    apply Cat_Star_step. eexists _, _. split; [reflexivity|].
    split; [rewrite (forallb_ext_eq _ _ _ classTest_space_i); assumption|].
    apply Cat_GroupPlus_step. eexists _, _. split; [eassumption|].
    split; [reflexivity|].
    split; [rewrite (forallb_ext_eq _ _ _ classTest_digit_i); assumption|].
    apply Cat_Lit_step. eexists _, _. split; [reflexivity|].
    split; [apply Forall2_sameIgnoringCase; apply sameIgnoringCase_refl|].
    apply Cat_nil_step. reflexivity.
Qed.

(** At one position the phrase can be read in one way only. *)
Lemma RoastPhrase_unique u ds post u' ds' post' :
  RoastPhrase u ds -> RoastPhrase u' ds' ->
  u ++ post = u' ++ post' -> ds = ds'.
Proof.
  intros (l1 & w1 & l2 & w2 & l3 & w3 & -> & F1 & A1 & F2 & A2 & F3 & A3
          & Hne & Ad)
         (l1' & w1' & l2' & w2' & l3' & w3' & -> & F1' & A1' & F2' & A2'
          & F3' & A3' & Hne' & Ad') H.
  repeat rewrite <- app_assoc in H.
  apply (literal_unique _ _ _ _ _ F1 F1') in H as [_ H].
  apply (span_unique isWhiteSpace) in H as [_ H]; try assumption;
    try (eapply literal_stops_space; [eassumption | reflexivity]).
  apply (literal_unique _ _ _ _ _ F2 F2') in H as [_ H].
  apply (span_unique isWhiteSpace) in H as [_ H]; try assumption;
    try (eapply literal_stops_space; [eassumption | reflexivity]).
  apply (literal_unique _ _ _ _ _ F3 F3') in H as [_ H].
  apply (span_unique isWhiteSpace) in H as [_ H]; try assumption;
    try (apply digits_stop_space; assumption).
  apply (span_unique isDigit) in H as [H _]; try assumption;
    try (rewrite str_slash5; reflexivity).
Qed.

End PatternFacts.

(* ================================================================== *)
(** ** Numbers read from digits *)
(* ================================================================== *)

Module NumberFacts.
Import PatternFacts.

Lemma digitValue_digit c :
  isDigit c = true -> digitValue 10 c = Some (Z.of_N (c - 0x30)).
Proof.
  unfold isDigit, digitValue. intros H. rewrite H.
  apply andb_true_iff in H as [H1 H2].
  apply N.leb_le in H1. apply N.leb_le in H2.
  assert (E : (c - 0x30 <? 10)%N = true) by (apply N.ltb_lt; lia).
  rewrite E. reflexivity.
Qed.

Lemma parseDigits_digits ds : forall a,
  allDigits ds ->
  parseDigits 10 (Some a) ds
  = Some (fold_left (fun acc c => (acc * 10 + Z.of_N (c - 0x30))%Z) ds a).
Proof.
  unfold allDigits. induction ds as [|d ds IH]; intros a H; simpl in *.
  - reflexivity.
  - apply andb_true_iff in H as [Hd H].
    rewrite (digitValue_digit _ Hd). apply IH. assumption.
Qed.

Lemma parseDigits_decimal ds :
  ds <> [] -> allDigits ds ->
  parseDigits 10 None ds = Some (decimalValue ds).
Proof.
  destruct ds as [|d ds]; [contradiction|]. intros _ H.
  unfold decimalValue. cbn [parseDigits fold_left].
  pose proof H as H'. unfold allDigits in H'. simpl in H'.
  apply andb_true_iff in H' as [Hd H'].
  rewrite (digitValue_digit _ Hd). apply parseDigits_digits. assumption.
Qed.

(** On a non-empty sequence of decimal digits [parseInt] is the double
    nearest to the integer the digits denote. *)
Lemma parseInt_digits ds :
  ds <> [] -> allDigits ds ->
  parseInt ds = roundToDouble (decimalValue ds).
Proof.
  intros Hne H. pose proof (parseDigits_decimal ds Hne H) as Hp.
  destruct ds as [|d ds]; [contradiction|].
  pose proof H as H'. unfold allDigits in H'. simpl in H'.
  apply andb_true_iff in H' as [Hd H'].
  unfold parseInt. cbn [trimStart]. rewrite (digit_not_space _ Hd).
  pose proof Hd as Hr. unfold isDigit in Hr.
  apply andb_true_iff in Hr as [Hr1 Hr2].
  apply N.leb_le in Hr1. apply N.leb_le in Hr2.
  assert (E1 : (d =? 0x2D)%N = false) by (apply N.eqb_neq; lia).
  assert (E2 : (d =? 0x2B)%N = false) by (apply N.eqb_neq; lia).
  rewrite E1, E2.
  destruct ds as [|d1 ds].
  - rewrite Hp. reflexivity.
  - simpl in H'. apply andb_true_iff in H' as [Hd1 _].
    unfold isDigit in Hd1. apply andb_true_iff in Hd1 as [Hq1 Hq2].
    apply N.leb_le in Hq1. apply N.leb_le in Hq2.
    assert (E3 : (d1 =? 0x78)%N = false) by (apply N.eqb_neq; lia).
    assert (E4 : (d1 =? 0x58)%N = false) by (apply N.eqb_neq; lia).
    rewrite E3, E4, andb_false_r. rewrite Hp. reflexivity.
Qed.

(** Every integer up to 2^53 is a double. *)
Lemma roundToDouble_exact v :
  (v <= 2 ^ 53)%Z -> roundToDouble v = Finite v.
Proof.
  intros H. destruct (Z.eq_dec v (2 ^ 53)) as [->|Hne].
  - vm_compute. reflexivity.
  - unfold roundToDouble.
    assert (E : (v <? 2 ^ 53)%Z = true) by (apply Z.ltb_lt; lia).
    rewrite E. reflexivity.
Qed.

(** From 2^53 on the nearest double is at least 2^52, or infinite. *)
Lemma roundToDouble_large n :
  (2 ^ 53 <= n)%Z ->
  roundToDouble n = Infinity false \/
  exists v, roundToDouble n = Finite v /\ (2 ^ 52 <= v)%Z.
Proof.
  intros H. unfold roundToDouble.
  assert (E : (n <? 2 ^ 53)%Z = false) by (apply Z.ltb_ge; assumption).
  rewrite E.
  assert (Hlog : (53 <= Z.log2 n)%Z).
  { change 53%Z with (Z.log2 (2 ^ 53)). apply Z.log2_le_mono. assumption. }
  set (e := (Z.log2 n - 52)%Z).
  assert (He : (1 <= e)%Z) by (unfold e; lia).
  assert (Hpow : (0 < 2 ^ e)%Z) by (apply Z.pow_pos_nonneg; lia).
  assert (Hq : (2 ^ 52 <= n / 2 ^ e)%Z).
  { apply Z.div_le_lower_bound; [assumption|].
    rewrite <- Z.pow_add_r by lia.
    replace (e + 52)%Z with (Z.log2 n) by (unfold e; lia).
    apply Z.log2_spec. lia. }
  set (q := (n / 2 ^ e)%Z) in *.
  set (q' := if ((2 ^ (e - 1) <? n mod 2 ^ e) ||
                 ((n mod 2 ^ e =? 2 ^ (e - 1)) && Z.odd q))%Z
             then (q + 1)%Z else q).
  assert (Hq' : (2 ^ 52 <= q')%Z).
  { unfold q'. destruct (_ || _)%bool; lia. }
  destruct (2 ^ 1024 <=? q' * 2 ^ e)%Z; [left; reflexivity|].
  right. eexists. split; [reflexivity|].
  change (2 ^ 52)%Z with 4503599627370496%Z in *. nia.
Qed.

End NumberFacts.

(* ================================================================== *)
(** ** parseAnalysis: the roast level *)
(* ================================================================== *)

Module RoastLevelFacts.
Import MatcherFacts PatternFacts NumberFacts.

Lemma skipn_split (s : JSString) k :
  k <= length s ->
  exists pre, s = pre ++ skipn k s /\ length pre = k.
Proof.
  intros H. exists (firstn k s). split.
  - symmetry. apply firstn_skipn.
  - apply firstn_length_le. assumption.
Qed.

Lemma skipn_prefix (pre t : JSString) :
  skipn (length pre) (pre ++ t) = t.
Proof.
  induction pre as [|c pre IH]; simpl; auto.
Qed.

(** A match of the pattern at offset [k] is a phrase standing at [k]. *)
Lemma matchAt_roast_sound s k y :
  k <= length s ->
  matchAt roastRegex (skipn k s) = Some y ->
  exists ds, capture y = Some ds /\ RoastMatchAt s k ds.
Proof.
  intros Hk H. apply matchAt_sound in H.
  assert (Hm : MatchesAt roastRegex (skipn k s) (capture y) (rest y)).
  { unfold MatchesAt. rewrite <- state_eta. assumption. }
  apply roast_MatchesAt in Hm as (u & ds & Hs & Hp & Hc).
  exists ds. split; [assumption|].
  destruct (skipn_split s k Hk) as (pre & Hpre & Hlen).
  exists pre, u, (rest y). rewrite <- Hs. auto.
Qed.

Lemma matchAt_roast_complete s i ds :
  RoastMatchAt s i ds -> matchAt roastRegex (skipn i s) <> None.
Proof.
  intros (pre & u & post & -> & <- & Hp).
  rewrite skipn_prefix.
  apply (matchAt_complete roastRegex _ {| rest := post; capture := Some ds |}).
  apply roast_MatchesAt. exists u, ds. auto.
Qed.

Lemma RoastMatchAt_bound s i ds : RoastMatchAt s i ds -> i <= length s.
Proof.
  intros (pre & u & post & -> & <- & _). rewrite length_app. lia.
Qed.

Lemma RoastMatchAt_unique s i ds ds' :
  RoastMatchAt s i ds -> RoastMatchAt s i ds' -> ds = ds'.
Proof.
  intros (pre & u & post & -> & <- & Hp) (pre' & u' & post' & H & Hl & Hp').
  apply app_length_inj in H as [_ H]; [|congruence].
  eapply RoastPhrase_unique; eauto.
Qed.

Lemma exec_roast_none s :
  exec roastRegex s = None <-> (forall i ds, ~ RoastMatchAt s i ds).
Proof.
  rewrite exec_plain by reflexivity. split.
  - intros H i ds Hm. apply matchAt_roast_complete in Hm.
    apply Hm. eapply execFrom_none. eassumption.
  - intros H. destruct (execFrom roastRegex 0 s) as [m|] eqn:E; [|reflexivity].
    apply execFrom_some in E as (k & y & _ & Hk & Hm & _).
    apply matchAt_roast_sound in Hm as (ds & _ & Hr); [|assumption].
    exfalso. eapply H. eassumption.
Qed.

Lemma exec_roast_some s ds :
  (exists m, exec roastRegex s = Some m /\ group1 m = Some ds) <->
  FirstRoastMatch s ds.
Proof.
  rewrite exec_plain by reflexivity. split.
  - intros (m & E & Hg).
    apply execFrom_some in E as (k & y & _ & Hk & Hm & Hg' & _ & Hfirst).
    apply matchAt_roast_sound in Hm as (ds0 & Hc & Hr); [|assumption].
    assert (ds0 = ds) by congruence. subst ds0.
    exists k. split; [assumption|].
    intros j ds' Hj. destruct (Nat.le_gt_cases k j) as [|Hlt]; [assumption|].
    exfalso. apply matchAt_roast_complete in Hj. apply Hj.
    apply Hfirst. assumption.
  - intros (i & Hr & Hmin).
    pose proof (RoastMatchAt_bound _ _ _ Hr) as Hi.
    destruct (matchAt roastRegex (skipn i s)) as [y|] eqn:E;
      [|exfalso; revert E; eapply matchAt_roast_complete; eassumption].
    pose proof E as E'.
    apply matchAt_roast_sound in E' as (ds0 & Hc & Hr0); [|assumption].
    assert (ds0 = ds) by (eapply RoastMatchAt_unique; eassumption).
    subst ds0.
    eexists. split.
    + apply execFrom_first with (k := i) (y := y); [assumption| |assumption].
      intros j Hj. destruct (matchAt roastRegex (skipn j s)) as [y'|] eqn:Ej;
        [|reflexivity].
      apply matchAt_roast_sound in Ej as (ds' & _ & Hr'); [|lia].
      apply Hmin in Hr'. lia.
    + simpl. assumption.
Qed.

Lemma FirstRoastMatch_digits s ds :
  FirstRoastMatch s ds -> ds <> [] /\ allDigits ds.
Proof.
  intros (i & (pre & u & post & _ & _ & Hp) & _).
  destruct Hp as (l1 & w1 & l2 & w2 & l3 & w3 & _ & _ & _ & _ & _ & _ & _
                  & Hne & Hd).
  auto.
Qed.

Lemma roastLevel_exec s :
  roastLevel (parseAnalysis s) =
  match exec roastRegex s with
  | Some m => Some (parseInt (capture1 m))
  | None => None
  end.
Proof. reflexivity. Qed.

End RoastLevelFacts.

(* ================================================================== *)
(** ** extractSection: when a section heading is found *)
(* ================================================================== *)

Module SectionFacts.
Import MatcherFacts PatternFacts RoastLevelFacts.

Lemma Forall2_exact l p :
  Forall2 (fun ch pc => Canonicalize flagsS ch = Canonicalize flagsS pc) l p ->
  l = p.
Proof.
  unfold Canonicalize. cbn [ignoreCase flagsS].
  induction 1; [reflexivity | congruence].
Qed.

Lemma classTest_space_s c : classTest flagsS ClassSpace c = isWhiteSpace c.
Proof. reflexivity. Qed.

Lemma forallb_dot_s w : forallb (classTest flagsS ClassDot) w = true.
Proof. induction w; simpl; auto. Qed.

(** A match of the section pattern starts with the heading and a
    white-space character. *)
Lemma section_MatchesAt_sound name t cap after :
  MatchesAt (sectionRegex name) t cap after ->
  exists w t', t = name ++ w :: t' /\ isWhiteSpace w = true.
Proof.
  unfold MatchesAt, sectionRegex, ws1. cbn [source flags]. intros H.
  apply Cat_Lit_step in H as (l & t1 & -> & Hl & H).
  apply Forall2_exact in Hl. subst l.
  apply Cat_Plus_step in H as (w & t2 & Hne & -> & Hw & _).
  destruct w as [|w0 w]; [contradiction|]. simpl in Hw.
  apply andb_true_iff in Hw as [Hw0 _].
  exists w0, (w ++ t2). split; [reflexivity | assumption].
Qed.

(** Where the heading and a white-space character stand, the pattern has a
    match: the body can always run to the end of the string. *)
Lemma section_MatchesAt_complete name w post :
  isWhiteSpace w = true ->
  MatchesAt (sectionRegex name) (name ++ w :: post) (Some post) [].
Proof.
  intros Hw. unfold MatchesAt, sectionRegex, ws1. cbn [source flags].
  apply Cat_Lit_step. exists name, (w :: post). split; [reflexivity|].
  split.
  { clear. induction name; constructor; auto. }
  apply Cat_Plus_step. exists [w], post. split; [discriminate|].
  split; [reflexivity|]. split; [simpl; rewrite classTest_space_s, Hw; reflexivity|].
  apply Cat_GroupStar_step. exists post, []. split; [symmetry; apply app_nil_r|].
  split; [apply forallb_dot_s|].
  cbn [Cat]. eapply D_Seq; [|apply D_Empty].
  apply (D_Lookahead flagsS _ {| rest := []; capture := Some post |}
                     {| rest := []; capture := Some post |}).
  apply D_AltR. apply D_AltR. constructor.
Qed.

Lemma exec_section_none name s :
  exec (sectionRegex name) s = None <-> ~ HeadingOccurs s name.
Proof.
  rewrite exec_plain by reflexivity. split.
  - intros H (pre & w & post & -> & Hw).
    pose proof (execFrom_none _ _ _ H (length pre)) as Hn.
    rewrite skipn_prefix in Hn. revert Hn.
    eapply matchAt_complete. apply section_MatchesAt_complete. assumption.
  - intros H.
    destruct (execFrom (sectionRegex name) 0 s) as [m|] eqn:E; [|reflexivity].
    exfalso. apply H.
    apply execFrom_some in E as (k & y & _ & Hk & Hm & _).
    apply matchAt_sound in Hm.
    assert (Hd : MatchesAt (sectionRegex name) (skipn k s) (capture y) (rest y)).
    { unfold MatchesAt. rewrite <- state_eta. assumption. }
    apply section_MatchesAt_sound in Hd as (w & t' & Ht & Hw).
    destruct (skipn_split s k Hk) as (pre & Hpre & _).
    exists pre, w, t'. rewrite <- Ht. auto.
Qed.

(** The group takes part in every match of a pattern that has it on all
    its paths. *)
Lemma exec_group1_set re s m :
  global (flags re) = false -> sticky (flags re) = false ->
  setsGroup (source re) = true ->
  exec re s = Some m -> exists cap, group1 m = Some cap.
Proof.
  intros Hg Hs Hset H. rewrite exec_plain in H by assumption.
  apply execFrom_some in H as (k & y & _ & _ & Hm & Hcap & _).
  apply matchAt_sound in Hm.
  apply (Derives_capture _ _ _ _) in Hm as [_ Hm].
  specialize (Hm Hset). rewrite Hcap.
  destruct (capture y) as [cap|]; [eauto | contradiction].
Qed.

Lemma setsGroup_section name : setsGroup (source (sectionRegex name)) = true.
Proof.
  unfold sectionRegex. cbn [source Cat setsGroup].
  rewrite !orb_true_r. reflexivity.
Qed.

End SectionFacts.

(* ================================================================== *)
(** ** The labelled lines: origin and farm/region/processing detail *)
(* ================================================================== *)

Module LabelFacts.
Import MatcherFacts PatternFacts RoastLevelFacts.

Lemma classTest_notNewline_i c :
  classTest flagsI ClassNotNewline c = negb (c =? 0x0A)%N.
Proof. reflexivity. Qed.

(** What a pattern [a\s*b\s*c\s*([^\n]+)] under [i] matches. *)
Lemma label_Derives a b c t cap after :
  Derives flagsI
    (Cat [Lit a; ws0; Lit b; ws0; Lit c; ws0;
          Group (Plus true (Class ClassNotNewline))])
    {| rest := t; capture := None |} {| rest := after; capture := cap |} <->
  exists u text, t = u ++ after /\ LabelledText a b c u text /\ cap = Some text.
Proof.
  unfold ws0. split.
  - intros H.
    apply Cat_Lit_step in H as (l1 & t1 & -> & F1 & H).
    apply Cat_Star_step in H as (w1 & t2 & -> & A1 & H).
    apply Cat_Lit_step in H as (l2 & t3 & -> & F2 & H).
    apply Cat_Star_step in H as (w2 & t4 & -> & A2 & H).
    apply Cat_Lit_step in H as (l3 & t5 & -> & F3 & H).
    apply Cat_Star_step in H as (w3 & t6 & -> & A3 & H).
    apply Cat_GroupPlus_step in H as (text & t7 & Hne & -> & Ad & H).
    apply Cat_nil_step in H. inversion H; subst; clear H.
    apply Forall2_sameIgnoringCase in F1, F2, F3.
    rewrite (forallb_ext_eq _ _ _ classTest_space_i) in A1.
    rewrite (forallb_ext_eq _ _ _ classTest_space_i) in A2.
    rewrite (forallb_ext_eq _ _ _ classTest_space_i) in A3.
    exists (l1 ++ w1 ++ l2 ++ w2 ++ l3 ++ w3 ++ text), text.
    split; [|split; [|reflexivity]].
    + repeat rewrite <- app_assoc. reflexivity.
    + exists l1, w1, l2, w2, l3, w3. repeat split; assumption.
  - intros (u & text & -> & (l1 & w1 & l2 & w2 & l3 & w3 & -> & F1 & A1 & F2
                            & A2 & F3 & A3 & Hne & Ad) & ->).
    repeat rewrite <- app_assoc.
    apply Cat_Lit_step. eexists _, _. split; [reflexivity|].
    split; [apply Forall2_sameIgnoringCase; assumption|].
    apply Cat_Star_step. eexists _, _. split; [reflexivity|].
    split; [rewrite (forallb_ext_eq _ _ _ classTest_space_i); assumption|].
    apply Cat_Lit_step. eexists _, _. split; [reflexivity|].
    split; [apply Forall2_sameIgnoringCase; assumption|].
    apply Cat_Star_step. eexists _, _. split; [reflexivity|].
    split; [rewrite (forallb_ext_eq _ _ _ classTest_space_i); assumption|].
    apply Cat_Lit_step. eexists _, _. split; [reflexivity|].
    split; [apply Forall2_sameIgnoringCase; assumption|].
    apply Cat_Star_step. eexists _, _. split; [reflexivity|].
    split; [rewrite (forallb_ext_eq _ _ _ classTest_space_i); assumption|].
    apply Cat_GroupPlus_step. eexists _, _. split; [eassumption|].
    split; [reflexivity|]. split; [assumption|].
    apply Cat_nil_step. reflexivity.
Qed.

Lemma origin_MatchesAt t cap after :
  MatchesAt originRegex t cap after <->
  exists u text, t = u ++ after /\ OriginLine u text /\ cap = Some text.
Proof. apply label_Derives. Qed.

Lemma region_MatchesAt t cap after :
  MatchesAt regionRegex t cap after <->
  exists u text, t = u ++ after /\ DetailLine u text /\ cap = Some text.
Proof. apply label_Derives. Qed.

(** The captured text is read greedily and nothing follows the group, so
    the match ends where the line ends. *)
Lemma label_match_ends_line a b c t y :
  compile flagsI
    (Cat [Lit a; ws0; Lit b; ws0; Lit c; ws0;
          Group (Plus true (Class ClassNotNewline))])
    {| rest := t; capture := None |} (fun y => Some y) = Some y ->
  endsLine (rest y).
Proof.
  intros H.
  apply (Cat_last_rest flagsI (stopsAt (classTest flagsI ClassNotNewline))
           (Group (Plus true (Class ClassNotNewline)))
           [Lit a; ws0; Lit b; ws0; Lit c; ws0]) in H.
  - unfold endsLine. destruct (rest y) as [|ch post]; [left; reflexivity|].
    right. exists post. simpl in H. rewrite classTest_notNewline_i in H.
    apply negb_false_iff, N.eqb_eq in H. subst. reflexivity.
  - intros x z. apply GroupPlus_last.
Qed.

Lemma origin_match_ends_line t y :
  matchAt originRegex t = Some y -> endsLine (rest y).
Proof. apply label_match_ends_line. Qed.

Lemma region_match_ends_line t y :
  matchAt regionRegex t = Some y -> endsLine (rest y).
Proof. apply label_match_ends_line. Qed.

Section Search.
Variable re : RegExpObject.
Variable P : JSString -> JSString -> Prop.
Variable Q : JSString -> Prop.
Hypothesis plain_g : global (flags re) = false.
Hypothesis plain_y : sticky (flags re) = false.
Hypothesis matches :
  forall t cap after,
    MatchesAt re t cap after <->
    exists u text, t = u ++ after /\ P u text /\ cap = Some text.
Hypothesis ends : forall t y, matchAt re t = Some y -> Q (rest y).

(** The search fails exactly when the string holds no match. *)
Lemma exec_none_iff s : exec re s = None <-> ~ Occurs P s.
Proof.
  rewrite exec_plain by assumption. split.
  - intros H (pre & u & text & post & -> & Hp).
    pose proof (execFrom_none _ _ _ H (length pre)) as Hn.
    rewrite skipn_prefix in Hn. revert Hn.
    apply (matchAt_complete re _ {| rest := post; capture := Some text |}).
    apply matches. exists u, text. auto.
  - intros H. destruct (execFrom re 0 s) as [m|] eqn:E; [|reflexivity].
    exfalso. apply H.
    apply execFrom_some in E as (k & y & _ & Hk & Hm & _).
    apply matchAt_sound in Hm.
    assert (Hd : MatchesAt re (skipn k s) (capture y) (rest y)).
    { unfold MatchesAt. rewrite <- state_eta. assumption. }
    apply matches in Hd as (u & text & Ht & Hp & _).
    destruct (skipn_split s k Hk) as (pre & Hpre & _).
    exists pre, u, text, (rest y). rewrite <- Ht. auto.
Qed.

(** A result of the search is a match standing at the reported index, with
    its text in group 1. *)
Lemma exec_some_sound s m :
  exec re s = Some m ->
  exists pre u text post,
    s = pre ++ u ++ post /\ length pre = index m /\ P u text /\
    group1 m = Some text /\ Q post.
Proof.
  rewrite exec_plain by assumption. intros E.
  apply execFrom_some in E as (k & y & Hi & Hk & Hm & Hg & _).
  pose proof (ends _ _ Hm) as Hq.
  apply matchAt_sound in Hm.
  assert (Hd : MatchesAt re (skipn k s) (capture y) (rest y)).
  { unfold MatchesAt. rewrite <- state_eta. assumption. }
  apply matches in Hd as (u & text & Ht & Hp & Hc).
  destruct (skipn_split s k Hk) as (pre & Hpre & Hlen).
  exists pre, u, text, (rest y). rewrite <- Ht, Hg, Hc. simpl in Hi.
  repeat split; auto. congruence.
Qed.

End Search.

End LabelFacts.

(* ================================================================== *)
(** ** Properties of the product view *)
(* ================================================================== *)

Module ProductViewProperties.
Import ListFacts MatcherFacts PatternFacts NumberFacts RoastLevelFacts SectionFacts.

Lemma sectionCard_body name content :
  body (sectionCard name (Some content)) =
  if truthyStr content then content else sectionPlaceholder name.
Proof. reflexivity. Qed.

Lemma extractSection_exec s name :
  extractSection s name =
  match exec (sectionRegex name) s with
  | Some m => trim (capture1 m)
  | None => []
  end.
Proof. reflexivity. Qed.

Lemma CoffeeProductView_inDepth p v :
  CoffeeProductView p = Some v ->
  inDepth v =
  map (fun name => sectionCard name (Some (extractSection (analysis p) name)))
      sectionNames.
Proof.
  unfold CoffeeProductView. destruct (isOpen p); cbn [negb]; [|discriminate].
  intros H. injection H as <-. reflexivity.
Qed.

(** C1 (as amended).  For every analysis string and each of the five
    in-depth section names: the section pattern fails to match exactly when
    the name followed by white space occurs nowhere in the string; then
    [extractSection] returns the empty string and the card shows
    "<title> information will appear after analysis.".  When the pattern
    matches, [extractSection] returns the trimmed captured body, and the
    card shows that body if it is not empty and the same placeholder if it
    is.  The card is one of those [CoffeeProductView] renders. *)
Theorem section_card_body_or_placeholder : forall s name,
  In name sectionNames ->
  let card := sectionCard name (Some (extractSection s name)) in
  (exec (sectionRegex name) s = None <-> ~ HeadingOccurs s name) /\
  (exec (sectionRegex name) s = None ->
     extractSection s name = [] /\ body card = sectionPlaceholder name) /\
  (forall m, exec (sectionRegex name) s = Some m ->
     exists captured,
       group1 m = Some captured /\
       extractSection s name = trim captured /\
       body card = if truthyStr (trim captured) then trim captured
                   else sectionPlaceholder name) /\
  (forall p v, analysis p = s -> CoffeeProductView p = Some v ->
               In card (inDepth v)).
Proof.
  intros s name Hin card. subst card.
  split; [apply exec_section_none|]. split; [|split].
  - intros H. rewrite sectionCard_body, extractSection_exec, H. auto.
  - intros m H.
    destruct (exec_group1_set (sectionRegex name) s m eq_refl eq_refl
                (setsGroup_section name) H)
      as (captured & Hg).
    exists captured. rewrite sectionCard_body, extractSection_exec, H.
    unfold capture1. rewrite Hg. auto.
  - intros p v <- Hv. rewrite (CoffeeProductView_inDepth p v Hv).
    apply (in_map (fun name' =>
                     sectionCard name' (Some (extractSection (analysis p) name')))).
    assumption.
Qed.

Lemma section_card_body_or_placeholder_witness :
  body (sectionCard (str "Flavor Profile")
          (Some (extractSection (str "Flavor Profile: bright and sweet")
                                (str "Flavor Profile"))))
  = sectionPlaceholder (str "Flavor Profile").
Proof.
  refine (proj2 (proj1 (proj2
            (section_card_body_or_placeholder
               (str "Flavor Profile: bright and sweet") (str "Flavor Profile") _))
            _)).
  - simpl. auto.
  - vm_compute. reflexivity.
Defined.

(** The heading "About the Origin" followed by one blank and nothing else:
    the pattern matches, the captured body is empty, and the card shows the
    placeholder, which is not the captured body. *)
Lemma section_heading_without_body :
  exists m,
    exec (sectionRegex (str "About the Origin")) (str "About the Origin ")
      = Some m /\
    trim (capture1 m) = [] /\
    body (sectionCard (str "About the Origin")
            (Some (extractSection (str "About the Origin ")
                                  (str "About the Origin"))))
      = str "About the Origin information will appear after analysis." /\
    body (sectionCard (str "About the Origin")
            (Some (extractSection (str "About the Origin ")
                                  (str "About the Origin"))))
      <> trim (capture1 m).
Proof.
  eexists. split; [vm_compute; reflexivity|].
  split; [vm_compute; reflexivity|].
  split; [vm_compute; reflexivity|].
  vm_compute. discriminate.
Qed.

(** *** Roast level *)

(** C2 (as amended).  For every analysis string, [roastLevel] is left
    undefined exactly when the string holds no match of the
    case-insensitive phrase "Roast level Profile: N/5" (any white space
    where the phrase has a blank, N a non-empty sequence of decimal
    digits); otherwise it is set from the first such match, to the number
    [parseInt] returns for N: the double nearest to the integer N, which is
    the integer N itself whenever N is at most 2^53. *)
Theorem roastLevel_first_match : forall s,
  (roastLevel (parseAnalysis s) = None <->
   (forall i ds, ~ RoastMatchAt s i ds)) /\
  (forall n, roastLevel (parseAnalysis s) = Some n <->
             exists ds, FirstRoastMatch s ds /\ n = parseInt ds) /\
  (forall ds, FirstRoastMatch s ds ->
     parseInt ds = roundToDouble (decimalValue ds) /\
     ((decimalValue ds <= 2 ^ 53)%Z ->
      roastLevel (parseAnalysis s) = Some (Finite (decimalValue ds)))).
Proof.
  intros s. rewrite roastLevel_exec.
  assert (Hsome : forall ds, FirstRoastMatch s ds ->
            match exec roastRegex s with
            | Some m => Some (parseInt (capture1 m))
            | None => None
            end = Some (parseInt ds)).
  { intros ds H. apply exec_roast_some in H as (m & E & Hg).
    rewrite E. unfold capture1. rewrite Hg. reflexivity. }
  split; [|split].
  - rewrite <- exec_roast_none.
    destruct (exec roastRegex s); split; intros; congruence.
  - intros n. split.
    + destruct (exec roastRegex s) as [m|] eqn:E; [|discriminate].
      intros H. inversion H; subst; clear H.
      destruct (exec_group1_set roastRegex s m eq_refl eq_refl eq_refl)
        as (ds & Hg).
      { assumption. }
      exists ds. split.
      * apply exec_roast_some. exists m. auto.
      * unfold capture1. rewrite Hg. reflexivity.
    + intros (ds & Hf & ->). apply Hsome. assumption.
  - intros ds Hf.
    destruct (FirstRoastMatch_digits _ _ Hf) as [Hne Hd].
    pose proof (parseInt_digits ds Hne Hd) as Hp.
    split; [assumption|]. intros Hle.
    rewrite (Hsome ds Hf), Hp, roundToDouble_exact by assumption.
    reflexivity.
Qed.

Lemma roastLevel_first_match_witness :
  roastLevel (parseAnalysis (str "Roast level Profile: 4/5"))
  = Some (Finite 4).
Proof.
  refine (proj2 (proj2 (proj2
            (roastLevel_first_match (str "Roast level Profile: 4/5")))
            (str "4") _) _).
  - exists 0. split; [|intros; lia].
    exists [], (str "Roast level Profile: 4/5"), []. split; [reflexivity|].
    split; [reflexivity|].
    exists (str "Roast"), (str " "), (str "level"), (str " "),
           (str "Profile:"), (str " ").
    repeat split; try reflexivity. discriminate.
  - vm_compute. discriminate.
Defined.

(** N = 2^53 + 1 is the first match, and [roastLevel] is 2^53. *)
Lemma roastLevel_rounds_large_N :
  FirstRoastMatch (str "Roast level Profile: 9007199254740993/5")
                  (str "9007199254740993") /\
  decimalValue (str "9007199254740993") = 9007199254740993%Z /\
  roastLevel (parseAnalysis (str "Roast level Profile: 9007199254740993/5"))
    = Some (Finite 9007199254740992) /\
  ~ roastLevelIsTheIntegerN (str "Roast level Profile: 9007199254740993/5").
Proof.
  assert (Hf : FirstRoastMatch (str "Roast level Profile: 9007199254740993/5")
                               (str "9007199254740993")).
  { exists 0. split; [|intros; lia].
    exists [], (str "Roast level Profile: 9007199254740993/5"), [].
    split; [reflexivity|]. split; [reflexivity|].
    exists (str "Roast"), (str " "), (str "level"), (str " "),
           (str "Profile:"), (str " ").
    repeat split; try reflexivity. discriminate. }
  split; [assumption|]. split; [reflexivity|].
  split; [vm_compute; reflexivity|].
  intros H. specialize (H _ Hf). vm_compute in H. discriminate.
Qed.

(** *** The Roast Level card *)

Lemma roastCard_zero :
  roastCard (Some (Finite 0)) = RoastPlaceholder roastPlaceholder.
Proof. vm_compute. reflexivity. Qed.

Lemma roastCard_above_five_finite v :
  (5 < v)%Z ->
  roastCard (Some (Finite v))
  = RoastScale [true; true; true; true; true]
               [NumberChild (Finite v); TextChild (str "/5")].
Proof.
  intros H. unfold roastCard, truthyNum.
  assert (E : (v =? 0)%Z = false) by (apply Z.eqb_neq; lia).
  rewrite E. cbn [negb map leNum].
  assert (E1 : (1 <=? v)%Z = true) by (apply Z.leb_le; lia).
  assert (E2 : (2 <=? v)%Z = true) by (apply Z.leb_le; lia).
  assert (E3 : (3 <=? v)%Z = true) by (apply Z.leb_le; lia).
  assert (E4 : (4 <=? v)%Z = true) by (apply Z.leb_le; lia).
  assert (E5 : (5 <=? v)%Z = true) by (apply Z.leb_le; lia).
  rewrite E1, E2, E3, E4, E5. reflexivity.
Qed.

Lemma roastCard_above_five n :
  (5 < n)%Z ->
  roastCard (Some (roundToDouble n))
  = RoastScale [true; true; true; true; true]
               [NumberChild (roundToDouble n); TextChild (str "/5")].
Proof.
  intros H. destruct (Z.lt_ge_cases n (2 ^ 53)) as [Hs|Hl].
  - rewrite roundToDouble_exact by lia. apply roastCard_above_five_finite.
    assumption.
  - destruct (roundToDouble_large n Hl) as [->|(v & -> & Hv)].
    + reflexivity.
    + apply roastCard_above_five_finite.
      change (2 ^ 52)%Z with 4503599627370496%Z in Hv. lia.
Qed.

Lemma CoffeeProductView_roast p v :
  CoffeeProductView p = Some v ->
  roast v = roastCard (roastLevel (parseAnalysis (analysis p))).
Proof.
  unfold CoffeeProductView. destruct (isOpen p); cbn [negb]; [|discriminate].
  intros H. injection H as <-. reflexivity.
Qed.

(** C9 (as amended).  The roast level is not clamped to 1..5.  When the
    first match of the roast phrase has N = 0 the Roast Level card shows
    the placeholder "Roast level will appear after analysis", as if nothing
    had been found; when it has N greater than 5 the card shows all five
    circles filled and the label of the parsed number followed by "/5",
    and that number is N itself as long as N is at most 2^53.  A later
    "Roast level Profile: 0/5" behind a first match is not looked at. *)
Theorem roastCard_not_clamped : forall s ds,
  FirstRoastMatch s ds ->
  let card := roastCard (roastLevel (parseAnalysis s)) in
  (decimalValue ds = 0%Z -> card = RoastPlaceholder roastPlaceholder) /\
  ((5 < decimalValue ds)%Z ->
     card = RoastScale [true; true; true; true; true]
                       [NumberChild (parseInt ds); TextChild (str "/5")]) /\
  ((decimalValue ds <= 2 ^ 53)%Z -> parseInt ds = Finite (decimalValue ds)) /\
  (forall p v, analysis p = s -> CoffeeProductView p = Some v ->
               roast v = card).
Proof.
  intros s ds Hf card. subst card.
  destruct (FirstRoastMatch_digits _ _ Hf) as [Hne Hd].
  pose proof (parseInt_digits ds Hne Hd) as Hp.
  assert (Hr : roastLevel (parseAnalysis s) = Some (parseInt ds)).
  { rewrite roastLevel_exec. apply exec_roast_some in Hf as (m & E & Hg).
    rewrite E. unfold capture1. rewrite Hg. reflexivity. }
  rewrite Hr, Hp. split; [|split; [|split]].
  - intros H0. rewrite H0, roundToDouble_exact by lia. apply roastCard_zero.
  - apply roastCard_above_five.
  - apply roundToDouble_exact.
  - intros p v <- Hv. rewrite (CoffeeProductView_roast p v Hv), Hr, Hp.
    reflexivity.
Qed.

Lemma roastCard_not_clamped_witness :
  roastCard (roastLevel (parseAnalysis (str "Roast level Profile: 7/5")))
  = RoastScale [true; true; true; true; true]
               [NumberChild (parseInt (str "7")); TextChild (str "/5")].
Proof.
  refine (proj1 (proj2
            (roastCard_not_clamped (str "Roast level Profile: 7/5") (str "7") _))
            _).
  - exists 0. split; [|intros; lia].
    exists [], (str "Roast level Profile: 7/5"), []. split; [reflexivity|].
    split; [reflexivity|].
    exists (str "Roast"), (str " "), (str "level"), (str " "),
           (str "Profile:"), (str " ").
    repeat split; try reflexivity. discriminate.
  - vm_compute. reflexivity.
Defined.

(** "Roast level Profile: 0/5" stands in the string, behind a first match
    with N = 3: the card shows three circles of five and "3/5". *)
Lemma roastCard_zero_behind_first_match :
  includes (str "Roast level Profile: 3/5. Roast level Profile: 0/5")
           (str "Roast level Profile: 0/5") = true /\
  roastCard (roastLevel (parseAnalysis
               (str "Roast level Profile: 3/5. Roast level Profile: 0/5")))
  = RoastScale [true; true; true; false; false]
               [NumberChild (Finite 3); TextChild (str "/5")] /\
  ~ zeroAnywhereShowsPlaceholder
      (str "Roast level Profile: 3/5. Roast level Profile: 0/5").
Proof.
  split; [vm_compute; reflexivity|].
  split; [vm_compute; reflexivity|].
  intros H. assert (E : includes
      (str "Roast level Profile: 3/5. Roast level Profile: 0/5")
      (str "Roast level Profile: 0/5") = true) by (vm_compute; reflexivity).
  specialize (H E). vm_compute in H. discriminate.
Qed.

(** A blank between "Profile" and the colon is not allowed for, and the
    pattern needs no blank at all. *)
Example roast_blank_before_colon :
  roastLevel (parseAnalysis (str "Roast level Profile : 3/5")) = None /\
  roastLevel (parseAnalysis (str "ROASTLEVELPROFILE:3/5")) = Some (Finite 3).
Proof. split; vm_compute; reflexivity. Qed.

(** *** Origin *)

Lemma origin_exec s :
  origin (parseAnalysis s) =
  match exec originRegex s with
  | Some m =>
    Some (match exec regionRegex s with
          | Some r => trim (capture1 m) ++ str " - " ++ trim (capture1 r)
          | None => trim (capture1 m)
          end)
  | None => None
  end.
Proof. reflexivity. Qed.

(** C7.  For every analysis string: when the "Primary coffee origin:" line
    matches, [origin] is the trimmed text captured after it, with " - " and
    the trimmed text captured after "Specific farm/region/processing
    detail:" appended when that line matches as well; when the "Primary
    coffee origin:" line does not match, [origin] is left undefined,
    whether or not the detail line matches.  A line matches exactly when
    the label (letters in any case, any white space after each word) is
    followed by a non-empty piece of one line, and the captured text is
    such a piece standing at the match and running to the end of its
    line. *)
Theorem origin_from_labelled_lines : forall s,
  (exec originRegex s = None <-> ~ Occurs OriginLine s) /\
  (exec regionRegex s = None <-> ~ Occurs DetailLine s) /\
  (exec originRegex s = None -> origin (parseAnalysis s) = None) /\
  (forall m, exec originRegex s = Some m ->
     exists text,
       group1 m = Some text /\
       (exists pre u post,
          s = pre ++ u ++ post /\ length pre = index m /\
          OriginLine u text /\ endsLine post) /\
       ((exec regionRegex s = None /\
         origin (parseAnalysis s) = Some (trim text)) \/
        (exists r detail,
           exec regionRegex s = Some r /\ group1 r = Some detail /\
           (exists pre u post,
              s = pre ++ u ++ post /\ length pre = index r /\
              DetailLine u detail /\ endsLine post) /\
           origin (parseAnalysis s)
           = Some (trim text ++ str " - " ++ trim detail)))).
Proof.
  intros s.
  split; [apply (LabelFacts.exec_none_iff originRegex OriginLine
                   eq_refl eq_refl LabelFacts.origin_MatchesAt)|].
  split; [apply (LabelFacts.exec_none_iff regionRegex DetailLine
                   eq_refl eq_refl LabelFacts.region_MatchesAt)|].
  split.
  - intros H. rewrite origin_exec, H. reflexivity.
  - intros m H.
    destruct (LabelFacts.exec_some_sound originRegex OriginLine endsLine
                eq_refl eq_refl LabelFacts.origin_MatchesAt
                LabelFacts.origin_match_ends_line s m H)
      as (pre & u & text & post & Hs & Hl & Hp & Hg & He).
    exists text. split; [assumption|].
    split; [exists pre, u, post; auto|].
    rewrite origin_exec, H. unfold capture1. rewrite Hg.
    destruct (exec regionRegex s) as [r|] eqn:E.
    + right.
      destruct (LabelFacts.exec_some_sound regionRegex DetailLine endsLine
                  eq_refl eq_refl LabelFacts.region_MatchesAt
                  LabelFacts.region_match_ends_line s r E)
        as (pre' & u' & detail & post' & Hs' & Hl' & Hp' & Hg' & He').
      exists r, detail. split; [reflexivity|]. split; [assumption|].
      split; [exists pre', u', post'; auto|].
      rewrite Hg'. reflexivity.
    + left. auto.
Qed.

Lemma origin_from_labelled_lines_witness :
  origin (parseAnalysis (str "Primary coffee origin: BRAZIL "))
  = Some (str "BRAZIL").
Proof.
  pose proof (origin_from_labelled_lines
                (str "Primary coffee origin: BRAZIL ")) as (_ & _ & _ & H).
  specialize (H {| index := 0;
                   matched := str "Primary coffee origin: BRAZIL ";
                   group1 := Some (str "BRAZIL ") |}).
  destruct H as (text & Hg & _ & [[_ Ho]|(r & detail & Hr & _)]).
  - vm_compute. reflexivity.
  - cbn [group1] in Hg. injection Hg as <-. rewrite Ho.
    vm_compute. reflexivity.
  - vm_compute in Hr. discriminate.
Defined.

(** The white space after the colon may hold line breaks: the text is then
    taken from the next line that has any. *)
Example origin_on_next_line :
  origin (parseAnalysis
            (decodeUTF8 (bytes_of_string "Primary coffee origin:" ++ [0x0A]%N
                         ++ bytes_of_string "  BRAZIL " ++ [0x0A]%N
                         ++ bytes_of_string "Specific farm/region/processing detail: Santa")))
  = Some (str "BRAZIL - Santa").
Proof. vm_compute. reflexivity. Qed.

(** *** Purity *)

Lemma execFrom_setLastIndex i re : forall t k,
  execFrom (setLastIndex i re) k t = execFrom re k t.
Proof.
  induction t as [|ch t IH]; intros k; simpl.
  - reflexivity.
  - change (matchAt (setLastIndex i re) (ch :: t))
      with (matchAt re (ch :: t)).
    destruct (matchAt re (ch :: t)); [reflexivity | apply IH].
Qed.

Lemma programPatterns_plain re :
  In re programPatterns ->
  global (flags re) = false /\ sticky (flags re) = false.
Proof.
  unfold programPatterns. rewrite in_app_iff, in_map_iff.
  intros [H|(name & <- & _)]; [|split; reflexivity].
  simpl in H.
  destruct H as [<-|[<-|[<-|[<-|[<-|[]]]]]]; split; reflexivity.
Qed.

Lemma programPatterns_setsGroup re :
  In re programPatterns -> setsGroup (source re) = true.
Proof.
  unfold programPatterns. rewrite in_app_iff, in_map_iff.
  intros [H|(name & <- & _)]; [|apply setsGroup_section].
  simpl in H.
  destruct H as [<-|[<-|[<-|[<-|[<-|[]]]]]]; vm_compute; reflexivity.
Qed.

(** X1.  Group 1 takes part in every match of every pattern of the program, so
    [match[1].trim()] and [parseInt(match[1])] are never applied to
    [undefined]: neither [parseAnalysis] nor [extractSection] can throw. *)
Theorem match_group_takes_part : forall re s m,
  In re programPatterns ->
  exec re s = Some m ->
  exists text, group1 m = Some text /\ capture1 m = text.
Proof.
  intros re s m Hin H.
  destruct (programPatterns_plain re Hin) as [Hg Hs].
  destruct (exec_group1_set re s m Hg Hs (programPatterns_setsGroup re Hin) H)
    as (text & Ht).
  exists text. unfold capture1. rewrite Ht. auto.
Qed.

Lemma match_group_takes_part_witness :
  exists text,
    group1 {| index := 0; matched := str "English translation: plum";
              group1 := Some (str "plum") |} = Some text /\
    capture1 {| index := 0; matched := str "English translation: plum";
                group1 := Some (str "plum") |} = text.
Proof.
  apply (match_group_takes_part tastingRegex (str "English translation: plum")).
  - unfold programPatterns. simpl. auto.
  - vm_compute. reflexivity.
Defined.

(** *** Calls and what they leave behind *)

Lemma updateAt_last {A} (l : list A) a b :
  Store.updateAt (length l) (fun _ => b) (l ++ [a]) = l ++ [b].
Proof.
  induction l as [|c l IH]; [reflexivity|].
  cbn [length app Store.updateAt]. rewrite IH. reflexivity.
Qed.

(** A literal of a pattern that is neither global nor sticky is evaluated
    and searched with: the result is that of a search from the start, and
    the object created stays as it was created. *)
Lemma literal_match re s w :
  global (flags re) = false -> sticky (flags re) = false ->
  Store.bind (Store.newRegExp re) (Store.stringMatch s) w
  = (exec re s,
     {| Store.props := Store.props w;
        Store.regexps := Store.regexps w ++ [setLastIndex 0 re];
        Store.objects := Store.objects w |}).
Proof.
  intros Hg Hs. unfold Store.bind, Store.newRegExp, Store.stringMatch.
  cbn [Store.regexps Store.props Store.objects].
  rewrite nth_error_end.
  rewrite (RegExpBuiltinExec_plain (setLastIndex 0 re) s) by assumption.
  rewrite execFrom_setLastIndex, updateAt_last, <- exec_plain by assumption.
  reflexivity.
Qed.

Lemma extractSection_store text sectionName w :
  Store.extractSection text sectionName w
  = (extractSection text sectionName,
     {| Store.props := Store.props w;
        Store.regexps := Store.regexps w
                         ++ [setLastIndex 0 (sectionRegex sectionName)];
        Store.objects := Store.objects w |}).
Proof.
  unfold Store.extractSection.
  change (Store.bind (Store.newRegExp (sectionRegex sectionName))
            (fun regex =>
               Store.bind (Store.stringMatch text regex)
                 (fun match_ =>
                    Store.ret match match_ with
                              | Some m => trim (capture1 m)
                              | None => []
                              end)) w)
    with (let '(match_, w') :=
            Store.bind (Store.newRegExp (sectionRegex sectionName))
                       (Store.stringMatch text) w in
          (match match_ with
           | Some m => trim (capture1 m)
           | None => []
           end, w')).
  rewrite literal_match by reflexivity. reflexivity.
Qed.

(** The steps of a call, each on a world whose last object is [data]. *)
Lemma literal_step {B} re s (k : option MatchResult -> Store.M B) w :
  global (flags re) = false -> sticky (flags re) = false ->
  Store.bind (Store.newRegExp re)
             (fun regex => Store.bind (Store.stringMatch s regex) k) w
  = k (exec re s)
      {| Store.props := Store.props w;
         Store.regexps := Store.regexps w ++ [setLastIndex 0 re];
         Store.objects := Store.objects w |}.
Proof.
  intros Hg Hs.
  pose proof (literal_match re s w Hg Hs) as H.
  unfold Store.bind in *. unfold Store.newRegExp in *.
  destruct (Store.stringMatch s (length (Store.regexps w)) _) as [m w'].
  injection H as -> ->. reflexivity.
Qed.

Lemma section_step {B} text sectionName (k : JSString -> Store.M B) w :
  Store.bind (Store.extractSection text sectionName) k w
  = k (extractSection text sectionName)
      {| Store.props := Store.props w;
         Store.regexps := Store.regexps w
                          ++ [setLastIndex 0 (sectionRegex sectionName)];
         Store.objects := Store.objects w |}.
Proof.
  unfold Store.bind at 1. rewrite extractSection_store. reflexivity.
Qed.

Lemma updateAt_end {A} (f : A -> A) (l : list A) a :
  Store.updateAt (length l) f (l ++ [a]) = l ++ [f a].
Proof.
  induction l as [|c l IH]; [reflexivity|].
  cbn [length app Store.updateAt]. rewrite IH. reflexivity.
Qed.

Lemma setProperty_step {B} name v (k : unit -> Store.M B) p res objs o :
  Store.bind (Store.setProperty (length objs) name v) k
    {| Store.props := p; Store.regexps := res;
       Store.objects := objs ++ [o] |}
  = k tt {| Store.props := p; Store.regexps := res;
            Store.objects := objs ++ [(name, v) :: o] |}.
Proof.
  unfold Store.bind, Store.setProperty.
  cbn [Store.props Store.regexps Store.objects].
  rewrite updateAt_end. reflexivity.
Qed.

Lemma getProperty_step {B} name (k : option Store.Value -> Store.M B)
    p res objs o :
  Store.bind (Store.getProperty (length objs) name) k
    {| Store.props := p; Store.regexps := res;
       Store.objects := objs ++ [o] |}
  = k (Store.lookup name o)
      {| Store.props := p; Store.regexps := res;
         Store.objects := objs ++ [o] |}.
Proof.
  unfold Store.bind, Store.getProperty. cbn [Store.objects].
  rewrite nth_error_end. reflexivity.
Qed.

Lemma bind_assoc {A B C} (m : Store.M A) (f : A -> Store.M B)
    (k : B -> Store.M C) w :
  Store.bind (Store.bind m f) k w
  = Store.bind m (fun a => Store.bind (f a) k) w.
Proof. unfold Store.bind. destruct (m w) as [a w']. reflexivity. Qed.

Lemma ret_step {A B} (a : A) (k : A -> Store.M B) w :
  Store.bind (Store.ret a) k w = k a w.
Proof. reflexivity. Qed.

(** The properties of the object a call builds, the one assigned last
    first. *)
Lemma parseAnalysis_store text :
  exists o,
    Store.Holds o (parseAnalysis text) /\
    forall w,
      Store.parseAnalysis text w
      = (length (Store.objects w),
         {| Store.props := Store.props w;
            Store.regexps := Store.regexps w
                             ++ map (setLastIndex 0) programPatterns;
            Store.objects := Store.objects w ++ [o] |}).
Proof.
  unfold parseAnalysis. 
  set (roastMatch := exec roastRegex text).
  set (originMatch := exec originRegex text).
  set (regionMatch := exec regionRegex text).
  set (tastingMatch := exec tastingRegex text).
  set (expertMatch := exec expertRegex text).
  set (s1 := extractSection text (str "About the Origin")).
  set (s2 := extractSection text (str "Grade and Sourcing")).
  set (s3 := extractSection text (str "Processing Method")).
  set (s4 := extractSection text (str "Flavor Profile")).
  set (s5 := extractSection text (str "Roast Level")).
  exists ([(str "roastLevelDescription", Store.VString s5);
           (str "flavorProfile", Store.VString s4);
           (str "processingMethod", Store.VString s3);
           (str "gradeAndSourcing", Store.VString s2);
           (str "aboutOrigin", Store.VString s1)]
          ++ match expertMatch with
             | Some m => [(str "expertOverview",
                           Store.VString (trim (capture1 m)))]
             | None => []
             end
          ++ match tastingMatch with
             | Some m => [(str "tastingNotes",
                           Store.VString (trim (capture1 m)))]
             | None => []
             end
          ++ match originMatch with
             | Some m =>
               match regionMatch with
               | Some r => [(str "origin",
                             Store.VString (trim (capture1 m) ++ str " - "
                                            ++ trim (capture1 r)))]
               | None => []
               end
               ++ [(str "origin", Store.VString (trim (capture1 m)))]
             | None => []
             end
          ++ match roastMatch with
             | Some m => [(str "roastLevel",
                           Store.VNumber (parseInt (capture1 m)))]
             | None => []
             end).
  split.
  - clearbody roastMatch originMatch regionMatch tastingMatch expertMatch
              s1 s2 s3 s4 s5.
    unfold Store.Holds, Store.numberAt, Store.stringAt.
    cbn [roastLevel origin tastingNotes expertOverview aboutOrigin
         gradeAndSourcing processingMethod flavorProfile
         roastLevelDescription].
    destruct roastMatch as [m1|], originMatch as [m2|], regionMatch as [m3|],
             tastingMatch as [m4|], expertMatch as [m5|];
      repeat split; vm_compute; reflexivity.
  - intros w. unfold Store.parseAnalysis.
    unfold Store.newObject at 1. unfold Store.bind at 1.
    rewrite literal_step by reflexivity.
    cbn [Store.props Store.regexps Store.objects].
    fold roastMatch.
    assert (Hrest : forall p res objs o (k : unit -> Store.M Store.Ref),
      Store.bind
        match roastMatch with
        | Some m => Store.setProperty (length objs) (str "roastLevel")
                      (Store.VNumber (parseInt (capture1 m)))
        | None => Store.ret tt
        end k
        {| Store.props := p; Store.regexps := res;
           Store.objects := objs ++ [o] |}
      = k tt {| Store.props := p; Store.regexps := res;
                Store.objects :=
                  objs ++ [match roastMatch with
                           | Some m => [(str "roastLevel",
                                         Store.VNumber (parseInt (capture1 m)))]
                           | None => []
                           end ++ o] |}).
    { intros p res objs o k. destruct roastMatch as [m|].
      - apply setProperty_step.
      - reflexivity. }
    rewrite Hrest. clear Hrest.
    rewrite literal_step by reflexivity.
    cbn [Store.props Store.regexps Store.objects]. fold originMatch.
    rewrite literal_step by reflexivity.
    cbn [Store.props Store.regexps Store.objects]. fold regionMatch.
    assert (Horigin : forall p res objs o (k : unit -> Store.M Store.Ref),
      Store.bind
        match originMatch with
        | Some m =>
          Store.bind
            (Store.setProperty (length objs) (str "origin")
               (Store.VString (trim (capture1 m))))
            (fun _ =>
               match regionMatch with
               | Some r =>
                 Store.bind (Store.getProperty (length objs) (str "origin"))
                   (fun origin =>
                      Store.setProperty (length objs) (str "origin")
                        (Store.VString (Store.textOf origin ++ str " - "
                                        ++ trim (capture1 r))))
               | None => Store.ret tt
               end)
        | None => Store.ret tt
        end k
        {| Store.props := p; Store.regexps := res;
           Store.objects := objs ++ [o] |}
      = k tt {| Store.props := p; Store.regexps := res;
                Store.objects :=
                  objs ++ [match originMatch with
                           | Some m =>
                             match regionMatch with
                             | Some r =>
                               [(str "origin",
                                 Store.VString (trim (capture1 m) ++ str " - "
                                                ++ trim (capture1 r)))]
                             | None => []
                             end
                             ++ [(str "origin",
                                  Store.VString (trim (capture1 m)))]
                           | None => []
                           end ++ o] |}).
    { intros p res objs o k. destruct originMatch as [m|]; [|reflexivity].
      rewrite bind_assoc, setProperty_step.
      destruct regionMatch as [r|]; [|reflexivity].
      rewrite bind_assoc, getProperty_step.
      assert (E : Store.lookup (str "origin")
                    ((str "origin", Store.VString (trim (capture1 m))) :: o)
                  = Some (Store.VString (trim (capture1 m)))).
      { cbn [Store.lookup].
        assert (Eq : eqbStr (str "origin") (str "origin") = true)
          by (vm_compute; reflexivity).
        rewrite Eq. reflexivity. }
      rewrite E. cbn [Store.textOf]. apply setProperty_step. }
    rewrite Horigin. clear Horigin.
    rewrite literal_step by reflexivity.
    cbn [Store.props Store.regexps Store.objects]. fold tastingMatch.
    assert (Hset : forall (found : option MatchResult) name p res objs o
                          (k : unit -> Store.M Store.Ref),
      Store.bind
        match found with
        | Some m => Store.setProperty (length objs) name
                      (Store.VString (trim (capture1 m)))
        | None => Store.ret tt
        end k
        {| Store.props := p; Store.regexps := res;
           Store.objects := objs ++ [o] |}
      = k tt {| Store.props := p; Store.regexps := res;
                Store.objects :=
                  objs ++ [match found with
                           | Some m => [(name,
                                         Store.VString (trim (capture1 m)))]
                           | None => []
                           end ++ o] |}).
    { intros found name p res objs o k. destruct found as [m|].
      - apply setProperty_step.
      - reflexivity. }
    rewrite Hset.
    rewrite literal_step by reflexivity.
    cbn [Store.props Store.regexps Store.objects]. fold expertMatch.
    rewrite Hset. clear Hset.
    rewrite section_step. cbn [Store.props Store.regexps Store.objects].
    rewrite setProperty_step.
    rewrite section_step. cbn [Store.props Store.regexps Store.objects].
    rewrite setProperty_step.
    rewrite section_step. cbn [Store.props Store.regexps Store.objects].
    rewrite setProperty_step.
    rewrite section_step. cbn [Store.props Store.regexps Store.objects].
    rewrite setProperty_step.
    rewrite section_step. cbn [Store.props Store.regexps Store.objects].
    rewrite setProperty_step.
    fold s1 s2 s3 s4 s5. unfold Store.ret.
    unfold programPatterns. cbn [map app].
    rewrite <- !app_assoc, ?app_nil_r. cbn [app]. reflexivity.
Qed.

(** C10.  [parseAnalysis] is a function of the analysis string alone.  A
    call in any world (whatever the properties of the component, the
    images among them, and whatever objects earlier calls or anything else
    left on the heap) returns a new object whose properties are the fields
    of the same record, the one the string determines: roastLevel, origin,
    tastingNotes, expertOverview and the five section bodies.  The call
    changes nothing it finds: it adds its object and the ten RegExp objects
    its literals and [new RegExp] create, each left with [lastIndex] 0, and
    a second call returns another object with the same properties.  The
    patterns are neither global nor sticky, so even a pattern object kept
    from one call to the next would carry nothing over: a search neither
    reads its [lastIndex] nor writes it. *)
Theorem parseAnalysis_pure : forall text,
  exists data,
    Store.Holds data (parseAnalysis text) /\
    (forall w,
       let call := Store.parseAnalysis text w in
       fst call = length (Store.objects w) /\
       nth_error (Store.objects (snd call)) (fst call) = Some data /\
       Store.Extends w (snd call)) /\
    (forall w,
       let first := Store.parseAnalysis text w in
       let second := Store.parseAnalysis text (snd first) in
       fst second <> fst first /\
       nth_error (Store.objects (snd second)) (fst first) = Some data /\
       nth_error (Store.objects (snd second)) (fst second) = Some data) /\
    (forall re i s,
       In re programPatterns ->
       RegExpBuiltinExec (setLastIndex i re) s
       = (exec re s, setLastIndex i re)).
Proof.
  intros text. destruct (parseAnalysis_store text) as (data & Hd & Hcall).
  exists data. split; [exact Hd|].
  assert (Hone : forall w,
            fst (Store.parseAnalysis text w) = length (Store.objects w) /\
            nth_error (Store.objects (snd (Store.parseAnalysis text w)))
                      (fst (Store.parseAnalysis text w)) = Some data /\
            Store.Extends w (snd (Store.parseAnalysis text w))).
  { intros w. rewrite Hcall. cbn [fst snd Store.objects].
    split; [reflexivity|]. split; [apply nth_error_end|].
    unfold Store.Extends. cbn [Store.props Store.regexps Store.objects].
    split; [reflexivity|]. split.
    - exists (map (setLastIndex 0) programPatterns). split; [reflexivity|].
      apply Forall_forall. intros re Hin. apply in_map_iff in Hin.
      destruct Hin as (re0 & <- & _). reflexivity.
    - exists [data]. reflexivity. }
  split; [exact Hone|]. split.
  - intros w. cbv zeta. rewrite (Hcall (snd (Store.parseAnalysis text w))).
    rewrite (Hcall w). cbn [fst snd Store.objects].
    rewrite length_app. cbn [length]. split; [lia|]. split.
    + rewrite nth_error_app1 by (rewrite length_app; cbn; lia).
      apply nth_error_end.
    + replace (length (Store.objects w) + 1)
        with (length (Store.objects w ++ [data]))
        by (rewrite length_app; reflexivity).
      apply nth_error_end.
  - intros re i s Hin. apply programPatterns_plain in Hin as [Hg Hs].
    rewrite RegExpBuiltinExec_plain by assumption.
    rewrite execFrom_setLastIndex, exec_plain by assumption. reflexivity.
Qed.

(** A call in a world that holds an object and a global pattern left in the
    middle of a search. *)
Example parseAnalysis_in_a_used_world :
  let w := {| Store.props := {| isOpen := true; analysis := str "old";
                                images := [str "data:,"] |};
              Store.regexps :=
                [{| source := Lit (str "a");
                    flags := {| ignoreCase := false; dotAll := false;
                                global := true; sticky := false |};
                    lastIndex := 7 |}];
              Store.objects := [[(str "roastLevel",
                                  Store.VNumber (Finite 5))]] |} in
  let call := Store.parseAnalysis (str "Roast level Profile: 2/5") w in
  fst call = 1 /\
  option_map (fun o => Store.numberAt o (str "roastLevel"))
             (nth_error (Store.objects (snd call)) 1)
  = Some (Some (Finite 2)) /\
  nth_error (Store.objects (snd call)) 0 = nth_error (Store.objects w) 0 /\
  nth_error (Store.regexps (snd call)) 0 = nth_error (Store.regexps w) 0 /\
  length (Store.regexps (snd call)) = 11.
Proof.
  cbv zeta. repeat split; vm_compute; reflexivity.
Qed.

End ProductViewProperties.

(* ================================================================== *)
(** ** Doubles: what rounding keeps *)
(* ================================================================== *)

Module DoubleFacts.

Local Open Scope Z_scope.

(** The reduced form of a rational. *)
Lemma Qred_factor q :
  exists g, 0 < g /\ Qnum q = g * Qnum (Qred q) /\
            Zpos (Qden q) = g * Zpos (Qden (Qred q)).
Proof.
  destruct q as [a b]. unfold Qred.
  pose proof (Z.ggcd_correct_divisors a (Zpos b)) as H.
  pose proof (Z.ggcd_gcd a (Zpos b)) as Hg.
  pose proof (Z.gcd_nonneg a (Zpos b)) as Hn.
  destruct (Z.ggcd a (Zpos b)) as [g [aa bb]]. cbn [fst snd] in *.
  destruct H as [Ha Hb]. cbn [Qnum Qden].
  assert (Hgpos : 0 < g).
  { destruct (Z.eq_dec g 0) as [E|E]; [|lia]. rewrite E in Hb. lia. }
  assert (Hbb : 0 < bb) by nia.
  exists g. split; [assumption|]. split; [assumption|].
  rewrite Z2Pos.id by assumption. assumption.
Qed.

Lemma double_Qeq x y : (x == y)%Q -> double x = double y.
Proof. intros H. unfold double. rewrite (Qred_complete x y H). reflexivity. Qed.

Lemma pow2_nonpos e : e <= 0 -> (pow2 e * inject_Z (2 ^ (- e)) == 1)%Q.
Proof.
  intros He. unfold pow2. destruct (0 <=? e) eqn:E.
  - apply Z.leb_le in E. assert (e = 0) by lia. subst e. reflexivity.
  - field. intros H. apply (inject_Z_injective (2 ^ (- e)) 0) in H.
    pose proof (Z.pow_pos_nonneg 2 (- e)). lia.
Qed.

Lemma pow2_nonneg e : 0 <= e -> pow2 e = inject_Z (2 ^ e).
Proof.
  intros He. unfold pow2. apply Z.leb_le in He. rewrite He. reflexivity.
Qed.

(** The exponent found is the integer part of the logarithm: [2^L <= n/d]. *)
Lemma floorLog2_lower n d :
  0 < n -> 0 < d ->
  d * 2 ^ Z.max 0 (floorLog2 n d) <= n * 2 ^ Z.max 0 (- floorLog2 n d).
Proof.
  intros Hn Hd. unfold floorLog2.
  set (k := Z.log2 n - Z.log2 d).
  destruct (d * 2 ^ Z.max 0 k <=? n * 2 ^ Z.max 0 (- k)) eqn:E.
  - apply Z.leb_le in E. exact E.
  - pose proof (Z.log2_spec n Hn) as [Hn1 _].
    pose proof (Z.log2_spec d Hd) as [_ Hd2].
    pose proof (Z.log2_nonneg n) as Ha. pose proof (Z.log2_nonneg d) as Hb.
    set (a := Z.log2 n) in *. set (b := Z.log2 d) in *.
    rewrite <- Z.add_1_r in Hd2.
    destruct (Z.le_gt_cases 1 k) as [Hk|Hk].
    + rewrite (Z.max_r 0 (k - 1)) by lia. rewrite (Z.max_l 0 (- (k - 1))) by lia.
      rewrite Z.pow_0_r, Z.mul_1_r.
      assert (Hp : 2 ^ (b + 1) * 2 ^ (k - 1) = 2 ^ a).
      { rewrite <- Z.pow_add_r by lia. f_equal. unfold k. lia. }
      assert (0 < 2 ^ (k - 1)) by (apply Z.pow_pos_nonneg; lia).
      nia.
    + rewrite (Z.max_l 0 (k - 1)) by lia. rewrite (Z.max_r 0 (- (k - 1))) by lia.
      rewrite Z.pow_0_r, Z.mul_1_r.
      assert (Hp : 2 ^ a * 2 ^ (- (k - 1)) = 2 ^ (b + 1)).
      { rewrite <- Z.pow_add_r by lia. f_equal. unfold k. lia. }
      assert (0 < 2 ^ (- (k - 1))) by (apply Z.pow_pos_nonneg; lia).
      nia.
Qed.

Lemma floorLog2_lt n d c :
  0 < n -> 0 < d -> 0 <= c -> n < 2 ^ c * d -> floorLog2 n d < c.
Proof.
  intros Hn Hd Hc Hlt.
  pose proof (floorLog2_lower n d Hn Hd) as H.
  destruct (Z.lt_ge_cases (floorLog2 n d) c) as [|Hge]; [assumption|].
  exfalso.
  rewrite (Z.max_r 0 (floorLog2 n d)) in H by lia.
  rewrite (Z.max_l 0 (- floorLog2 n d)) in H by lia.
  rewrite Z.pow_0_r, Z.mul_1_r in H.
  assert (2 ^ c <= 2 ^ floorLog2 n d) by (apply Z.pow_le_mono_r; lia).
  nia.
Qed.

(** And [n/d < 2^(L+1)]. *)
Lemma floorLog2_upper n d :
  0 < n -> 0 < d ->
  n * 2 ^ Z.max 0 (- (floorLog2 n d + 1))
  < d * 2 ^ Z.max 0 (floorLog2 n d + 1).
Proof.
  intros Hn Hd. unfold floorLog2.
  set (k := Z.log2 n - Z.log2 d).
  destruct (d * 2 ^ Z.max 0 k <=? n * 2 ^ Z.max 0 (- k)) eqn:E.
  - pose proof (Z.log2_spec n Hn) as [_ Hn2].
    pose proof (Z.log2_spec d Hd) as [Hd1 _].
    pose proof (Z.log2_nonneg n) as Ha. pose proof (Z.log2_nonneg d) as Hb.
    set (a := Z.log2 n) in *. set (b := Z.log2 d) in *.
    rewrite <- Z.add_1_r in Hn2.
    destruct (Z.le_gt_cases 0 (k + 1)) as [Hk|Hk].
    + rewrite (Z.max_l 0 (- (k + 1))), (Z.max_r 0 (k + 1)) by lia.
      rewrite Z.pow_0_r, Z.mul_1_r.
      assert (Hp : 2 ^ b * 2 ^ (k + 1) = 2 ^ (a + 1)).
      { rewrite <- Z.pow_add_r by lia. f_equal. unfold k. lia. }
      assert (0 < 2 ^ (k + 1)) by (apply Z.pow_pos_nonneg; lia).
      nia.
    + rewrite (Z.max_r 0 (- (k + 1))), (Z.max_l 0 (k + 1)) by lia.
      rewrite Z.pow_0_r, Z.mul_1_r.
      assert (Hp : 2 ^ (a + 1) * 2 ^ (- (k + 1)) = 2 ^ b).
      { rewrite <- Z.pow_add_r by lia. f_equal. unfold k. lia. }
      assert (0 < 2 ^ (- (k + 1))) by (apply Z.pow_pos_nonneg; lia).
      nia.
  - apply Z.leb_gt in E. replace (k - 1 + 1) with k by lia. exact E.
Qed.

(** A quotient of at least 2^-1022 is rounded as a normal number. *)
Lemma floorLog2_normal n d :
  0 < n -> 0 < d -> d <= n * 2 ^ 1022 -> -1022 <= floorLog2 n d.
Proof.
  intros Hn Hd Hle.
  pose proof (floorLog2_upper n d Hn Hd) as H.
  destruct (Z.le_gt_cases (-1022) (floorLog2 n d)) as [|Hlt]; [assumption|].
  exfalso.
  rewrite (Z.max_r 0 (- (floorLog2 n d + 1))) in H by lia.
  rewrite (Z.max_l 0 (floorLog2 n d + 1)) in H by lia.
  rewrite Z.pow_0_r, Z.mul_1_r in H.
  assert (2 ^ 1022 <= 2 ^ (- (floorLog2 n d + 1)))
    by (apply Z.pow_le_mono_r; lia).
  nia.
Qed.

(** The rounded significand is at most half a unit away from the scaled
    quotient. *)
Lemma significand_near num den :
  0 <= num -> 0 < den ->
  let f := num / den in
  let r := num mod den in
  let f' := if (den <? 2 * r) || ((2 * r =? den) && Z.odd f)
            then f + 1 else f in
  (f' = f \/ f' = f + 1) /\ 2 * Z.abs (f' * den - num) <= den.
Proof.
  intros Hnum Hden f r f'.
  pose proof (Z.div_mod num den ltac:(lia)) as Hdm.
  pose proof (Z.mod_pos_bound num den Hden) as Hr.
  fold f r in Hdm, Hr. subst f'.
  destruct (den <? 2 * r) eqn:E1; cbn [orb].
  - apply Z.ltb_lt in E1. split; [right; reflexivity|]. nia.
  - apply Z.ltb_ge in E1.
    destruct ((2 * r =? den) && Z.odd f) eqn:E2.
    + apply andb_true_iff in E2 as [E2 _]. apply Z.eqb_eq in E2.
      split; [right; reflexivity|]. nia.
    + split; [left; reflexivity|]. nia.
Qed.

(** The scaling of [roundPositive]: one of the two powers is 1. *)
Lemma scaling e :
  let A := 2 ^ Z.max 0 (- e) in
  let B := 2 ^ Z.max 0 e in
  0 < A /\ 0 < B /\ (pow2 e * inject_Z A == inject_Z B)%Q.
Proof.
  intros A B. subst A B.
  split; [apply Z.pow_pos_nonneg; lia|].
  split; [apply Z.pow_pos_nonneg; lia|].
  destruct (Z.le_gt_cases 0 e) as [He|He].
  - rewrite (Z.max_l 0 (- e)), (Z.max_r 0 e) by lia.
    rewrite pow2_nonneg by assumption. rewrite Z.pow_0_r.
    apply Qmult_1_r.
  - rewrite (Z.max_r 0 (- e)), (Z.max_l 0 e) by lia.
    rewrite Z.pow_0_r. apply pow2_nonpos. lia.
Qed.

(** A quotient below 1024 whose denominator is below 2^42 keeps its
    integer part when it is rounded. *)
Lemma roundPositive_floor n d :
  0 < n -> 0 < d -> d <= 2 ^ 42 -> n < 2 ^ 10 * d ->
  Qfloor (roundPositive n d) = n / d.
Proof.
  intros Hn Hd Hd42 Hlt.
  pose proof (floorLog2_lt n d 10 Hn Hd ltac:(lia) Hlt) as HL.
  unfold roundPositive.
  set (e := Z.max (floorLog2 n d - 52) (-1074)) in *.
  assert (He : e <= -43) by (unfold e; lia).
  rewrite (Z.max_r 0 (- e)), (Z.max_l 0 e) by lia.
  rewrite Z.pow_0_r, Z.mul_1_r.
  set (P := 2 ^ (- e)).
  assert (HP : 2 ^ 43 <= P) by (apply Z.pow_le_mono_r; lia).
  pose proof (significand_near (n * P) d ltac:(nia) Hd) as [Hf _].
  cbv zeta in Hf.
  set (f' := if (d <? 2 * ((n * P) mod d))
                || ((2 * ((n * P) mod d) =? d) && Z.odd (n * P / d))
             then n * P / d + 1 else n * P / d) in *.
  assert (Hq : (inject_Z f' * pow2 e == inject_Z f' / inject_Z P)%Q).
  { pose proof (pow2_nonpos e ltac:(lia)) as Hp. fold P in Hp.
    assert (HP0 : ~ (inject_Z P == 0)%Q).
    { intros E. apply (inject_Z_injective P 0) in E. lia. }
    apply (Qmult_inj_r _ _ (inject_Z P) HP0).
    rewrite <- Qmult_assoc, Hp. field. assumption. }
  rewrite (Qfloor_comp _ _ Hq), <- Zdiv_Qdiv.
  set (k := n / d).
  pose proof (Z.div_mod n d ltac:(lia)) as Hk.
  pose proof (Z.mod_pos_bound n d Hd) as Hkr. fold k in Hk.
  pose proof (Z.div_mod (n * P) d ltac:(lia)) as Hf1.
  pose proof (Z.mod_pos_bound (n * P) d Hd) as Hf2.
  set (f := n * P / d) in *.
  assert (Hlow : k * P <= f).
  { assert (k * P * d < (f + 1) * d) by nia. nia. }
  assert (Hup : f + 2 <= (k + 1) * P).
  { assert (f * d <= ((k + 1) * d - 1) * P) by nia.
    assert ((f + 2) * d <= (k + 1) * P * d) by nia. nia. }
  symmetry. apply (Z.div_unique f' P k (f' - k * P)); lia.
Qed.

(** A whole number below 2^53 is a double. *)
Lemma roundPositive_exact z :
  0 < z < 2 ^ 53 -> (roundPositive z 1 == inject_Z z)%Q.
Proof.
  intros [Hz Hlt].
  assert (HL : floorLog2 z 1 = Z.log2 z).
  { unfold floorLog2. change (Z.log2 1) with 0. rewrite Z.sub_0_r.
    pose proof (Z.log2_nonneg z). pose proof (Z.log2_spec z Hz) as [Hl _].
    rewrite (Z.max_r 0 (Z.log2 z)), (Z.max_l 0 (- Z.log2 z)) by lia.
    rewrite Z.pow_0_r, Z.mul_1_r, Z.mul_1_l.
    apply Z.leb_le in Hl. rewrite Hl. reflexivity. }
  assert (Hle : Z.log2 z <= 52).
  { apply Z.lt_succ_r. apply Z.log2_lt_pow2; [assumption|].
    exact Hlt. }
  unfold roundPositive. rewrite HL.
  pose proof (Z.log2_nonneg z) as Hl0.
  rewrite (Z.max_l (Z.log2 z - 52) (-1074)) by lia.
  set (e := Z.log2 z - 52).
  rewrite (Z.max_r 0 (- e)), (Z.max_l 0 e) by (unfold e; lia).
  rewrite Z.pow_0_r, Z.mul_1_l, Z.div_1_r, Z.mod_1_r.
  cbn [Z.mul Z.ltb Z.compare orb Z.eqb andb].
  pose proof (pow2_nonpos e ltac:(unfold e; lia)) as Hp.
  rewrite inject_Z_mult, <- Qmult_assoc, (Qmult_comm (inject_Z (2 ^ (- e)))), Hp.
  apply Qmult_1_r.
Qed.

(** Rounding moves a quotient by at most its 2^-53th part. *)
Lemma roundPositive_near n d :
  0 < n -> 0 < d -> d <= n * 2 ^ 1022 ->
  (inject_Z (n * (2 ^ 53 - 1))
   <= roundPositive n d * inject_Z (d * 2 ^ 53)
   <= inject_Z (n * (2 ^ 53 + 1)))%Q.
Proof.
  intros Hn Hd Hnormal.
  pose proof (floorLog2_lower n d Hn Hd) as HL.
  pose proof (floorLog2_normal n d Hn Hd Hnormal) as Hexp.
  unfold roundPositive.
  set (L := floorLog2 n d) in *.
  rewrite (Z.max_l (L - 52) (-1074)) by lia.
  set (e := L - 52).
  destruct (scaling e) as (HA & HB & HAB). cbv zeta in HA, HB, HAB.
  set (A := 2 ^ Z.max 0 (- e)) in *. set (B := 2 ^ Z.max 0 e) in *.
  pose proof (significand_near (n * A) (d * B) ltac:(nia) ltac:(nia))
    as [_ Hnear].
  cbv zeta in Hnear.
  set (f' := if (d * B <? 2 * ((n * A) mod (d * B)))
                || ((2 * ((n * A) mod (d * B)) =? d * B)
                    && Z.odd (n * A / (d * B)))
             then n * A / (d * B) + 1 else n * A / (d * B)) in *.
  (* 2^52 * den <= num *)
  assert (Hnorm : 2 ^ 52 * (d * B) <= n * A).
  { subst A B. destruct (Z.le_gt_cases 0 e) as [He|He].
    - rewrite (Z.max_l 0 (- e)), (Z.max_r 0 e) by lia.
      rewrite (Z.max_r 0 L), (Z.max_l 0 (- L)) in HL by (unfold e in He; lia).
      rewrite Z.pow_0_r, Z.mul_1_r in *.
      replace L with (e + 52) in HL by (unfold e; lia).
      rewrite Z.pow_add_r in HL by lia. lia.
    - rewrite (Z.max_r 0 (- e)), (Z.max_l 0 e) by lia.
      rewrite Z.pow_0_r, Z.mul_1_r.
      destruct (Z.le_gt_cases 0 L) as [HL0|HL0].
      + rewrite (Z.max_r 0 L), (Z.max_l 0 (- L)) in HL by lia.
        rewrite Z.pow_0_r, Z.mul_1_r in HL.
        assert (Hp : 2 ^ 52 = 2 ^ L * 2 ^ (- e)).
        { rewrite <- Z.pow_add_r by lia. f_equal. unfold e. lia. }
        rewrite Hp.
        assert (0 < 2 ^ (- e)) by (apply Z.pow_pos_nonneg; lia). nia.
      + rewrite (Z.max_l 0 L), (Z.max_r 0 (- L)) in HL by lia.
        rewrite Z.pow_0_r, Z.mul_1_r in HL.
        assert (Hp : 2 ^ (- e) = 2 ^ (- L) * 2 ^ 52).
        { rewrite <- Z.pow_add_r by lia. f_equal. unfold e. lia. }
        rewrite Hp. nia. }
  assert (HZ : n * A * (2 ^ 53 - 1) <= f' * (d * B) * 2 ^ 53
               <= n * A * (2 ^ 53 + 1)) by lia.
  assert (HAq : (0 < inject_Z A)%Q).
  { change 0%Q with (inject_Z 0). rewrite <- Zlt_Qlt. assumption. }
  assert (Hmid : (inject_Z f' * pow2 e * inject_Z (d * 2 ^ 53) * inject_Z A
                  == inject_Z (f' * (d * B) * 2 ^ 53))%Q).
  { rewrite !inject_Z_mult.
    rewrite <- HAB. ring. }
  split.
  - apply (Qmult_le_r _ _ (inject_Z A) HAq). rewrite Hmid.
    rewrite <- inject_Z_mult, <- Zle_Qle. lia.
  - apply (Qmult_le_r _ _ (inject_Z A) HAq). rewrite Hmid.
    rewrite <- inject_Z_mult, <- Zle_Qle. lia.
Qed.

Lemma double_Z z : 0 <= z < 2 ^ 53 -> (double (inject_Z z) == inject_Z z)%Q.
Proof.
  intros Hz. unfold double.
  destruct (Qred_factor (inject_Z z)) as (g & Hg & Hn & Hd).
  cbn [inject_Z Qnum Qden] in Hn, Hd.
  pose proof (Pos2Z.is_pos (Qden (Qred (z # 1)))) as Hdpos.
  assert (Hg1 : g = 1).
  { destruct (Z.eq_dec g 1) as [|Hne]; [assumption|].
    assert (2 <= g) by lia. nia. }
  subst g. rewrite Z.mul_1_l in Hn, Hd. rewrite <- Hd, <- Hn.
  destruct z as [|p|p]; [reflexivity| |lia].
  apply roundPositive_exact. lia.
Qed.

Lemma times_Z a b :
  0 <= a * b < 2 ^ 53 ->
  (times (inject_Z a) (inject_Z b) == inject_Z (a * b))%Q.
Proof.
  intros H. unfold times.
  rewrite (double_Qeq (inject_Z a * inject_Z b) (inject_Z (a * b)))
    by (rewrite inject_Z_mult; reflexivity).
  apply double_Z. assumption.
Qed.

(** The quotient of a whole number by a positive one, as [divide] sees
    it. *)
Lemma divide_reduced x a b :
  (x == inject_Z a)%Q -> 0 < a -> 0 < b ->
  exists g n d,
    0 < g /\ 0 < n /\ 0 < d /\ a = g * n /\ b = g * d /\
    divide x (inject_Z b) = roundPositive n d.
Proof.
  intros Hx Ha Hb. unfold divide.
  assert (E : (x / inject_Z b == a # Z.to_pos b)%Q).
  { rewrite Hx. rewrite (Qmake_Qdiv a (Z.to_pos b)).
    rewrite Z2Pos.id by assumption. reflexivity. }
  rewrite (double_Qeq _ _ E). unfold double.
  destruct (Qred_factor (a # Z.to_pos b)) as (g & Hg & Hn & Hd).
  cbn [Qnum Qden] in Hn, Hd. rewrite Z2Pos.id in Hd by assumption.
  set (n := Qnum (Qred (a # Z.to_pos b))) in *.
  set (d := Qden (Qred (a # Z.to_pos b))) in *.
  exists g, n, (Zpos d).
  assert (Hnpos : 0 < n) by nia.
  split; [assumption|]. split; [assumption|]. split; [lia|].
  split; [assumption|]. split; [assumption|].
  destruct n as [|p|p]; [lia|reflexivity|lia].
Qed.

Lemma divide_floor x a b :
  (x == inject_Z a)%Q -> 0 <= a -> 0 < b <= 2 ^ 42 -> a < 2 ^ 10 * b ->
  Qfloor (divide x (inject_Z b)) = a / b.
Proof.
  intros Hx Ha Hb Hlt.
  destruct (Z.eq_dec a 0) as [->|Hne].
  - unfold divide.
    rewrite (double_Qeq (x / inject_Z b) 0).
    + reflexivity.
    + rewrite Hx. unfold Qdiv. apply Qmult_0_l.
  - destruct (divide_reduced x a b Hx ltac:(lia) ltac:(lia))
      as (g & n & d & Hg & Hn & Hd & Ea & Eb & ->).
    rewrite roundPositive_floor by nia.
    subst a b. symmetry. apply Z.div_mul_cancel_l; lia.
Qed.

Lemma divide_near x a b :
  (x == inject_Z a)%Q -> 0 < a -> 0 < b -> b <= a * 2 ^ 1022 ->
  (inject_Z (a * (2 ^ 53 - 1))
   <= divide x (inject_Z b) * inject_Z (b * 2 ^ 53)
   <= inject_Z (a * (2 ^ 53 + 1)))%Q.
Proof.
  intros Hx Ha Hb Hnormal.
  destruct (divide_reduced x a b Hx Ha Hb)
    as (g & n & d & Hg & Hn & Hd & Ea & Eb & ->).
  assert (Hnd : d <= n * 2 ^ 1022) by (subst a b; nia).
  pose proof (roundPositive_near n d Hn Hd Hnd) as [H1 H2].
  assert (Hgq : (0 < inject_Z g)%Q).
  { change 0%Q with (inject_Z 0). rewrite <- Zlt_Qlt. assumption. }
  assert (E1 : forall k, (inject_Z (a * k) == inject_Z (n * k) * inject_Z g)%Q).
  { intros k. rewrite <- inject_Z_mult. subst a.
    replace (g * n * k) with (n * k * g) by ring. reflexivity. }
  assert (E2 : (roundPositive n d * inject_Z (b * 2 ^ 53)
                == roundPositive n d * inject_Z (d * 2 ^ 53) * inject_Z g)%Q).
  { subst b. rewrite !inject_Z_mult. ring. }
  split.
  - rewrite E1, E2. apply Qmult_le_r; assumption.
  - rewrite E1, E2. apply Qmult_le_r; assumption.
Qed.

End DoubleFacts.

(* ================================================================== *)
(** ** Handlers that wait: running on, and running to the end *)
(* ================================================================== *)

Module HandlerFacts.
Import ListFacts.

(** *** States *)

Lemma State_ext (a b : State) :
  isDragging a = isDragging b -> uploadedImages a = uploadedImages b ->
  error a = error b -> input a = input b -> sent a = sent b ->
  timers a = timers b -> alerts a = alerts b -> awaiting a = awaiting b ->
  a = b.
Proof.
  destruct a, b. cbn. intros. subst. reflexivity.
Qed.

(** *** Lists of waiting handlers *)

Lemma replaceAt_last {A} (l : list A) a b :
  replaceAt (length l) b (l ++ [a]) = l ++ [b].
Proof.
  induction l as [|c l IH]; [reflexivity|]. cbn [length app replaceAt].
  rewrite IH. reflexivity.
Qed.

Lemma removeAt_last {A} (l : list A) a : removeAt (length l) (l ++ [a]) = l.
Proof.
  induction l as [|c l IH]; [reflexivity|]. cbn [length app removeAt].
  rewrite IH. reflexivity.
Qed.

(** *** One handler *)

Lemma addValidFiles_spec validFiles st :
  addValidFiles validFiles st
  = setUploadedImages (fun prev => prev ++ validFiles) st.
Proof.
  unfold addValidFiles. destruct validFiles as [|f fs]; [|reflexivity].
  cbn [length Nat.ltb Nat.leb]. apply State_ext; cbn; auto.
  rewrite app_nil_r. reflexivity.
Qed.

(** What a handler leaves alone when it runs on. *)
Lemma resume_frame task st st' task' :
  resume task st = Some (st', task') ->
  isDragging st' = isDragging st /\ error st' = error st /\
  awaiting st' = awaiting st.
Proof.
  destruct task as [files validFiles|i u|i h]; cbn [resume].
  - destruct files as [|file files].
    + intros H. injection H as <- <-. rewrite addValidFiles_spec. cbn. auto.
    + unfold validated. destruct (validateFile file).
      * destruct files as [|next files]; intros H; injection H as <- <-.
        -- rewrite addValidFiles_spec. cbn. auto.
        -- auto.
      * destruct files as [|next files]; intros H; injection H as <- <-.
        -- rewrite addValidFiles_spec. cbn. auto.
        -- cbn. auto.
  - destruct (PromiseAll (imagePromises u)) as [attachments|]; [|discriminate].
    unfold sendMessage. intros H. injection H as <- <-. cbn. auto.
  - intros H. injection H as <- <-. unfold afterAppend.
    destruct (h && negb (truthyStr (trim i))); cbn; auto.
Qed.

(** A handler that reaches an [await] changes nothing by waiting. *)
Lemma start_fields r :
  isDragging (start r) = isDragging (fst r) /\
  uploadedImages (start r) = uploadedImages (fst r) /\
  error (start r) = error (fst r) /\ input (start r) = input (fst r) /\
  sent (start r) = sent (fst r) /\ timers (start r) = timers (fst r) /\
  alerts (start r) = alerts (fst r).
Proof. destruct r as [st [task|]]; cbn; repeat split; reflexivity. Qed.

Lemma settle_out_of_range k st : length (awaiting st) <= k -> settle k st = st.
Proof.
  intros H. unfold settle.
  destruct (nth_error (awaiting st) k) eqn:E; [|reflexivity].
  apply nth_error_None in H. congruence.
Qed.

Lemma run_settled k n st :
  length (awaiting st) <= k -> run (repeat (Settle k) n) st = st.
Proof.
  intros H. induction n as [|n IH]; [reflexivity|].
  cbn [repeat]. unfold run in *. cbn [fold_left step].
  rewrite settle_out_of_range by assumption. exact IH.
Qed.

(** The last handler of the list runs on. *)
Lemma settle_last waiting task st :
  awaiting st = waiting ++ [task] ->
  settle (length waiting) st
  = match resume task st with
    | Some (st', Some task') => setAwaiting (fun _ => waiting ++ [task']) st'
    | Some (st', None) => setAwaiting (fun _ => waiting) st'
    | None => st
    end.
Proof.
  intros Hw. unfold settle. rewrite Hw, nth_error_end.
  destruct (resume task st) as [[st' [task'|]]|] eqn:E; [| |reflexivity].
  - destruct (resume_frame _ _ _ _ E) as (_ & _ & Ha).
    apply State_ext; cbn; auto. rewrite Ha, Hw. apply replaceAt_last.
  - destruct (resume_frame _ _ _ _ E) as (_ & _ & Ha).
    apply State_ext; cbn; auto. rewrite Ha, Hw. apply removeAt_last.
Qed.

(** *** An upload running to its end *)

Lemma run_validating files : forall validFiles waiting st n,
  awaiting st = waiting ++ [Validating files validFiles] ->
  files <> [] -> length files <= n ->
  run (repeat (Settle (length waiting)) n) st
  = setAwaiting (fun _ => waiting)
      (uploaded (validFiles ++ filter validateFile files)
                (filter isRejected files) st).
Proof.
  unfold isRejected.
  induction files as [|file files IH]; intros validFiles waiting st n Hw Hne Hn;
    [contradiction|].
  destruct n as [|n]; [cbn in Hn; lia|].
  cbn [repeat]. unfold run. cbn [fold_left step]. fold (run (repeat (Settle (length waiting)) n)).
  rewrite (settle_last waiting _ st Hw). cbn [resume]. unfold validated.
  destruct files as [|next files].
  - destruct (validateFile file) eqn:Ev; cbn [filter negb];
      rewrite ?Ev; cbn [negb];
      (rewrite run_settled by (cbn; lia));
      rewrite addValidFiles_spec;
      apply State_ext; cbn; auto; rewrite ?app_nil_r; reflexivity.
  - destruct (validateFile file) eqn:Ev.
    + rewrite (IH (validFiles ++ [file]) waiting) by
        (cbn in *; try discriminate; try reflexivity; lia).
      cbn [filter]. rewrite Ev. cbn [negb].
      apply State_ext; cbn; auto. rewrite <- !app_assoc. reflexivity.
    + rewrite (IH validFiles waiting) by
        (cbn in *; try discriminate; try reflexivity; lia).
      cbn [filter]. rewrite Ev. cbn [negb].
      apply State_ext; cbn; auto. rewrite <- !app_assoc. reflexivity.
Qed.

(** [addFiles] with nothing in its way. *)
Lemma run_addFiles dropped st n :
  length dropped <= n ->
  run (repeat (Settle (length (awaiting st))) n) (start (addFiles dropped st))
  = let files := filter allowedType dropped in
    if MAX_FILES <? length (uploadedImages st) + length files
    then alert limitMessage st
    else uploaded (filter validateFile files) (filter isRejected files) st.
Proof.
  intros Hn. unfold addFiles. fold allowedType. cbv zeta.
  pose proof (filter_length_le allowedType dropped) as Hlen.
  destruct (MAX_FILES <? _).
  - cbn [start]. apply run_settled. cbn. lia.
  - destruct (filter allowedType dropped) as [|file files] eqn:Ef.
    + cbn [start]. rewrite run_settled by lia.
      apply State_ext; cbn; auto; rewrite app_nil_r; reflexivity.
    + cbn [start].
      rewrite (run_validating (file :: files) [] (awaiting st))
        by (cbn in *; try discriminate; try reflexivity; lia).
      apply State_ext; reflexivity.
Qed.

Lemma alone_FileSelect dropped st :
  alone (FileSelect dropped) st
  = let files := filter allowedType dropped in
    if MAX_FILES <? length (uploadedImages st) + length files
    then alert limitMessage st
    else uploaded (filter validateFile files) (filter isRejected files) st.
Proof.
  unfold alone, run. cbn [fold_left step awaits handleFileSelect].
  apply (run_addFiles dropped st (length dropped)). lia.
Qed.

Lemma alone_Drop dropped st :
  alone (Drop dropped) st
  = let files := filter allowedType dropped in
    if MAX_FILES <? length (uploadedImages st) + length files
    then alert limitMessage (setIsDragging false st)
    else uploaded (filter validateFile files) (filter isRejected files)
                  (setIsDragging false st).
Proof.
  unfold alone, run. cbn [fold_left step awaits handleDrop].
  apply (run_addFiles dropped (setIsDragging false st) (length dropped)). lia.
Qed.

(** *** The attachments of a submission *)

Lemma truthyStr_false s : truthyStr s = false <-> s = [].
Proof. destruct s; simpl; split; intros H; try discriminate; auto. Qed.

Lemma truthyStr_true s : truthyStr s = true <-> s <> [].
Proof.
  destruct s; simpl; split; intros H; try discriminate; auto;
    try contradiction.
Qed.

Lemma length_eqb_0 {A} (l : list A) : (length l =? 0) = true <-> l = [].
Proof. destruct l; simpl; split; intros H; try discriminate; auto. Qed.

Lemma imagePromise_spec file attachment :
  imagePromise file = Some attachment <->
  exists compressed,
    compressImage file = Some compressed /\
    attachment = {| attachmentName := name file;
                    contentType := str "image/jpeg";
                    url := compressed |}.
Proof.
  unfold imagePromise. destruct (compressImage file) as [c|]; split.
  - intros H. injection H as <-. exists c. auto.
  - intros (c' & H & ->). injection H as <-. reflexivity.
  - discriminate.
  - intros (c' & H & _). discriminate.
Qed.

Lemma compressImage_loads file :
  (exists compressed, compressImage file = Some compressed) <-> loads file.
Proof.
  unfold compressImage, loads. destruct (picture file) as [img|]; split.
  - discriminate.
  - intros _. eexists. reflexivity.
  - intros (c & H). discriminate.
  - intros H. contradiction.
Qed.

(** One attachment per file, in order, once every picture has loaded; none
    at all while one does not. *)
Lemma attachmentsOf_spec files : forall attachments,
  attachmentsOf files = Some attachments ->
  map attachmentName attachments = map name files /\
  map contentType attachments = map (fun _ => str "image/jpeg") files /\
  map (fun attachment => Some (url attachment)) attachments
  = map compressImage files /\
  length attachments = length files.
Proof.
  unfold attachmentsOf, imagePromises.
  induction files as [|file files IH]; intros attachments; cbn [map PromiseAll].
  - intros H. injection H as <-. auto.
  - destruct (imagePromise file) as [a|] eqn:Ea; [|discriminate].
    destruct (PromiseAll (map imagePromise files)) as [l|]; [|discriminate].
    intros H. injection H as <-.
    apply imagePromise_spec in Ea as (c & Hc & ->).
    destruct (IH l eq_refl) as (H1 & H2 & H3 & H4).
    cbn [map attachmentName contentType url length].
    rewrite H1, H2, H3, H4, Hc. auto.
Qed.

Lemma attachmentsOf_loads files :
  (exists attachments, attachmentsOf files = Some attachments) <->
  Forall loads files.
Proof.
  unfold attachmentsOf, imagePromises.
  induction files as [|file files IH]; cbn [map PromiseAll].
  - split; [constructor | eexists; reflexivity].
  - split.
    + intros (l & H).
      destruct (imagePromise file) as [a|] eqn:Ea; [|discriminate].
      destruct (PromiseAll (map imagePromise files)) as [l'|]; [|discriminate].
      constructor.
      * apply compressImage_loads. apply imagePromise_spec in Ea as (c & Hc & _).
        exists c. assumption.
      * apply IH. exists l'. reflexivity.
    + intros H. inversion H as [|? ? Hf Hfs]; subst.
      apply compressImage_loads in Hf as (c & Hc).
      apply IH in Hfs as (l & Hl).
      unfold imagePromise at 1. rewrite Hc, Hl. eexists. reflexivity.
Qed.

Lemma attachmentsOf_stuck files :
  attachmentsOf files = None <->
  exists file, In file files /\ picture file = None.
Proof.
  split.
  - intros H.
    assert (Hn : ~ Forall loads files).
    { intros Hall. apply attachmentsOf_loads in Hall as (l & Hl). congruence. }
    rewrite <- Exists_Forall_neg in Hn.
    + apply Exists_exists in Hn as (file & Hin & Hf). exists file.
      split; [assumption|]. unfold loads in Hf.
      destruct (picture file); [exfalso; apply Hf; discriminate | reflexivity].
    + intros file. unfold loads. destruct (picture file);
        [left; discriminate | right; intros Hc; apply Hc; reflexivity].
  - intros (file & Hin & Hp).
    destruct (attachmentsOf files) as [l|] eqn:E; [|reflexivity].
    assert (Hall : Forall loads files) by (apply attachmentsOf_loads; eauto).
    rewrite Forall_forall in Hall. apply Hall in Hin. contradiction.
Qed.

(** *** A submission running to its end *)

Lemma alone_Submit_nothing st :
  trim (input st) = [] -> uploadedImages st = [] -> alone Submit st = st.
Proof.
  intros Hi Hu. unfold alone, run. cbn [fold_left step awaits repeat].
  unfold handleFormSubmit. rewrite Hi, Hu. cbn [start].
  rewrite !(settle_out_of_range _ st) by lia. reflexivity.
Qed.

(** The message of a submission, [attachments] being what the uploaded
    files have become. *)
Lemma alone_Submit_text st :
  trim (input st) <> [] -> uploadedImages st = [] ->
  alone Submit st
  = afterAppend (input st) false (append (typedMessage (input st) None) st).
Proof.
  intros Hi Hu. apply truthyStr_true in Hi.
  unfold alone, run. cbn [fold_left step awaits repeat].
  unfold handleFormSubmit. rewrite Hi, Hu.
  cbn [negb andb length Nat.ltb Nat.leb]. unfold sendMessage.
  rewrite Hi. cbn [negb andb start].
  match goal with
  | |- settle _ (settle _ ?s) = _ =>
      rewrite (settle_last (awaiting st) (Appending (input st) false) s)
        by reflexivity
  end.
  cbn [resume].
  rewrite settle_out_of_range.
  - apply State_ext; unfold afterAppend; cbn; auto.
  - unfold afterAppend. cbn. lia.
Qed.

Lemma alone_Submit_images st attachments :
  uploadedImages st <> [] ->
  attachmentsOf (uploadedImages st) = Some attachments ->
  alone Submit st
  = afterAppend (input st) true
      (append (if truthyStr (trim (input st))
               then typedMessage (input st) (Some attachments)
               else analysisMessage attachments) st).
Proof.
  intros Hu Ha.
  unfold alone, run. cbn [fold_left step awaits repeat].
  unfold handleFormSubmit.
  destruct (uploadedImages st) as [|f fs] eqn:Eu; [contradiction|].
  cbn [length Nat.eqb Nat.ltb Nat.leb]. rewrite andb_false_r. cbn [start].
  match goal with
  | |- settle _ (settle _ ?s) = _ =>
      rewrite (settle_last (awaiting st) (Compressing (input st) (f :: fs)) s)
        by reflexivity
  end.
  cbn [resume]. unfold attachmentsOf in Ha. rewrite Ha. unfold sendMessage.
  match goal with
  | |- settle _ ?s = _ =>
      rewrite (settle_last (awaiting st) (Appending (input st) true) s)
        by reflexivity
  end.
  cbn [resume].
  destruct (truthyStr (trim (input st))) eqn:Et; cbn [negb andb];
    apply State_ext; unfold afterAppend; cbn; rewrite ?Et; cbn; auto.
Qed.

(** A submission with a file that does not load waits for ever. *)
Lemma alone_Submit_stuck st :
  uploadedImages st <> [] ->
  attachmentsOf (uploadedImages st) = None ->
  step Submit st
  = setAwaiting (fun waiting =>
                   waiting ++ [Compressing (input st) (uploadedImages st)]) st /\
  alone Submit st = step Submit st.
Proof.
  intros Hu Ha.
  assert (Hs : step Submit st
               = setAwaiting (fun waiting =>
                   waiting ++ [Compressing (input st) (uploadedImages st)]) st).
  { cbn [step]. unfold handleFormSubmit.
    destruct (uploadedImages st) as [|f fs] eqn:Eu; [contradiction|].
    cbn [length Nat.eqb Nat.ltb Nat.leb]. rewrite andb_false_r. reflexivity. }
  split; [exact Hs|].
  unfold alone, run. cbn [fold_left awaits repeat]. rewrite Hs.
  assert (Hstay : settle (length (awaiting st))
                    (setAwaiting (fun waiting =>
                       waiting ++ [Compressing (input st) (uploadedImages st)]) st)
                  = setAwaiting (fun waiting =>
                       waiting ++ [Compressing (input st) (uploadedImages st)]) st).
  { rewrite (settle_last (awaiting st)
               (Compressing (input st) (uploadedImages st))) by reflexivity.
    cbn [resume]. unfold attachmentsOf in Ha.
    cbn [setAwaiting uploadedImages input]. rewrite Ha. reflexivity. }
  cbn [step]. rewrite !Hstay. reflexivity.
Qed.

End HandlerFacts.

(* ================================================================== *)
(** ** The canvas of a compressed picture *)
(* ================================================================== *)

Module CompressionFacts.
Import DoubleFacts.

Lemma toUnsignedLong_Z z :
  (0 <= z < 2 ^ 32)%Z -> toUnsignedLong (inject_Z z) = z.
Proof.
  intros H. unfold toUnsignedLong. rewrite Qfloor_Z. apply Z.mod_small.
  assumption.
Qed.

(** The side that is scaled: its canvas side is the integer part of the
    exact quotient. *)
Lemma toUnsignedLong_scaled a b :
  (0 < a < 2 ^ 32)%Z -> (0 < b < 2 ^ 32)%Z -> (a <= b)%Z ->
  toUnsignedLong (divide (times (inject_Z a) (inject_Z 800)) (inject_Z b))
  = (a * 800 / b)%Z.
Proof.
  intros Ha Hb Hle. unfold toUnsignedLong.
  rewrite (divide_floor _ (a * 800) b).
  - apply Z.mod_small. split; [apply Z.div_pos; lia|].
    apply Z.div_lt_upper_bound; lia.
  - apply times_Z. lia.
  - lia.
  - lia.
  - lia.
Qed.

Lemma scaled_near a b :
  (0 < a < 2 ^ 32)%Z -> (0 < b < 2 ^ 32)%Z ->
  (inject_Z (a * 800 * (2 ^ 53 - 1))
   <= divide (times (inject_Z a) (inject_Z 800)) (inject_Z b)
      * inject_Z (b * 2 ^ 53)
   <= inject_Z (a * 800 * (2 ^ 53 + 1)))%Q.
Proof.
  intros Ha Hb. apply divide_near; [apply times_Z; lia | lia | lia |].
  assert (2 ^ 32 <= 2 ^ 1022)%Z by (apply Z.pow_le_mono_r; lia).
  nia.
Qed.

Lemma scaledSize_wide img :
  (imgHeight img < imgWidth img)%Z -> (800 < imgWidth img)%Z ->
  scaledSize img
  = (inject_Z 800,
     divide (times (inject_Z (imgHeight img)) (inject_Z 800))
            (inject_Z (imgWidth img))).
Proof.
  intros H1 H2. unfold scaledSize, maxSize.
  assert (E1 : (imgWidth img >? imgHeight img)%Z = true)
    by (apply Z.gtb_lt; lia).
  assert (E2 : (imgWidth img >? 800)%Z = true) by (apply Z.gtb_lt; lia).
  rewrite E1, E2. reflexivity.
Qed.

Lemma scaledSize_tall img :
  (imgWidth img <= imgHeight img)%Z -> (800 < imgHeight img)%Z ->
  scaledSize img
  = (divide (times (inject_Z (imgWidth img)) (inject_Z 800))
            (inject_Z (imgHeight img)),
     inject_Z 800).
Proof.
  intros H1 H2. unfold scaledSize, maxSize.
  assert (E1 : (imgWidth img >? imgHeight img)%Z = false)
    by (rewrite Z.gtb_ltb; apply Z.ltb_ge; lia).
  assert (E2 : (imgHeight img >? 800)%Z = true) by (apply Z.gtb_lt; lia).
  rewrite E1, E2. reflexivity.
Qed.

Lemma scaledSize_small img :
  (Z.max (imgWidth img) (imgHeight img) <= 800)%Z ->
  scaledSize img = (inject_Z (imgWidth img), inject_Z (imgHeight img)).
Proof.
  intros H. unfold scaledSize, maxSize.
  assert (E2 : (imgWidth img >? 800)%Z = false)
    by (rewrite Z.gtb_ltb; apply Z.ltb_ge; lia).
  assert (E3 : (imgHeight img >? 800)%Z = false)
    by (rewrite Z.gtb_ltb; apply Z.ltb_ge; lia).
  rewrite E2, E3. destruct (imgWidth img >? imgHeight img)%Z; reflexivity.
Qed.

(** The sides of the canvas, for a picture as an image element delivers
    it. *)
Lemma canvas_sides img :
  let w := imgWidth img in
  let h := imgHeight img in
  (0 < w < 2 ^ 32)%Z -> (0 < h < 2 ^ 32)%Z ->
  canvasWidth (drawScaled img)
  = (if (w <=? h)%Z && (800 <? h)%Z then w * 800 / h else Z.min w 800)%Z /\
  canvasHeight (drawScaled img)
  = (if (h <? w)%Z && (800 <? w)%Z then h * 800 / w else Z.min h 800)%Z.
Proof.
  intros w h Hw Hh. unfold drawScaled.
  destruct (Z.lt_ge_cases h w) as [Hlt|Hge].
  - assert (E1 : (w <=? h)%Z = false) by (apply Z.leb_gt; assumption).
    assert (E2 : (h <? w)%Z = true) by (apply Z.ltb_lt; assumption).
    rewrite E1, E2. cbn [andb].
    destruct (Z.lt_ge_cases 800 w) as [Hbig|Hsmall].
    + assert (E3 : (800 <? w)%Z = true) by (apply Z.ltb_lt; assumption).
      rewrite E3, scaledSize_wide by assumption.
      cbn [canvasWidth canvasHeight]. fold w h.
      rewrite toUnsignedLong_Z by lia.
      rewrite toUnsignedLong_scaled by lia. split; [lia | reflexivity].
    + assert (E3 : (800 <? w)%Z = false) by (apply Z.ltb_ge; assumption).
      rewrite E3, scaledSize_small by (fold w h; lia).
      cbn [canvasWidth canvasHeight]. fold w h.
      rewrite !toUnsignedLong_Z by lia. split; lia.
  - assert (E1 : (w <=? h)%Z = true) by (apply Z.leb_le; assumption).
    assert (E2 : (h <? w)%Z = false) by (apply Z.ltb_ge; assumption).
    rewrite E1, E2. cbn [andb].
    destruct (Z.lt_ge_cases 800 h) as [Hbig|Hsmall].
    + assert (E3 : (800 <? h)%Z = true) by (apply Z.ltb_lt; assumption).
      rewrite E3, scaledSize_tall by assumption.
      cbn [canvasWidth canvasHeight]. fold w h.
      rewrite toUnsignedLong_Z by lia.
      rewrite toUnsignedLong_scaled by lia. split; [reflexivity | lia].
    + assert (E3 : (800 <? h)%Z = false) by (apply Z.ltb_ge; assumption).
      rewrite E3, scaledSize_small by (fold w h; lia).
      cbn [canvasWidth canvasHeight]. fold w h.
      rewrite !toUnsignedLong_Z by lia. split; lia.
Qed.

End CompressionFacts.

(* ================================================================== *)
(** ** Properties of the chat modal *)
(* ================================================================== *)

Module ChatModalProperties.
Import DoubleFacts HandlerFacts CompressionFacts.

(** *** File validation *)

Lemma eqbStr_eq a b : eqbStr a b = true <-> a = b.
Proof.
  unfold eqbStr. destruct (list_eq_dec N.eq_dec a b); split; congruence.
Qed.

Lemma includesStr_In l x : includesStr l x = true <-> In x l.
Proof.
  unfold includesStr. rewrite existsb_exists. split.
  - intros (y & Hin & Heq). apply eqbStr_eq in Heq. subst. assumption.
  - intros H. exists x. split; [assumption | apply eqbStr_eq; reflexivity].
Qed.

Lemma byteIs_nth a i v : byteIs a i v = true <-> nth_error a i = Some v.
Proof.
  unfold byteIs. destruct (nth_error a i) as [b|].
  - rewrite N.eqb_eq. split; congruence.
  - split; discriminate.
Qed.

(** C3.  [validateFile] resolves to false when the size exceeds
    10*1024*1024 bytes, when the MIME type is none of image/jpeg,
    image/jpg, image/png and image/webp, and when the leading bytes (the
    first 12, as the reader delivers them) match none of the three
    signatures; it resolves to true exactly when size and MIME type pass
    and at least one signature matches those bytes.  The signatures are
    JPEG: bytes 0-2 = FF D8 FF; PNG: bytes 0-3 = 89 50 4E 47; WEBP: bytes
    8-11 = 57 45 42 50. *)
Theorem validateFile_resolves : forall file,
  ((10 * 1024 * 1024 < size file)%N -> validateFile file = false) /\
  (~ In (type file) [str "image/jpeg"; str "image/jpg"; str "image/png";
                     str "image/webp"] -> validateFile file = false) /\
  ((forall header, readHeader file = Some header ->
      isJPEG header = false /\ isPNG header = false /\ isWEBP header = false) ->
   validateFile file = false) /\
  (validateFile file = true <->
   (size file <= 10 * 1024 * 1024)%N /\
   In (type file) [str "image/jpeg"; str "image/jpg"; str "image/png";
                   str "image/webp"] /\
   exists header,
     readHeader file = Some header /\
     (isJPEG header = true \/ isPNG header = true \/ isWEBP header = true)) /\
  (forall header, readHeader file = Some header ->
                  header = firstn 12 (bytes file)) /\
  (forall a,
     (isJPEG a = true <->
      nth_error a 0 = Some 0xFF%N /\ nth_error a 1 = Some 0xD8%N /\
      nth_error a 2 = Some 0xFF%N) /\
     (isPNG a = true <->
      nth_error a 0 = Some 0x89%N /\ nth_error a 1 = Some 0x50%N /\
      nth_error a 2 = Some 0x4E%N /\ nth_error a 3 = Some 0x47%N) /\
     (isWEBP a = true <->
      nth_error a 8 = Some 0x57%N /\ nth_error a 9 = Some 0x45%N /\
      nth_error a 10 = Some 0x42%N /\ nth_error a 11 = Some 0x50%N)).
Proof.
  intros file.
  change [str "image/jpeg"; str "image/jpg"; str "image/png"; str "image/webp"]
    with ALLOWED_MIME_TYPES.
  change (10 * 1024 * 1024)%N with MAX_FILE_SIZE.
  assert (Hiff : validateFile file = true <->
    (size file <= MAX_FILE_SIZE)%N /\ In (type file) ALLOWED_MIME_TYPES /\
    exists header,
      readHeader file = Some header /\
      (isJPEG header = true \/ isPNG header = true \/ isWEBP header = true)).
  { unfold validateFile.
    destruct (MAX_FILE_SIZE <? size file)%N eqn:Es.
    { apply N.ltb_lt in Es. split; [discriminate|]. intros [H _]. lia. }
    apply N.ltb_ge in Es.
    destruct (includesStr ALLOWED_MIME_TYPES (type file)) eqn:Em; cbn [negb].
    2:{ split; [discriminate|]. intros (_ & H & _).
        apply includesStr_In in H. congruence. }
    apply includesStr_In in Em.
    destruct (readHeader file) as [header|].
    2:{ split; [discriminate|]. intros (_ & _ & header & H & _). discriminate. }
    destruct (isJPEG header || isPNG header || isWEBP header) eqn:Eh.
    - split; [|reflexivity]. intros _. split; [assumption|].
      split; [assumption|]. exists header. split; [reflexivity|].
      apply orb_true_iff in Eh as [Eh|Eh]; [|auto].
      apply orb_true_iff in Eh as [Eh|Eh]; auto.
    - split; [discriminate|]. intros (_ & _ & header' & H & Hsig).
      injection H as <-.
      apply orb_false_iff in Eh as [Eh E3].
      apply orb_false_iff in Eh as [E1 E2].
      destruct Hsig as [Hs|[Hs|Hs]]; congruence. }
  assert (Hfalse : forall P : Prop,
            (validateFile file = true -> P -> False) -> P ->
            validateFile file = false).
  { intros P H HP. destruct (validateFile file); [|reflexivity].
    exfalso. apply H; auto. }
  split; [|split; [|split; [|split; [|split]]]].
  - apply Hfalse. intros Hv Hs. apply Hiff in Hv as [Hle _]. lia.
  - apply Hfalse. intros Hv Hn. apply Hiff in Hv as (_ & Hin & _). auto.
  - apply Hfalse. intros Hv Hn.
    apply Hiff in Hv as (_ & _ & header & Hr & Hsig).
    destruct (Hn header Hr) as (E1 & E2 & E3).
    destruct Hsig as [Hs|[Hs|Hs]]; congruence.
  - exact Hiff.
  - unfold readHeader. intros header H.
    destruct (readable file); [|discriminate]. congruence.
  - intros a. unfold isJPEG, isPNG, isWEBP.
    rewrite !andb_true_iff, !byteIs_nth. tauto.
Qed.

Lemma validateFile_resolves_witness :
  validateFile {| name := str "bag.jpg"; type := str "image/jpeg";
                  bytes := [0xFF; 0xD8; 0xFF; 0xE0; 0x00; 0x10]%N;
                  readable := true;
                  picture := Some {| imgWidth := 1200; imgHeight := 900 |} |}
  = true.
Proof.
  apply (proj2 (proj1 (proj2 (proj2 (proj2 (validateFile_resolves _)))))).
  split; [vm_compute; discriminate|].
  split; [left; reflexivity|].
  exists [0xFF; 0xD8; 0xFF; 0xE0; 0x00; 0x10]%N.
  split; [reflexivity | left; reflexivity].
Defined.

(** *** Compression *)

(** C4 (as amended).  For every picture that loads, with positive width and
    height: when the larger side exceeds 800 it becomes exactly 800 and the
    other one becomes height*800/width (when width > height) or
    width*800/height (otherwise) as doubles compute it: the exact quotient
    moved by at most its 2^-53th part.  The picture is drawn at that size;
    the canvas, whose sides are whole numbers, takes the integer part, which
    is the integer part of the exact quotient.  When the larger side is at
    most 800 both sides stay as they are.  The output is what the canvas
    gives for image/jpeg at quality 0.8; when neither side of the picture is
    more than 800 times the other, the canvas has pixels and that is the
    canvas serialised as asked. *)
Theorem compressImage_scales_to_800 : forall file img,
  picture file = Some img ->
  let w := imgWidth img in
  let h := imgHeight img in
  (0 < w < 2 ^ 32)%Z -> (0 < h < 2 ^ 32)%Z ->
  let out := drawScaled img in
  ((h < w)%Z -> (800 < w)%Z ->
     drawWidth out = inject_Z 800 /\
     (inject_Z (h * 800 * (2 ^ 53 - 1))
      <= drawHeight out * inject_Z (w * 2 ^ 53)
      <= inject_Z (h * 800 * (2 ^ 53 + 1)))%Q /\
     canvasWidth out = 800%Z /\ canvasHeight out = (h * 800 / w)%Z) /\
  ((w <= h)%Z -> (800 < h)%Z ->
     (inject_Z (w * 800 * (2 ^ 53 - 1))
      <= drawWidth out * inject_Z (h * 2 ^ 53)
      <= inject_Z (w * 800 * (2 ^ 53 + 1)))%Q /\
     drawHeight out = inject_Z 800 /\
     canvasWidth out = (w * 800 / h)%Z /\ canvasHeight out = 800%Z) /\
  ((Z.max w h <= 800)%Z ->
     drawWidth out = inject_Z w /\ drawHeight out = inject_Z h /\
     canvasWidth out = w /\ canvasHeight out = h) /\
  compressImage file = Some (toDataURL out (str "image/jpeg") (double 0.8)) /\
  ((w <= h * 800)%Z -> (h <= w * 800)%Z ->
     compressImage file
     = Some (Serialised (str "image/jpeg") (double 0.8) out)).
Proof.
  intros file img Hp w h Hw Hh out.
  destruct (canvas_sides img Hw Hh) as [Hcw Hch]. fold w h out in Hcw, Hch.
  assert (Hout : compressImage file
                 = Some (toDataURL out (str "image/jpeg") (double 0.8))).
  { unfold compressImage. rewrite Hp. reflexivity. }
  split; [|split; [|split; [|split]]].
  - intros Hlt Hbig.
    assert (E1 : (w <=? h)%Z = false) by (apply Z.leb_gt; assumption).
    assert (E2 : (h <? w)%Z = true) by (apply Z.ltb_lt; assumption).
    assert (E3 : (800 <? w)%Z = true) by (apply Z.ltb_lt; assumption).
    rewrite E1 in Hcw. rewrite E2, E3 in Hch. cbn [andb] in Hcw, Hch.
    subst out. unfold drawScaled in *.
    rewrite scaledSize_wide in * by assumption.
    cbn [drawWidth drawHeight canvasWidth canvasHeight] in *. fold w h.
    split; [reflexivity|]. split; [apply scaled_near; lia|].
    split; [lia | assumption].
  - intros Hle Hbig.
    assert (E1 : (w <=? h)%Z = true) by (apply Z.leb_le; assumption).
    assert (E2 : (h <? w)%Z = false) by (apply Z.ltb_ge; assumption).
    assert (E3 : (800 <? h)%Z = true) by (apply Z.ltb_lt; assumption).
    rewrite E1, E3 in Hcw. rewrite E2 in Hch. cbn [andb] in Hcw, Hch.
    subst out. unfold drawScaled in *.
    rewrite scaledSize_tall in * by assumption.
    cbn [drawWidth drawHeight canvasWidth canvasHeight] in *. fold w h.
    split; [apply scaled_near; lia|]. split; [reflexivity|].
    split; [assumption | lia].
  - intros Hmax. subst out. unfold drawScaled.
    rewrite scaledSize_small by assumption.
    cbn [drawWidth drawHeight canvasWidth canvasHeight]. fold w h.
    rewrite !toUnsignedLong_Z by lia. auto.
  - exact Hout.
  - intros H1 H2. rewrite Hout. unfold toDataURL.
    assert (Hpw : (1 <= canvasWidth out)%Z).
    { rewrite Hcw. destruct ((w <=? h)%Z && (800 <? h)%Z); [|lia].
      apply Z.div_le_lower_bound; lia. }
    assert (Hph : (1 <= canvasHeight out)%Z).
    { rewrite Hch. destruct ((h <? w)%Z && (800 <? w)%Z); [|lia].
      apply Z.div_le_lower_bound; lia. }
    assert (E1 : (canvasWidth out =? 0)%Z = false) by (apply Z.eqb_neq; lia).
    assert (E2 : (canvasHeight out =? 0)%Z = false) by (apply Z.eqb_neq; lia).
    rewrite E1, E2. reflexivity.
Qed.

Lemma compressImage_scales_to_800_witness :
  canvasWidth (drawScaled {| imgWidth := 1200; imgHeight := 900 |}) = 800%Z /\
  canvasHeight (drawScaled {| imgWidth := 1200; imgHeight := 900 |}) = 600%Z.
Proof.
  pose (img := {| imgWidth := 1200; imgHeight := 900 |}).
  pose (file := {| name := str "bag.jpg"; type := str "image/jpeg";
                   bytes := [0xFF; 0xD8; 0xFF]%N; readable := true;
                   picture := Some img |}).
  assert (Hw : (0 < imgWidth img < 2 ^ 32)%Z) by (cbn; lia).
  assert (Hh : (0 < imgHeight img < 2 ^ 32)%Z) by (cbn; lia).
  destruct (compressImage_scales_to_800 file img eq_refl Hw Hh) as (H & _).
  assert (H1 : (imgHeight img < imgWidth img)%Z) by reflexivity.
  assert (H2 : (800 < imgWidth img)%Z) by reflexivity.
  destruct (H H1 H2) as (_ & _ & Hcw & Hch).
  split; [exact Hcw | exact Hch].
Defined.

(** A picture of 1000 by 3 comes out as 800 by 2, drawn 800 wide and a
    little less than 2.4 high: neither is the ratio of the original.  A
    picture of 1 by 801 leaves a canvas without pixels, and what comes out
    is no JPEG. *)
Lemma compressImage_ratio_not_kept :
  canvasWidth (drawScaled {| imgWidth := 1000; imgHeight := 3 |}) = 800%Z /\
  canvasHeight (drawScaled {| imgWidth := 1000; imgHeight := 3 |}) = 2%Z /\
  (drawHeight (drawScaled {| imgWidth := 1000; imgHeight := 3 |})
   == 5404319552844595 # 2251799813685248)%Q /\
  ~ scaledBySameRatio {| imgWidth := 1000; imgHeight := 3 |} /\
  compressImage {| name := str "strip.png"; type := str "image/png";
                   bytes := [0x89; 0x50; 0x4E; 0x47]%N; readable := true;
                   picture := Some {| imgWidth := 1; imgHeight := 801 |} |}
  = Some NoPixels /\
  ~ alwaysJPEG {| name := str "strip.png"; type := str "image/png";
                  bytes := [0x89; 0x50; 0x4E; 0x47]%N; readable := true;
                  picture := Some {| imgWidth := 1; imgHeight := 801 |} |}.
Proof.
  split; [vm_compute; reflexivity|].
  split; [vm_compute; reflexivity|].
  split; [vm_compute; reflexivity|].
  split.
  { intros [H _]. cbv zeta in H.
    destruct (H eq_refl eq_refl) as [_ Hc].
    vm_compute in Hc. discriminate. }
  split; [vm_compute; reflexivity|].
  intros (canvas & H). vm_compute in H. discriminate.
Qed.

(** *** Sending *)

(** C5, where it fails.  A file with the header of a JPEG file that no
    decoder accepts passes [validateFile] and is uploaded without an alert.
    When the form is then submitted with an empty input, [compressImage]
    never resolves for it: the handler waits at [Promise.all] for ever,
    nothing is handed to [append], no timer is set, the form is not cleared
    and neither an alert nor the error banner says so, whatever promise
    settles or timer fires afterwards. *)
Lemma submit_waits_for_picture_that_never_loads :
  let corrupt := {| name := str "bag.jpg"; type := str "image/jpeg";
                    bytes := [0xFF; 0xD8; 0xFF; 0x00]%N; readable := true;
                    picture := None |} in
  let st := alone (FileSelect [corrupt]) initialState in
  let st1 := step Submit st in
  validateFile corrupt = true /\
  uploadedImages st = [corrupt] /\ alerts st = [] /\ awaiting st = [] /\
  trim (input st) = [] /\
  awaiting st1 = [Compressing [] [corrupt]] /\
  sent st1 = [] /\ timers st1 = [] /\ uploadedImages st1 = [corrupt] /\
  alerts st1 = [] /\ errorBanner st1 = None /\
  (forall events,
     (forall e, In e events -> e = TimersFire \/ exists k, e = Settle k) ->
     run events st1 = st1).
Proof.
  cbv zeta.
  split; [vm_compute; reflexivity|]. split; [vm_compute; reflexivity|].
  split; [vm_compute; reflexivity|]. split; [vm_compute; reflexivity|].
  split; [vm_compute; reflexivity|]. split; [vm_compute; reflexivity|].
  split; [vm_compute; reflexivity|]. split; [vm_compute; reflexivity|].
  split; [vm_compute; reflexivity|]. split; [vm_compute; reflexivity|].
  split; [vm_compute; reflexivity|].
  induction events as [|e events IH]; intros He; [reflexivity|].
  unfold run. cbn [fold_left].
  match goal with |- fold_left _ _ (step e ?s) = _ => set (st1 := s) end.
  assert (Hstep : step e st1 = st1).
  { destruct (He e (or_introl eq_refl)) as [->|[k ->]].
    - vm_compute. reflexivity.
    - destruct k as [|k]; [vm_compute; reflexivity|].
      apply settle_out_of_range. vm_compute. lia. }
  rewrite Hstep. apply IH. intros e' Hin. apply He. right. assumption.
Qed.

(** *** Uploading *)

(** C6, where it fails.  Three files are dropped, and three more while the
    first three are still being validated: either batch passes the check
    against the list as it was when it was dropped, and the list ends with
    six images and no alert.  Had the first batch come to its end before
    the second was dropped, the second would have been refused. *)
Lemma overlapping_uploads_exceed_5 :
  let png := fun n => {| name := str n; type := str "image/png";
                         bytes := [0x89; 0x50; 0x4E; 0x47]%N;
                         readable := true;
                         picture := Some {| imgWidth := 10; imgHeight := 10 |} |} in
  let first := [png "a.png"; png "b.png"; png "c.png"]%string in
  let second := [png "d.png"; png "e.png"; png "f.png"]%string in
  let st := run [Drop first; Drop second;
                 Settle 0; Settle 0; Settle 0;
                 Settle 0; Settle 0; Settle 0] initialState in
  uploadedImages st = first ++ second /\
  length (uploadedImages st) = 6 /\ alerts st = [] /\ awaiting st = [] /\
  uploadedImages (runEach [Drop first; Drop second] initialState) = first /\
  alerts (runEach [Drop first; Drop second] initialState) = [limitMessage].
Proof.
  cbv zeta.
  split; [vm_compute; reflexivity|]. split; [vm_compute; reflexivity|].
  split; [vm_compute; reflexivity|]. split; [vm_compute; reflexivity|].
  split; vm_compute; reflexivity.
Qed.

(** *** Failures *)

Lemma errorBanner_error a b : error a = error b -> errorBanner a = errorBanner b.
Proof. unfold errorBanner. intros ->. reflexivity. Qed.

Lemma addFiles_step dropped st :
  error (fst (addFiles dropped st)) = error st /\
  (alerts (fst (addFiles dropped st)) = alerts st \/
   alerts (fst (addFiles dropped st)) = alerts st ++ [limitMessage]).
Proof.
  unfold addFiles. destruct (MAX_FILES <? _).
  - cbn. auto.
  - destruct (filter _ dropped); cbn; auto.
Qed.

Lemma validating_step k files validFiles st :
  nth_error (awaiting st) k = Some (Validating files validFiles) ->
  error (settle k st) = error st /\
  (alerts (settle k st) = alerts st \/
   exists file, alerts (settle k st) = alerts st ++ [rejectedMessage file]).
Proof.
  intros Hk. unfold settle. rewrite Hk. cbn [resume].
  destruct files as [|file files].
  - rewrite addValidFiles_spec. cbn. auto.
  - unfold validated.
    destruct (validateFile file); destruct files as [|next files];
      rewrite ?addValidFiles_spec; cbn; eauto.
Qed.

(** C8 (as amended).  The failures of an upload (more than 5 files, a file
    that does not pass validation) are surfaced through [alert] dialogs and
    through nothing else: the error banner is left as it was, by the
    handler as a whole and by each of its steps, whatever happens between
    them.  The failure of a chat request raises no alert: it is surfaced
    through the error banner above the input, which then shows one of three
    fixed messages, chosen by whether the error message contains "429" or
    "503". *)
Theorem failures_alert_or_banner : forall st,
  (forall upload dropped,
     In upload [Drop; FileSelect] ->
     let files := filter allowedType dropped in
     errorBanner (alone (upload dropped) st) = errorBanner st /\
     alerts (alone (upload dropped) st)
       = alerts st ++
         (if 5 <? length (uploadedImages st) + length files
          then [limitMessage]
          else map rejectedMessage (filter isRejected files))) /\
  (forall e,
     (exists dropped, e = Drop dropped \/ e = FileSelect dropped) \/
     (exists k files validFiles,
        e = Settle k /\
        nth_error (awaiting st) k = Some (Validating files validFiles)) ->
     errorBanner (step e st) = errorBanner st /\
     (alerts (step e st) = alerts st \/
      alerts (step e st) = alerts st ++ [limitMessage] \/
      exists file, alerts (step e st) = alerts st ++ [rejectedMessage file])) /\
  (forall message,
     alerts (onError message st) = alerts st /\
     errorBanner (onError message st)
       = Some (if includes message (str "429") then tooManyRequests
               else if includes message (str "503") then serviceUnavailable
               else genericError)).
Proof.
  intros st. split; [|split].
  - intros upload dropped Hin files.
    destruct Hin as [<-|[<-|[]]];
      [rewrite alone_Drop | rewrite alone_FileSelect];
      cbv zeta; fold files; unfold MAX_FILES;
      cbn [setIsDragging uploadedImages];
      destruct (5 <? _); split; reflexivity.
  - intros e [(dropped & [->| ->])|(k & files & validFiles & -> & Hk)].
    + cbn [step]. unfold handleDrop.
      destruct (start_fields (addFiles dropped (setIsDragging false st)))
        as (_ & _ & He & _ & _ & _ & Ha).
      destruct (addFiles_step dropped (setIsDragging false st)) as [He' Ha'].
      rewrite (errorBanner_error _ st) by (rewrite He, He'; reflexivity).
      rewrite Ha. split; [reflexivity|]. destruct Ha' as [->| ->]; auto.
    + cbn [step]. unfold handleFileSelect.
      destruct (start_fields (addFiles dropped st))
        as (_ & _ & He & _ & _ & _ & Ha).
      destruct (addFiles_step dropped st) as [He' Ha'].
      rewrite (errorBanner_error _ st) by (rewrite He, He'; reflexivity).
      rewrite Ha. split; [reflexivity|]. destruct Ha' as [->| ->]; auto.
    + cbn [step].
      destruct (validating_step k files validFiles st Hk) as [He Ha].
      rewrite (errorBanner_error _ st) by assumption.
      split; [reflexivity|]. destruct Ha as [->|[file ->]]; eauto.
  - intros message. unfold onError, errorBanner.
    destruct (includes message (str "429")).
    { split; [reflexivity | vm_compute; reflexivity]. }
    destruct (includes message (str "503")).
    { split; [reflexivity | vm_compute; reflexivity]. }
    split; [reflexivity | vm_compute; reflexivity].
Qed.

Lemma failures_alert_or_banner_witness :
  errorBanner (onError (str "Request failed with status 503") initialState)
  = Some serviceUnavailable.
Proof.
  pose proof (proj2 (proj2 (failures_alert_or_banner initialState))
                (str "Request failed with status 503")) as [_ H].
  rewrite H. vm_compute. reflexivity.
Defined.

(** A chat request answered with status 429: no alert is raised, and the
    banner shows the message. *)
Lemma chat_error_shows_banner_without_alert :
  alerts (onError (str "429 Too Many Requests") initialState) = [] /\
  errorBanner (onError (str "429 Too Many Requests") initialState)
    = Some tooManyRequests /\
  errorBanner initialState = None /\
  ~ chatFailureOnlyAlerts.
Proof.
  split; [vm_compute; reflexivity|].
  split; [vm_compute; reflexivity|].
  split; [reflexivity|].
  intros H.
  destruct (H initialState (str "429 Too Many Requests")) as [Ha _].
  apply Ha. vm_compute. reflexivity.
Qed.

End ChatModalProperties.

(* ================================================================== *)
(** ** The order in which the matcher tries: greedy and lazy runs *)
(* ================================================================== *)

Module LazyFacts.
Import MatcherFacts PatternFacts.

Lemma Derives_noGroup fl r x y :
  Derives fl r x y -> noGroup r = true -> capture y = capture x.
Proof.
  induction 1; simpl; intros Hn;
    try apply andb_true_iff in Hn as [Hn1 Hn2];
    try discriminate; auto; try congruence.
  - rewrite IHDerives2, IHDerives1 by assumption. reflexivity.
  - rewrite IHDerives2, IHDerives1 by assumption. reflexivity.
  - rewrite IHDerives2, IHDerives1 by assumption. reflexivity.
Qed.

(** A literal reads the characters that canonicalize like its own. *)
Lemma compile_Lit_read fl r t cap c : forall l p,
  Forall2 (fun ch pc => Canonicalize fl ch = Canonicalize fl pc) l p ->
  compile fl (Seq (Lit p) r) {| rest := l ++ t; capture := cap |} c
  = compile fl r {| rest := t; capture := cap |} c.
Proof.
  unfold Lit. induction 1 as [|ch pc l p Hc _ IH]; cbn [map Cat compile app].
  - reflexivity.
  - unfold readChar. cbn [rest capture]. rewrite Hc, N.eqb_refl. exact IH.
Qed.

Lemma compile_Lit_exact fl r p t cap c :
  compile fl (Seq (Lit p) r) {| rest := p ++ t; capture := cap |} c
  = compile fl r {| rest := t; capture := cap |} c.
Proof.
  apply compile_Lit_read. induction p; constructor; auto.
Qed.

Lemma compile_Class_read fl k r ch t cap c :
  classTest fl k ch = true ->
  compile fl (Seq (Class k) r) {| rest := ch :: t; capture := cap |} c
  = compile fl r {| rest := t; capture := cap |} c.
Proof.
  intros H. cbn [compile]. unfold readChar. cbn [rest capture]. rewrite H.
  reflexivity.
Qed.

(** A greedy run in front of a continuation that succeeds behind the
    whole run reads the whole run. *)
Lemma RepeatMatcher_greedy_max P c : forall w r cap fuel z,
  forallb P w = true -> stopsAt P r -> length (w ++ r) < fuel ->
  c {| rest := r; capture := cap |} = Some z ->
  RepeatMatcher (readChar P) true c fuel {| rest := w ++ r; capture := cap |}
  = Some z.
Proof.
  induction w as [|a w IH]; intros r cap fuel z Hw Hr Hlen Hc;
    (destruct fuel as [|fuel]; [simpl in Hlen; lia|]); cbn [RepeatMatcher app].
  - unfold readChar at 1. cbn [rest].
    destruct r as [|ch t]; [assumption|]. simpl in Hr. rewrite Hr. assumption.
  - simpl in Hw. apply andb_true_iff in Hw as [Ha Hw].
    unfold readChar at 1. cbn [rest capture]. rewrite Ha.
    assert (E : Nat.eqb (length (w ++ r)) (length (a :: w ++ r)) = false)
      by (apply Nat.eqb_neq; simpl; lia).
    rewrite E. rewrite (IH r cap fuel z); auto. simpl in Hlen. lia.
Qed.

(** A lazy run stops at the first place where the continuation
    succeeds. *)
Lemma RepeatMatcher_lazy_first P c : forall b r cap fuel z,
  forallb P b = true -> length (b ++ r) < fuel ->
  c {| rest := r; capture := cap |} = Some z ->
  (forall b1 b2, b = b1 ++ b2 -> b2 <> [] ->
                 c {| rest := b2 ++ r; capture := cap |} = None) ->
  RepeatMatcher (readChar P) false c fuel {| rest := b ++ r; capture := cap |}
  = Some z.
Proof.
  induction b as [|a b IH]; intros r cap fuel z Hb Hlen Hc Hmin;
    (destruct fuel as [|fuel]; [simpl in Hlen; lia|]); cbn [RepeatMatcher app].
  - rewrite Hc. reflexivity.
  - assert (H0 : c {| rest := a :: b ++ r; capture := cap |} = None)
      by (apply (Hmin [] (a :: b) eq_refl); discriminate).
    rewrite H0. simpl in Hb. apply andb_true_iff in Hb as [Ha Hb].
    unfold readChar at 1. cbn [rest capture]. rewrite Ha.
    assert (E : Nat.eqb (length (b ++ r)) (length (a :: b ++ r)) = false)
      by (apply Nat.eqb_neq; simpl; lia).
    rewrite E. apply IH; auto.
    + simpl in Hlen. lia.
    + intros b1 b2 -> Hne. apply (Hmin (a :: b1) b2); auto.
Qed.

Lemma compile_Star_max fl k r w t cap c z :
  forallb (classTest fl k) w = true -> stopsAt (classTest fl k) t ->
  compile fl r {| rest := t; capture := cap |} c = Some z ->
  compile fl (Seq (Star true (Class k)) r)
          {| rest := w ++ t; capture := cap |} c = Some z.
Proof.
  intros Hw Ht Hc. cbn [compile rest].
  apply (RepeatMatcher_greedy_max (classTest fl k)
           (fun y => compile fl r y c)); auto.
Qed.

Lemma compile_Plus_max fl k r w t cap c z :
  w <> [] ->
  forallb (classTest fl k) w = true -> stopsAt (classTest fl k) t ->
  compile fl r {| rest := t; capture := cap |} c = Some z ->
  compile fl (Seq (Plus true (Class k)) r)
          {| rest := w ++ t; capture := cap |} c = Some z.
Proof.
  intros Hne Hw Ht Hc. destruct w as [|a w]; [contradiction|].
  simpl in Hw. apply andb_true_iff in Hw as [Ha Hw].
  cbn [compile app]. unfold readChar at 1. cbn [rest capture]. rewrite Ha.
  apply (RepeatMatcher_greedy_max (classTest fl k)
           (fun y => compile fl r y c)); auto.
Qed.

(** The group around a lazy run captures the shortest run behind which
    the rest of the pattern matches. *)
Lemma compile_GroupLazy_first fl k r b post cap c z :
  forallb (classTest fl k) b = true ->
  compile fl r {| rest := post; capture := Some b |} c = Some z ->
  (forall b1 b2, b = b1 ++ b2 -> b2 <> [] ->
     compile fl r {| rest := b2 ++ post; capture := Some b1 |} c = None) ->
  compile fl (Seq (Group (Star false (Class k))) r)
          {| rest := b ++ post; capture := cap |} c = Some z.
Proof.
  intros Hb Hc Hmin. cbn [compile rest].
  apply (RepeatMatcher_lazy_first (classTest fl k)
           (fun y => compile fl r
                       {| rest := rest y;
                          capture := Some (firstn (length (b ++ post)
                                                   - length (rest y))
                                                  (b ++ post)) |} c)); auto.
  - cbn [rest]. rewrite firstn_consumed. assumption.
  - intros b1 b2 -> Hne. cbn [rest]. rewrite <- app_assoc.
    rewrite firstn_consumed. apply Hmin; auto.
Qed.

(** The group around a greedy run, in front of a rest of the pattern that
    matches behind the whole run. *)
Lemma compile_GroupPlus_max fl k r w t cap c z :
  w <> [] ->
  forallb (classTest fl k) w = true -> stopsAt (classTest fl k) t ->
  compile fl r {| rest := t; capture := Some w |} c = Some z ->
  compile fl (Seq (Group (Plus true (Class k))) r)
          {| rest := w ++ t; capture := cap |} c = Some z.
Proof.
  intros Hne Hw Ht Hc. destruct w as [|a w]; [contradiction|].
  pose proof Hw as Hw'. simpl in Hw'. apply andb_true_iff in Hw' as [Ha Hw'].
  cbn [compile]. unfold readChar at 1. cbn [rest capture app]. rewrite Ha.
  apply (RepeatMatcher_greedy_max (classTest fl k)
           (fun y => compile fl r
                       {| rest := rest y;
                          capture := Some (firstn (length (a :: w ++ t)
                                                   - length (rest y))
                                                  (a :: w ++ t)) |} c));
    auto.
  cbn [rest]. change (a :: w ++ t) with ((a :: w) ++ t).
  rewrite firstn_consumed. assumption.
Qed.

(** A lookahead without a group, last in its pattern. *)
Lemma compile_Lookahead_holds fl a x :
  noGroup a = true ->
  (exists y, Derives fl a x y) ->
  compile fl (Seq (Lookahead a) Empty) x (fun y => Some y) = Some x.
Proof.
  intros Hn [y Hd]. cbn [compile].
  destruct (compile fl a x (fun y0 => Some y0)) as [y'|] eqn:E.
  - apply compile_sound in E as (y'' & Hd' & Hy). inversion Hy; subst.
    rewrite (Derives_noGroup _ _ _ _ Hd' Hn). rewrite <- state_eta.
    reflexivity.
  - exfalso. revert E.
    eapply compile_complete; [eassumption | reflexivity | discriminate].
Qed.

Lemma compile_Lookahead_fails fl a x :
  (forall y, ~ Derives fl a x y) ->
  compile fl (Seq (Lookahead a) Empty) x (fun y => Some y) = None.
Proof.
  intros Hd. cbn [compile].
  destruct (compile fl a x (fun y0 => Some y0)) as [y'|] eqn:E; [|reflexivity].
  apply compile_sound in E as (y'' & Hd' & _). exfalso. eapply Hd; eauto.
Qed.

End LazyFacts.

(* ================================================================== *)
(** ** Where a body stops: the lookaheads *)
(* ================================================================== *)

Module BodyFacts.
Import MatcherFacts PatternFacts RoastLevelFacts SectionFacts LazyFacts.

Lemma Derives_Alt_inv fl a b x y :
  Derives fl (Alt a b) x y <-> Derives fl a x y \/ Derives fl b x y.
Proof.
  split.
  - intros H. inversion H; subst; auto.
  - intros [H|H]; [apply D_AltL | apply D_AltR]; assumption.
Qed.

Lemma Derives_EndOfInput_inv fl x y :
  Derives fl EndOfInput x y <-> rest x = [] /\ y = x.
Proof.
  split.
  - intros H. inversion H; subst. auto.
  - intros [Hr ->]. rewrite (state_eta x), Hr. constructor.
Qed.

Lemma Cat_Char_step fl p rs t cap z :
  Derives fl (Cat (Char p :: rs)) {| rest := t; capture := cap |} z <->
  exists ch t',
    t = ch :: t' /\ Canonicalize fl ch = Canonicalize fl p /\
    Derives fl (Cat rs) {| rest := t'; capture := cap |} z.
Proof.
  cbn [Cat]. rewrite Derives_Seq_inv. split.
  - intros (y & Hc & Hr). inversion Hc; subst. eauto.
  - intros (ch & t' & -> & Hc & Hr).
    exists {| rest := t'; capture := cap |}. split; [|assumption].
    constructor. assumption.
Qed.

Lemma Cat_Class_step fl k rs t cap z :
  Derives fl (Cat (Class k :: rs)) {| rest := t; capture := cap |} z <->
  exists ch t',
    t = ch :: t' /\ classTest fl k ch = true /\
    Derives fl (Cat rs) {| rest := t'; capture := cap |} z.
Proof.
  cbn [Cat]. rewrite Derives_Seq_inv. split.
  - intros (y & Hc & Hr). inversion Hc; subst. eauto.
  - intros (ch & t' & -> & Hc & Hr).
    exists {| rest := t'; capture := cap |}. split; [|assumption].
    constructor. assumption.
Qed.

Lemma exact_char ch p :
  Canonicalize flagsS ch = Canonicalize flagsS p -> ch = p.
Proof. exact (fun H => H). Qed.

(** The lookahead of the section pattern holds exactly where a section
    ends. *)
Lemma sectionStop_Derives r cap :
  (exists y, Derives flagsS sectionStop {| rest := r; capture := cap |} y)
  <-> SectionEnd r.
Proof.
  unfold sectionStop, SectionEnd, newline, upper, lower, ws1. split.
  - intros [y H]. apply Derives_Alt_inv in H as [H|H].
    + right; left.
      apply Cat_Char_step in H as (c1 & t1 & -> & E1 & H).
      apply Cat_Char_step in H as (c2 & t2 & -> & E2 & H).
      apply Cat_Class_step in H as (U & t3 & -> & EU & _).
      apply exact_char in E1, E2. subst. exists U, t3.
      split; [reflexivity | exact EU].
    + apply Derives_Alt_inv in H as [H|H].
      * right; right.
        apply Cat_Char_step in H as (c1 & t1 & -> & E1 & H).
        apply Cat_Class_step in H as (U & t2 & -> & EU & H).
        apply Cat_Plus_step in H as (lows & t3 & Hne & -> & Hl & H).
        apply Cat_Plus_step in H as (ws & t4 & Hne' & -> & Hw & H).
        apply Cat_Class_step in H as (U' & t5 & -> & EU' & _).
        apply exact_char in E1. subst.
        exists U, lows, ws, U', t5.
        split; [reflexivity|]. split; [exact EU|]. split; [exact Hne|].
        split; [exact Hl|]. split; [exact Hne'|]. split; [exact Hw|].
        exact EU'.
      * left. apply Derives_EndOfInput_inv in H as [H _]. assumption.
  - intros [->|[(U & t & -> & HU)|(U & lows & ws & U' & t & -> & HU & Hne & Hl
                                   & Hne' & Hw & HU')]].
    + eexists. apply D_AltR, D_AltR. constructor.
    + eexists. apply D_AltL.
      apply Cat_Char_step. eexists _, _. split; [reflexivity|].
      split; [reflexivity|].
      apply Cat_Char_step. eexists _, _. split; [reflexivity|].
      split; [reflexivity|].
      apply Cat_Class_step. eexists _, _. split; [reflexivity|].
      split; [exact HU|]. apply Cat_nil_step. reflexivity.
    + eexists. apply D_AltR, D_AltL.
      apply Cat_Char_step. eexists _, _. split; [reflexivity|].
      split; [reflexivity|].
      apply Cat_Class_step. eexists _, _. split; [reflexivity|].
      split; [exact HU|].
      apply Cat_Plus_step. eexists _, _. split; [exact Hne|].
      split; [reflexivity|]. split; [exact Hl|].
      apply Cat_Plus_step. eexists _, _. split; [exact Hne'|].
      split; [reflexivity|]. split; [exact Hw|].
      apply Cat_Class_step. eexists _, _. split; [reflexivity|].
      split; [exact HU'|]. apply Cat_nil_step. reflexivity.
Qed.

Lemma overviewStop_Derives r cap :
  (exists y, Derives flagsS overviewStop {| rest := r; capture := cap |} y)
  <-> OverviewEnd r.
Proof.
  unfold overviewStop, OverviewEnd, newline, upper. split.
  - intros [y H]. apply Derives_Alt_inv in H as [H|H].
    + right; left.
      apply Derives_Seq_inv in H as (m & H1 & H2).
      inversion H1; subst. inversion H2; subst.
      match goal with
      | A : Canonicalize _ _ = _, B : Canonicalize _ _ = _ |- _ =>
        apply exact_char in A, B; subst
      end. eauto.
    + apply Derives_Alt_inv in H as [H|H].
      * right; right.
        apply Derives_Seq_inv in H as (m & H1 & H2).
        inversion H1; subst. inversion H2; subst.
        match goal with
        | A : Canonicalize _ _ = _ |- _ => apply exact_char in A; subst
        end. eauto.
      * left. apply Derives_EndOfInput_inv in H as [H _]. assumption.
  - intros [->|[(t & ->)|(U & t & -> & HU)]].
    + eexists. apply D_AltR, D_AltR. constructor.
    + eexists. apply D_AltL. eapply D_Seq; constructor; reflexivity.
    + eexists. apply D_AltR, D_AltL. eapply D_Seq; constructor;
        [reflexivity | exact HU].
Qed.

(** Whether an end stands at [r] can be decided: the matcher does. *)
Lemma Derives_dec fl a x :
  (exists y, Derives fl a x y) \/ (forall y, ~ Derives fl a x y).
Proof.
  destruct (compile fl a x (fun y => Some y)) as [y|] eqn:E.
  - left. apply compile_sound in E as (y' & Hd & _). eauto.
  - right. intros y Hd. revert E.
    eapply compile_complete; [eassumption | reflexivity | discriminate].
Qed.

Lemma shortest_exists (End : JSString -> Prop) :
  End [] -> (forall r, End r \/ ~ End r) ->
  forall r, exists body post, r = body ++ post /\ ShortestBefore End body post.
Proof.
  intros Hnil Hdec. induction r as [|c r IH].
  - exists [], []. split; [reflexivity|]. split; [assumption|].
    intros b1 b2 H. symmetry in H. apply app_eq_nil in H as [_ ->].
    intros F; contradiction.
  - destruct (Hdec (c :: r)) as [He|Hn].
    + exists [], (c :: r). split; [reflexivity|]. split; [assumption|].
      intros b1 b2 H. symmetry in H. apply app_eq_nil in H as [_ ->].
      intros F; contradiction.
    + destruct IH as (body & post & -> & Hend & Hmin).
      exists (c :: body), post. split; [reflexivity|]. split; [assumption|].
      intros [|c' b1] b2 H Hne.
      * simpl in H. subst b2. exact Hn.
      * simpl in H. inversion H; subst. apply (Hmin b1 b2); auto.
Qed.

Lemma span_exists (P : CodeUnit -> bool) : forall l,
  exists w r, l = w ++ r /\ forallb P w = true /\ stopsAt P r.
Proof.
  induction l as [|c l (w & r & -> & Hw & Hr)].
  - exists [], []. simpl. auto.
  - destruct (P c) eqn:E.
    + exists (c :: w), r. simpl. rewrite E, Hw. auto.
    + exists [], (c :: w ++ r). simpl. auto.
Qed.

Lemma SectionEnd_dec r : SectionEnd r \/ ~ SectionEnd r.
Proof.
  destruct (Derives_dec flagsS sectionStop {| rest := r; capture := None |})
    as [H|H].
  - left. apply (sectionStop_Derives r None). assumption.
  - right. intros He. apply (sectionStop_Derives r None) in He as [y Hy].
    apply (H y Hy).
Qed.

Lemma OverviewEnd_dec r : OverviewEnd r \/ ~ OverviewEnd r.
Proof.
  destruct (Derives_dec flagsS overviewStop {| rest := r; capture := None |})
    as [H|H].
  - left. apply (overviewStop_Derives r None). assumption.
  - right. intros He. apply (overviewStop_Derives r None) in He as [y Hy].
    apply (H y Hy).
Qed.

(** The tail shared by the section pattern and the overview pattern: the
    body, lazily, up to the lookahead. *)
Lemma body_compile stop (End : JSString -> Prop) body post cap :
  noGroup stop = true ->
  (forall r c, (exists y, Derives flagsS stop {| rest := r; capture := c |} y)
               <-> End r) ->
  ShortestBefore End body post ->
  compile flagsS (Cat [Group (Star false (Class ClassDot)); Lookahead stop])
          {| rest := body ++ post; capture := cap |} (fun y => Some y)
  = Some {| rest := post; capture := Some body |}.
Proof.
  intros Hn Hstop [Hend Hmin]. cbn [Cat].
  apply compile_GroupLazy_first.
  - apply forallb_dot_s.
  - apply compile_Lookahead_holds; [assumption|]. apply Hstop. assumption.
  - intros b1 b2 Hb Hne. apply compile_Lookahead_fails.
    intros y Hd. apply (Hmin b1 b2 Hb Hne). apply (Hstop _ (Some b1)). eauto.
Qed.

Lemma sectionRegex_source name :
  source (sectionRegex name)
  = Cat [Lit name; ws1; Group (Star false (Class ClassDot));
         Lookahead sectionStop].
Proof. reflexivity. Qed.

Lemma expertRegex_source :
  source expertRegex
  = Cat [Lit (str "Expert"); ws0; Lit (str "Overview"); ws0;
         Group (Star false (Class ClassDot)); Lookahead overviewStop].
Proof. reflexivity. Qed.

Lemma section_matchAt name w body post :
  w <> [] -> allWhiteSpace w -> stopsAt isWhiteSpace (body ++ post) ->
  ShortestBefore SectionEnd body post ->
  matchAt (sectionRegex name) (name ++ w ++ body ++ post)
  = Some {| rest := post; capture := Some body |}.
Proof.
  intros Hne Hw Hstop Hmin. unfold matchAt, sectionRegex.
  cbn [source flags]. change (Cat (Lit name :: ?rs)) with (Seq (Lit name) (Cat rs)).
  rewrite compile_Lit_exact.
  unfold ws1.
  change (Cat (Plus true (Class ClassSpace) :: ?rs))
    with (Seq (Plus true (Class ClassSpace)) (Cat rs)).
  apply compile_Plus_max; try assumption.
  apply (body_compile sectionStop SectionEnd); auto.
  apply sectionStop_Derives.
Qed.

End BodyFacts.

(* ================================================================== *)
(** ** The first position that has a match *)
(* ================================================================== *)

Module SearchFacts.
Import MatcherFacts RoastLevelFacts.

(** The search returns the match at the first position that has one. *)
Lemma exec_first_match re pre t y :
  global (flags re) = false -> sticky (flags re) = false ->
  matchAt re t = Some y ->
  (forall j, j < length pre -> matchAt re (skipn j (pre ++ t)) = None) ->
  exec re (pre ++ t)
  = Some {| index := length pre;
            matched := firstn (length t - length (rest y)) t;
            group1 := capture y |}.
Proof.
  intros Hg Hs Hm Hfirst. rewrite exec_plain by assumption.
  rewrite (execFrom_first re (pre ++ t) 0 (length pre) y).
  - rewrite skipn_prefix. reflexivity.
  - rewrite skipn_prefix. assumption.
  - assumption.
  - rewrite length_app. lia.
Qed.

Section FirstOccurrence.
Variable re : RegExpObject.
Variable P : JSString -> Prop.
Hypothesis plain_g : global (flags re) = false.
Hypothesis plain_y : sticky (flags re) = false.
Hypothesis starts :
  forall t, matchAt re t <> None <-> exists u t', t = u ++ t' /\ P u.

Lemma exec_none_StandsAt s :
  exec re s = None <-> forall pre, ~ StandsAt P s pre.
Proof.
  rewrite exec_plain by assumption. split.
  - intros H pre (u & t & -> & Hu).
    pose proof (execFrom_none _ _ _ H (length pre)) as Hn.
    rewrite skipn_prefix in Hn. revert Hn. apply starts. eauto.
  - intros H. destruct (execFrom re 0 s) as [m|] eqn:E; [|reflexivity].
    exfalso. apply execFrom_some in E as (k & y & _ & Hk & Hm & _).
    assert (Hs : matchAt re (skipn k s) <> None) by congruence.
    apply starts in Hs as (u & t' & Ht & Hu).
    destruct (skipn_split s k Hk) as (pre & Hpre & _).
    apply (H pre). exists u, t'. rewrite <- Ht. auto.
Qed.

Lemma FirstAt_exists s pre0 :
  StandsAt P s pre0 -> exists pre, FirstAt P s pre.
Proof.
  intros Hocc. destruct (exec re s) as [m|] eqn:E.
  - rewrite exec_plain in E by assumption.
    apply execFrom_some in E as (k & y & _ & Hk & Hm & _ & _ & Hfirst).
    assert (Hs : matchAt re (skipn k s) <> None) by congruence.
    apply starts in Hs as (u & t' & Ht & Hu).
    destruct (skipn_split s k Hk) as (pre & Hpre & Hlen).
    exists pre. split.
    + exists u, t'. rewrite <- Ht. auto.
    + intros pre' (u' & t & Hs & Hu').
      destruct (Nat.le_gt_cases (length pre) (length pre')) as [|Hlt];
        [assumption|].
      exfalso. rewrite Hlen in Hlt. pose proof (Hfirst _ Hlt) as Hn.
      rewrite Hs, skipn_prefix in Hn. revert Hn. apply starts. eauto.
  - exfalso. apply (proj1 (exec_none_StandsAt s) E pre0). assumption.
Qed.

Lemma none_before_FirstAt s pre :
  FirstAt P s pre ->
  forall j, j < length pre -> matchAt re (skipn j s) = None.
Proof.
  intros [(u & t & Hs & _) Hfirst] j Hj.
  destruct (matchAt re (skipn j s)) as [y|] eqn:E; [|reflexivity].
  exfalso.
  assert (Hm : matchAt re (skipn j s) <> None) by congruence.
  apply starts in Hm as (u' & t' & Ht & Hu').
  assert (Hle : j <= length s) by (rewrite Hs, length_app; lia).
  destruct (skipn_split s j Hle) as (pre' & Hpre & Hlen).
  rewrite Ht in Hpre.
  assert (Hst : StandsAt P s pre') by (exists u', t'; auto).
  pose proof (Hfirst pre' Hst). lia.
Qed.

(** The result of the search, from the match at the first position. *)
Lemma exec_FirstAt s pre t y :
  s = pre ++ t -> FirstAt P s pre -> matchAt re t = Some y ->
  exec re s
  = Some {| index := length pre;
            matched := firstn (length t - length (rest y)) t;
            group1 := capture y |}.
Proof.
  intros Hs Hfirst Hm. pose proof (none_before_FirstAt s pre Hfirst) as Hb.
  subst s. apply exec_first_match; assumption.
Qed.

(** A result of the search is the match at the first position that has
    one. *)
Lemma exec_some_FirstAt s m :
  exec re s = Some m ->
  exists pre t y,
    s = pre ++ t /\ matchAt re t = Some y /\ FirstAt P s pre /\
    index m = length pre /\ group1 m = capture y.
Proof.
  rewrite exec_plain by assumption. intros E.
  apply execFrom_some in E as (k & y & Hi & Hk & Hm & Hg & _ & Hfirst).
  destruct (skipn_split s k Hk) as (pre & Hpre & Hlen).
  assert (Hs : matchAt re (skipn k s) <> None) by congruence.
  apply starts in Hs as (u & t' & Ht & Hu).
  exists pre, (skipn k s), y.
  split; [assumption|]. split; [assumption|]. split; [|split].
  - split.
    + exists u, t'. rewrite <- Ht. auto.
    + intros pre' (u' & t & Hs' & Hu').
      destruct (Nat.le_gt_cases (length pre) (length pre')) as [|Hlt];
        [assumption|].
      exfalso. rewrite Hlen in Hlt. pose proof (Hfirst _ Hlt) as Hn.
      rewrite Hs', skipn_prefix in Hn. revert Hn. apply starts. eauto.
  - simpl in Hi. congruence.
  - assumption.
Qed.

End FirstOccurrence.

End SearchFacts.

(* ================================================================== *)
(** ** extractSection: the body it returns *)
(* ================================================================== *)

Module SectionBodyFacts.
Import MatcherFacts PatternFacts RoastLevelFacts SectionFacts LazyFacts BodyFacts
       SearchFacts.

Lemma section_none_before s name pre :
  FirstHeading s name pre ->
  forall j, j < length pre -> matchAt (sectionRegex name) (skipn j s) = None.
Proof.
  intros [(c & t & Hs & _) Hfirst] j Hj. apply matchAt_none.
  intros cap after Hm.
  apply section_MatchesAt_sound in Hm as (w & t' & Ht & Hw).
  assert (Hle : j <= length s) by (rewrite Hs, length_app; lia).
  destruct (skipn_split s j Hle) as (pre' & Hpre & Hlen).
  rewrite Ht in Hpre.
  pose proof (Hfirst pre' w t' Hpre Hw). lia.
Qed.

Lemma extractSection_parts s name pre w body post :
  SectionParts s name pre w body post -> extractSection s name = trim body.
Proof.
  intros (Hs & Hfirst & Hne & Hw & Hstop & Hmin).
  pose proof (section_none_before s name pre Hfirst) as Hbefore.
  unfold extractSection. subst s.
  rewrite (exec_first_match (sectionRegex name) pre
             (name ++ w ++ body ++ post)
             {| rest := post; capture := Some body |});
    [reflexivity | reflexivity | reflexivity | | assumption].
  apply section_matchAt; assumption.
Qed.

Lemma FirstHeading_exists s name :
  HeadingOccurs s name -> exists pre, FirstHeading s name pre.
Proof.
  intros Hocc.
  destruct (exec (sectionRegex name) s) as [m|] eqn:E.
  - rewrite exec_plain in E by reflexivity.
    apply execFrom_some in E as (k & y & _ & Hk & Hm & _ & _ & Hfirst).
    pose proof Hm as Hm'. apply matchAt_sound in Hm'.
    assert (Hd : MatchesAt (sectionRegex name) (skipn k s) (capture y) (rest y)).
    { unfold MatchesAt. rewrite <- state_eta. assumption. }
    apply section_MatchesAt_sound in Hd as (w & t' & Ht & Hw).
    destruct (skipn_split s k Hk) as (pre & Hpre & Hlen).
    exists pre. split.
    + exists w, t'. rewrite <- Ht. auto.
    + intros pre' c t Hs Hc.
      destruct (Nat.le_gt_cases (length pre) (length pre')) as [|Hlt];
        [assumption|].
      exfalso. rewrite Hlen in Hlt. pose proof (Hfirst _ Hlt) as Hn.
      rewrite Hs, skipn_prefix in Hn. revert Hn.
      eapply matchAt_complete. apply section_MatchesAt_complete. assumption.
  - exfalso. apply exec_section_none in E. contradiction.
Qed.

Lemma SectionParts_exist s name :
  HeadingOccurs s name -> exists pre w body post, SectionParts s name pre w body post.
Proof.
  intros Hocc. destruct (FirstHeading_exists s name Hocc) as (pre & Hfirst).
  destruct Hfirst as [(c & t & Hs & Hc) Hmin].
  destruct (span_exists isWhiteSpace (c :: t)) as (w & r & Hwr & Hw & Hr).
  destruct (shortest_exists SectionEnd (or_introl eq_refl) SectionEnd_dec r)
    as (body & post & -> & Hshort).
  exists pre, w, body, post. split; [rewrite Hs, Hwr; reflexivity|].
  split; [split; [exists c, t; auto | assumption]|].
  split.
  { intros ->. simpl in Hwr. rewrite <- Hwr in Hr. simpl in Hr. congruence. }
  auto.
Qed.

End SectionBodyFacts.

(* ================================================================== *)
(** ** The expert overview *)
(* ================================================================== *)

Module OverviewFacts.
Import MatcherFacts PatternFacts RoastLevelFacts SectionFacts LazyFacts BodyFacts
       SearchFacts.

Lemma str_Overview : str "Overview" = 0x4F%N :: str "verview".
Proof. reflexivity. Qed.

Lemma expert_matchAt w1 w body post :
  allWhiteSpace w1 -> allWhiteSpace w ->
  stopsAt isWhiteSpace (body ++ post) ->
  ShortestBefore OverviewEnd body post ->
  matchAt expertRegex
    (str "Expert" ++ w1 ++ str "Overview" ++ w ++ body ++ post)
  = Some {| rest := post; capture := Some body |}.
Proof.
  intros Hw1 Hw Hstop Hmin. unfold matchAt, expertRegex.
  cbn [source flags].
  change (Cat (Lit ?p :: ?rs)) with (Seq (Lit p) (Cat rs)).
  rewrite compile_Lit_exact.
  unfold ws0 at 1.
  change (Cat (Star true (Class ClassSpace) :: ?rs))
    with (Seq (Star true (Class ClassSpace)) (Cat rs)).
  apply compile_Star_max; [assumption | rewrite str_Overview; reflexivity |].
  change (Cat (Lit ?p :: ?rs)) with (Seq (Lit p) (Cat rs)).
  rewrite compile_Lit_exact.
  unfold ws0.
  change (Cat (Star true (Class ClassSpace) :: ?rs))
    with (Seq (Star true (Class ClassSpace)) (Cat rs)).
  apply compile_Star_max; [assumption | assumption |].
  apply (body_compile overviewStop OverviewEnd); auto.
  apply overviewStop_Derives.
Qed.

Lemma expert_starts t :
  matchAt expertRegex t <> None <->
  exists u t', t = u ++ t' /\ OverviewHeading u.
Proof.
  split.
  - intros H. destruct (matchAt expertRegex t) as [y|] eqn:E; [|contradiction].
    apply matchAt_sound in E. unfold expertRegex, ws0 in E.
    cbn [source flags] in E.
    apply Cat_Lit_step in E as (l1 & t1 & -> & F1 & E).
    apply Cat_Star_step in E as (w1 & t2 & -> & A1 & E).
    apply Cat_Lit_step in E as (l2 & t3 & -> & F2 & _).
    apply Forall2_exact in F1, F2. subst.
    exists (str "Expert" ++ w1 ++ str "Overview"), t3.
    split; [repeat rewrite <- app_assoc; reflexivity|].
    exists w1. split; [reflexivity | exact A1].
  - intros (u & t' & -> & (w1 & -> & Hw1)).
    destruct (span_exists isWhiteSpace t') as (w & r & -> & Hw & Hr).
    destruct (shortest_exists OverviewEnd (or_introl eq_refl) OverviewEnd_dec r)
      as (body & post & -> & Hshort).
    repeat rewrite <- app_assoc.
    rewrite (expert_matchAt w1 w body post); auto. discriminate.
Qed.

Lemma OverviewParts_exist s pre0 :
  StandsAt OverviewHeading s pre0 ->
  exists pre u w body post, OverviewParts s pre u w body post.
Proof.
  intros Hocc.
  destruct (FirstAt_exists expertRegex OverviewHeading eq_refl eq_refl
              expert_starts s pre0 Hocc) as (pre & Hfirst).
  pose proof Hfirst as [(u & t & Hs & Hu) _].
  destruct (span_exists isWhiteSpace t) as (w & r & -> & Hw & Hr).
  destruct (shortest_exists OverviewEnd (or_introl eq_refl) OverviewEnd_dec r)
    as (body & post & -> & Hshort).
  exists pre, u, w, body, post.
  split; [assumption|]. split; [assumption|]. split; [assumption|].
  split; [assumption|]. split; assumption.
Qed.

Lemma expertOverview_parts s pre u w body post :
  OverviewParts s pre u w body post ->
  expertOverview (parseAnalysis s) = Some (trim body).
Proof.
  intros (Hs & (w1 & -> & Hw1) & Hfirst & Hw & Hstop & Hmin).
  change (expertOverview (parseAnalysis s))
    with (match exec expertRegex s with
          | Some m => Some (trim (capture1 m))
          | None => None
          end).
  rewrite (exec_FirstAt expertRegex OverviewHeading eq_refl eq_refl
             expert_starts s pre
             (str "Expert" ++ w1 ++ str "Overview" ++ w ++ body ++ post)
             {| rest := post; capture := Some body |}).
  - reflexivity.
  - rewrite Hs. repeat rewrite <- app_assoc. reflexivity.
  - assumption.
  - apply expert_matchAt; assumption.
Qed.

Lemma CoffeeProductView_overview p v :
  CoffeeProductView p = Some v ->
  overviewText v
  = orElse (expertOverview (parseAnalysis (analysis p))) overviewPlaceholder.
Proof.
  unfold CoffeeProductView. destruct (isOpen p); cbn [negb]; [|discriminate].
  intros H. injection H as <-. cbn [overviewText].
  unfold overviewPlaceholder. reflexivity.
Qed.

End OverviewFacts.

(* ================================================================== *)
(** ** The tasting notes and the roast scale *)
(* ================================================================== *)

Module TastingFacts.
Import MatcherFacts PatternFacts RoastLevelFacts SectionFacts LabelFacts
       LazyFacts SearchFacts.

Lemma tasting_MatchesAt t cap after :
  MatchesAt tastingRegex t cap after <->
  exists u text, t = u ++ after /\ TranslationLine u text /\ cap = Some text.
Proof.
  unfold MatchesAt, tastingRegex, ws0. cbn [source flags]. split.
  - intros H.
    apply Cat_Lit_step in H as (l1 & t1 & -> & F1 & H).
    apply Cat_Star_step in H as (w1 & t2 & -> & A1 & H).
    apply Cat_Lit_step in H as (l2 & t3 & -> & F2 & H).
    apply Cat_Star_step in H as (w2 & t4 & -> & A2 & H).
    apply Cat_GroupPlus_step in H as (text & t5 & Hne & -> & Ad & H).
    apply Cat_nil_step in H. inversion H; subst; clear H.
    apply Forall2_sameIgnoringCase in F1, F2.
    rewrite (forallb_ext_eq _ _ _ classTest_space_i) in A1.
    rewrite (forallb_ext_eq _ _ _ classTest_space_i) in A2.
    exists (l1 ++ w1 ++ l2 ++ w2 ++ text), text.
    split; [|split; [|reflexivity]].
    + repeat rewrite <- app_assoc. reflexivity.
    + exists l1, w1, l2, w2. repeat split; assumption.
  - intros (u & text & -> & (l1 & w1 & l2 & w2 & -> & F1 & A1 & F2 & A2
                            & Hne & Ad) & ->).
    repeat rewrite <- app_assoc.
    apply Cat_Lit_step. eexists _, _. split; [reflexivity|].
    split; [apply Forall2_sameIgnoringCase; assumption|].
    apply Cat_Star_step. eexists _, _. split; [reflexivity|].
    split; [rewrite (forallb_ext_eq _ _ _ classTest_space_i); assumption|].
    apply Cat_Lit_step. eexists _, _. split; [reflexivity|].
    split; [apply Forall2_sameIgnoringCase; assumption|].
    apply Cat_Star_step. eexists _, _. split; [reflexivity|].
    split; [rewrite (forallb_ext_eq _ _ _ classTest_space_i); assumption|].
    apply Cat_GroupPlus_step. eexists _, _. split; [eassumption|].
    split; [reflexivity|]. split; [assumption|].
    apply Cat_nil_step. reflexivity.
Qed.

Lemma tasting_starts t :
  matchAt tastingRegex t <> None <->
  exists u t', t = u ++ t' /\ TranslationStarts u.
Proof.
  split.
  - intros H. destruct (matchAt tastingRegex t) as [y|] eqn:E; [|contradiction].
    apply matchAt_sound in E.
    assert (Hd : MatchesAt tastingRegex t (capture y) (rest y)).
    { unfold MatchesAt. rewrite <- state_eta. assumption. }
    apply tasting_MatchesAt in Hd as (u & text & Ht & Hp & _).
    exists u, (rest y). split; [assumption|]. exists text. assumption.
  - intros (u & t' & -> & (text & Hp)).
    apply (matchAt_complete tastingRegex _
             {| rest := t'; capture := Some text |}).
    apply tasting_MatchesAt. exists u, text. auto.
Qed.

Lemma tasting_match_ends_line t y :
  matchAt tastingRegex t = Some y -> endsLine (rest y).
Proof.
  intros H.
  apply (Cat_last_rest flagsI (stopsAt (classTest flagsI ClassNotNewline))
           (Group (Plus true (Class ClassNotNewline)))
           [Lit (str "English"); ws0; Lit (str "translation:"); ws0]) in H.
  - unfold endsLine. destruct (rest y) as [|ch post]; [left; reflexivity|].
    right. exists post. simpl in H. rewrite classTest_notNewline_i in H.
    apply negb_false_iff, N.eqb_eq in H. subst. reflexivity.
  - intros x z. apply GroupPlus_last.
Qed.

Lemma stopsAt_space_i r :
  stopsAt isWhiteSpace r -> stopsAt (classTest flagsI ClassSpace) r.
Proof.
  destruct r as [|c r]; simpl; [auto|]. rewrite classTest_space_i. auto.
Qed.

Lemma endsLine_stops post :
  endsLine post -> stopsAt (classTest flagsI ClassNotNewline) post.
Proof.
  intros [->|[post' ->]]; simpl; [exact I | reflexivity].
Qed.

(** Where the text behind the label starts with a character that is not
    white space, the match is this one: the text runs to the end of its
    line. *)
Lemma tasting_matchAt l1 w1 l2 w2 text post :
  sameIgnoringCase l1 (str "English") -> allWhiteSpace w1 ->
  sameIgnoringCase l2 (str "translation:") -> allWhiteSpace w2 ->
  text <> [] -> noLineFeed text -> stopsAt isWhiteSpace text ->
  endsLine post ->
  matchAt tastingRegex (l1 ++ w1 ++ l2 ++ w2 ++ text ++ post)
  = Some {| rest := post; capture := Some text |}.
Proof.
  intros F1 A1 F2 A2 Hne Hnl Hst Hend. unfold matchAt, tastingRegex.
  cbn [source flags].
  change (Cat (Lit ?p :: ?rs)) with (Seq (Lit p) (Cat rs)).
  rewrite compile_Lit_read by (apply Forall2_sameIgnoringCase; assumption).
  unfold ws0 at 1.
  change (Cat (Star true (Class ClassSpace) :: ?rs))
    with (Seq (Star true (Class ClassSpace)) (Cat rs)).
  apply compile_Star_max.
  { rewrite (forallb_ext_eq _ _ _ classTest_space_i). assumption. }
  { apply stopsAt_space_i.
    eapply literal_stops_space; [eassumption | reflexivity]. }
  change (Cat (Lit ?p :: ?rs)) with (Seq (Lit p) (Cat rs)).
  rewrite compile_Lit_read by (apply Forall2_sameIgnoringCase; assumption).
  unfold ws0.
  change (Cat (Star true (Class ClassSpace) :: ?rs))
    with (Seq (Star true (Class ClassSpace)) (Cat rs)).
  apply compile_Star_max.
  { rewrite (forallb_ext_eq _ _ _ classTest_space_i). assumption. }
  { apply stopsAt_space_i. destruct text as [|c text]; [contradiction|].
    exact Hst. }
  change (Cat [Group ?g]) with (Seq (Group g) Empty).
  apply compile_GroupPlus_max; try assumption.
  - apply endsLine_stops. assumption.
  - reflexivity.
Qed.

Lemma tastingNotes_exec s :
  tastingNotes (parseAnalysis s) =
  match exec tastingRegex s with
  | Some m => Some (trim (capture1 m))
  | None => None
  end.
Proof. reflexivity. Qed.

(** *** Splitting at commas *)

Lemma splitOn_cons sep s : exists piece pieces, splitOn sep s = piece :: pieces.
Proof.
  destruct s as [|c t]; simpl; [eauto|].
  destruct (c =? sep)%N; [eauto|]. destruct (splitOn sep t); eauto.
Qed.

Lemma splitOn_join sep s : joinWith sep (splitOn sep s) = s.
Proof.
  induction s as [|c t IH]; [reflexivity|]. cbn [splitOn].
  destruct (c =? sep)%N eqn:E.
  - apply N.eqb_eq in E. subst c.
    destruct (splitOn_cons sep t) as (p & ps & Hp). rewrite Hp in *.
    cbn [joinWith app] in *. rewrite IH. reflexivity.
  - destruct (splitOn_cons sep t) as (p & ps & Hp). rewrite Hp in *.
    cbn [joinWith] in *. destruct ps; cbn [app]; rewrite <- IH; reflexivity.
Qed.

Lemma splitOn_length sep s :
  length (splitOn sep s) = S (count_occ N.eq_dec s sep).
Proof.
  induction s as [|c t IH]; [reflexivity|]. cbn [splitOn count_occ].
  destruct (N.eqb_spec c sep) as [->|Hne].
  - destruct (N.eq_dec sep sep); [|contradiction]. simpl. rewrite IH.
    reflexivity.
  - destruct (N.eq_dec c sep); [contradiction|].
    destruct (splitOn_cons sep t) as (p & ps & Hp). rewrite Hp in *.
    exact IH.
Qed.

Lemma splitOn_no_sep sep s piece :
  In piece (splitOn sep s) -> ~ In sep piece.
Proof.
  revert piece. induction s as [|c t IH]; intros piece; cbn [splitOn].
  - intros [<-|[]] [].
  - destruct (N.eqb_spec c sep) as [->|Hne].
    + intros [<-|H]; [intros [] | apply IH; assumption].
    + destruct (splitOn_cons sep t) as (p & ps & Hp). rewrite Hp in *.
      intros [<-|H].
      * intros [E|H]; [congruence|]. apply (IH p); simpl; auto.
      * apply IH. simpl. auto.
Qed.

(** *** Trimming *)

Lemma trimStart_stops s : stopsAt isWhiteSpace (trimStart s).
Proof.
  induction s as [|c t IH]; simpl; [exact I|].
  destruct (isWhiteSpace c) eqn:E; [assumption | exact E].
Qed.

Lemma trimStart_suffix s : exists w, s = w ++ trimStart s /\ allWhiteSpace w.
Proof.
  unfold allWhiteSpace.
  induction s as [|c t (w & Hw & Ha)]; simpl.
  - exists []. split; reflexivity.
  - destruct (isWhiteSpace c) eqn:E.
    + exists (c :: w). simpl. rewrite E, Ha, <- Hw. split; reflexivity.
    + exists []. split; reflexivity.
Qed.

Lemma trim_Trimmed s : Trimmed (trim s).
Proof.
  unfold Trimmed, trim, trimEnd. rewrite rev_involutive.
  split; [|apply trimStart_stops].
  destruct (trimStart_suffix (rev (trimStart s))) as (w & Hw & Ha).
  set (r := trimStart (rev (trimStart s))) in *.
  destruct r as [|c r'] eqn:Er; [exact I|].
  assert (Hrev : trimStart s = rev (c :: r') ++ rev w).
  { rewrite <- rev_app_distr, <- Hw, rev_involutive. reflexivity. }
  pose proof (trimStart_stops s) as Hst. rewrite Hrev in Hst.
  pose proof (trimStart_stops (rev (trimStart s))) as Hc. fold r in Hc.
  rewrite Er in Hc. simpl in Hc.
  destruct (rev (c :: r')) as [|d l] eqn:El.
  - apply (f_equal (@length _)) in El. rewrite length_rev in El. discriminate.
  - simpl in Hst. simpl. exact Hst.
Qed.

Lemma In_trimStart c s : In c (trimStart s) -> In c s.
Proof.
  induction s as [|d t IH]; simpl; [auto|].
  destruct (isWhiteSpace d); simpl; auto.
Qed.

Lemma In_trim c s : In c (trim s) -> In c s.
Proof.
  unfold trim, trimEnd. intros H. apply In_trimStart.
  apply in_rev. apply In_trimStart. apply in_rev in H. exact H.
Qed.

Lemma CoffeeProductView_tasting p v :
  CoffeeProductView p = Some v ->
  tasting v = tastingCard (tastingNotes (parseAnalysis (analysis p))).
Proof.
  unfold CoffeeProductView. destruct (isOpen p); cbn [negb]; [|discriminate].
  intros H. injection H as <-. reflexivity.
Qed.

Lemma roastCard_scale_finite v :
  (1 <= v <= 5)%Z ->
  roastCard (Some (Finite v))
  = RoastScale (repeat true (Z.to_nat v) ++ repeat false (5 - Z.to_nat v))
               [NumberChild (Finite v); TextChild (str "/5")].
Proof.
  intros H.
  assert (Hv : (v = 1 \/ v = 2 \/ v = 3 \/ v = 4 \/ v = 5)%Z) by lia.
  destruct Hv as [->|[->|[->|[->| ->]]]]; vm_compute; reflexivity.
Qed.

End TastingFacts.

(* ================================================================== *)
(** ** The origin: the rest of the labelled line *)
(* ================================================================== *)

Module OriginFacts.
Import MatcherFacts PatternFacts RoastLevelFacts LabelFacts LazyFacts
       SearchFacts TastingFacts.

(** Where the text behind a three-word label starts with a character that
    is not white space, the match is this one: the text runs to the end of
    its line. *)
Lemma label_matchAt a b c l1 w1 l2 w2 l3 w3 text post :
  match b with pc :: _ => isWhiteSpace (toUpperCase pc) | [] => true end
    = false ->
  match c with pc :: _ => isWhiteSpace (toUpperCase pc) | [] => true end
    = false ->
  sameIgnoringCase l1 a -> allWhiteSpace w1 ->
  sameIgnoringCase l2 b -> allWhiteSpace w2 ->
  sameIgnoringCase l3 c -> allWhiteSpace w3 ->
  text <> [] -> noLineFeed text -> stopsAt isWhiteSpace text ->
  endsLine post ->
  compile flagsI
    (Cat [Lit a; ws0; Lit b; ws0; Lit c; ws0;
          Group (Plus true (Class ClassNotNewline))])
    {| rest := l1 ++ w1 ++ l2 ++ w2 ++ l3 ++ w3 ++ text ++ post;
       capture := None |} (fun y => Some y)
  = Some {| rest := post; capture := Some text |}.
Proof.
  intros Hb Hc F1 A1 F2 A2 F3 A3 Hne Hnl Hst Hend.
  change (Cat (Lit ?p :: ?rs)) with (Seq (Lit p) (Cat rs)).
  rewrite compile_Lit_read by (apply Forall2_sameIgnoringCase; assumption).
  unfold ws0 at 1.
  change (Cat (Star true (Class ClassSpace) :: ?rs))
    with (Seq (Star true (Class ClassSpace)) (Cat rs)).
  apply compile_Star_max.
  { rewrite (forallb_ext_eq _ _ _ classTest_space_i). assumption. }
  { apply stopsAt_space_i.
    eapply literal_stops_space; [eassumption | assumption]. }
  change (Cat (Lit ?p :: ?rs)) with (Seq (Lit p) (Cat rs)).
  rewrite compile_Lit_read by (apply Forall2_sameIgnoringCase; assumption).
  unfold ws0 at 1.
  change (Cat (Star true (Class ClassSpace) :: ?rs))
    with (Seq (Star true (Class ClassSpace)) (Cat rs)).
  apply compile_Star_max.
  { rewrite (forallb_ext_eq _ _ _ classTest_space_i). assumption. }
  { apply stopsAt_space_i.
    eapply literal_stops_space; [eassumption | assumption]. }
  change (Cat (Lit ?p :: ?rs)) with (Seq (Lit p) (Cat rs)).
  rewrite compile_Lit_read by (apply Forall2_sameIgnoringCase; assumption).
  unfold ws0.
  change (Cat (Star true (Class ClassSpace) :: ?rs))
    with (Seq (Star true (Class ClassSpace)) (Cat rs)).
  apply compile_Star_max.
  { rewrite (forallb_ext_eq _ _ _ classTest_space_i). assumption. }
  { apply stopsAt_space_i. destruct text as [|ch text]; [contradiction|].
    exact Hst. }
  change (Cat [Group ?g]) with (Seq (Group g) Empty).
  apply compile_GroupPlus_max; try assumption.
  - apply endsLine_stops. assumption.
  - reflexivity.
Qed.

Lemma origin_line_matchAt u text post :
  OriginLine u text -> stopsAt isWhiteSpace text -> endsLine post ->
  matchAt originRegex (u ++ post)
  = Some {| rest := post; capture := Some text |}.
Proof.
  intros (l1 & w1 & l2 & w2 & l3 & w3 & -> & F1 & A1 & F2 & A2 & F3 & A3
          & Hne & Hnl) Hst Hend.
  repeat rewrite <- app_assoc.
  apply (label_matchAt (str "Primary") (str "coffee") (str "origin:"));
    try assumption; reflexivity.
Qed.

Lemma detail_line_matchAt u text post :
  DetailLine u text -> stopsAt isWhiteSpace text -> endsLine post ->
  matchAt regionRegex (u ++ post)
  = Some {| rest := post; capture := Some text |}.
Proof.
  intros (l1 & w1 & l2 & w2 & l3 & w3 & -> & F1 & A1 & F2 & A2 & F3 & A3
          & Hne & Hnl) Hst Hend.
  repeat rewrite <- app_assoc.
  apply (label_matchAt (str "Specific") (str "farm/region/processing")
                       (str "detail:"));
    try assumption; reflexivity.
Qed.

Lemma origin_starts t :
  matchAt originRegex t <> None <->
  exists u t', t = u ++ t' /\ OriginStarts u.
Proof.
  split.
  - intros H. destruct (matchAt originRegex t) as [y|] eqn:E; [|contradiction].
    apply matchAt_sound in E.
    assert (Hd : MatchesAt originRegex t (capture y) (rest y)).
    { unfold MatchesAt. rewrite <- state_eta. assumption. }
    apply origin_MatchesAt in Hd as (u & text & Ht & Hp & _).
    exists u, (rest y). split; [assumption|]. exists text. assumption.
  - intros (u & t' & -> & (text & Hp)).
    apply (matchAt_complete originRegex _
             {| rest := t'; capture := Some text |}).
    apply origin_MatchesAt. exists u, text. auto.
Qed.

Lemma detail_starts t :
  matchAt regionRegex t <> None <->
  exists u t', t = u ++ t' /\ DetailStarts u.
Proof.
  split.
  - intros H. destruct (matchAt regionRegex t) as [y|] eqn:E; [|contradiction].
    apply matchAt_sound in E.
    assert (Hd : MatchesAt regionRegex t (capture y) (rest y)).
    { unfold MatchesAt. rewrite <- state_eta. assumption. }
    apply region_MatchesAt in Hd as (u & text & Ht & Hp & _).
    exists u, (rest y). split; [assumption|]. exists text. assumption.
  - intros (u & t' & -> & (text & Hp)).
    apply (matchAt_complete regionRegex _
             {| rest := t'; capture := Some text |}).
    apply region_MatchesAt. exists u, text. auto.
Qed.

Lemma origin_exec_line s :
  origin (parseAnalysis s) =
  match exec originRegex s with
  | Some m =>
    Some (match exec regionRegex s with
          | Some r => trim (capture1 m) ++ str " - " ++ trim (capture1 r)
          | None => trim (capture1 m)
          end)
  | None => None
  end.
Proof. reflexivity. Qed.

Lemma CoffeeProductView_origin p v :
  CoffeeProductView p = Some v ->
  originText v = originCard (origin (parseAnalysis (analysis p))).
Proof.
  unfold CoffeeProductView. destruct (isOpen p); cbn [negb]; [|discriminate].
  intros H. injection H as <-. reflexivity.
Qed.

End OriginFacts.

(* ================================================================== *)
(** ** Further properties of the product view *)
(* ================================================================== *)

Module ExtractionProperties.
Import MatcherFacts PatternFacts NumberFacts RoastLevelFacts SectionFacts
       LabelFacts LazyFacts BodyFacts SearchFacts SectionBodyFacts OverviewFacts
       TastingFacts OriginFacts.

(** X2.  The body of an in-depth section.  [extractSection] looks for the
    first place where the section name stands in front of white space, skips
    all the white space behind the name, and returns, trimmed, the shortest
    text behind which the analysis ends, or an empty line followed by a
    capital letter stands, or a line starts with a capitalised word, white
    space and another capital letter.  Every analysis that holds the heading
    can be read in this way. *)
Theorem extractSection_shortest_body : forall s name,
  In name sectionNames ->
  (HeadingOccurs s name ->
   exists pre w body post, SectionParts s name pre w body post) /\
  (forall pre w body post,
     SectionParts s name pre w body post ->
     extractSection s name = trim body).
Proof.
  intros s name _. split.
  - apply SectionParts_exist.
  - apply extractSection_parts.
Qed.

Lemma extractSection_shortest_body_witness :
  exists pre w body post,
    SectionParts (str "Flavor Profile" ++ LF :: str "Sweet and bright.")
                 (str "Flavor Profile") pre w body post.
Proof.
  refine (proj1 (extractSection_shortest_body
                   (str "Flavor Profile" ++ LF :: str "Sweet and bright.")
                   (str "Flavor Profile") _) _).
  - unfold sectionNames. cbn [In]. auto.
  - exists [], LF, (str "Sweet and bright."). split; reflexivity.
Defined.

(** A line that starts with two capitalised words ends the body, also in
    the middle of a paragraph; the next heading does so only when it has
    that shape or stands behind an empty line. *)
Example body_stops_at_capitalised_line :
  extractSection
    (str "Flavor Profile" ++ LF :: str "Notes of cocoa from" ++ LF
       :: str "Costa Rica at its best.")
    (str "Flavor Profile")
  = str "Notes of cocoa from" /\
  extractSection
    (str "About the Origin" ++ LF :: str "Grown high." ++ LF
       :: str "Grade and Sourcing" ++ LF :: str "Grade 1.")
    (str "About the Origin")
  = str "Grown high." ++ LF :: str "Grade and Sourcing" ++ LF :: str "Grade 1.".
Proof. split; vm_compute; reflexivity. Qed.

(** X3.  The expert overview.  [expertOverview] stays undefined exactly when
    "Expert", any white space and "Overview" (in this case) stand nowhere in
    the analysis.  Otherwise the first such heading is taken, all the white
    space behind it is skipped, and the overview is, trimmed, the shortest
    text behind which the analysis ends, or an empty line stands, or a line
    starts with a capital letter.  The card shows that text, and the
    placeholder when the text is empty or the heading is missing. *)
Theorem expertOverview_shortest_body : forall s,
  (expertOverview (parseAnalysis s) = None <->
   forall pre, ~ StandsAt OverviewHeading s pre) /\
  (forall pre0, StandsAt OverviewHeading s pre0 ->
     exists pre u w body post, OverviewParts s pre u w body post) /\
  (forall pre u w body post,
     OverviewParts s pre u w body post ->
     expertOverview (parseAnalysis s) = Some (trim body)) /\
  (forall p v, analysis p = s -> CoffeeProductView p = Some v ->
     overviewText v
     = match expertOverview (parseAnalysis s) with
       | Some text => if truthyStr text then text else overviewPlaceholder
       | None => overviewPlaceholder
       end).
Proof.
  intros s. split; [|split; [|split]].
  - rewrite <- (exec_none_StandsAt expertRegex OverviewHeading eq_refl eq_refl
                  expert_starts s).
    change (expertOverview (parseAnalysis s))
      with (match exec expertRegex s with
            | Some m => Some (trim (capture1 m))
            | None => None
            end).
    destruct (exec expertRegex s); split; intros H;
      try discriminate; reflexivity.
  - apply OverviewParts_exist.
  - apply expertOverview_parts.
  - intros p v <- Hv. rewrite (CoffeeProductView_overview p v Hv).
    reflexivity.
Qed.

(** X4.  The tasting notes.  [tastingNotes] stays undefined exactly when no
    "English translation:" label (letters in any case, any white space after
    each word) followed by a non-empty piece of one line stands in the
    analysis.  Otherwise it is the trimmed text captured at the first such
    label, a piece of one line that runs to the end of that line; and where
    the text behind the label and its white space starts with a character
    that is not white space, it is the rest of that line. *)
Theorem tastingNotes_first_translation_line : forall s,
  (tastingNotes (parseAnalysis s) = None <->
   forall pre, ~ StandsAt TranslationStarts s pre) /\
  (forall notes, tastingNotes (parseAnalysis s) = Some notes ->
     exists pre u text post,
       s = pre ++ u ++ post /\ FirstAt TranslationStarts s pre /\
       TranslationLine u text /\ endsLine post /\ notes = trim text) /\
  (forall pre u text post,
     s = pre ++ u ++ post -> FirstAt TranslationStarts s pre ->
     TranslationLine u text -> stopsAt isWhiteSpace text -> endsLine post ->
     tastingNotes (parseAnalysis s) = Some (trim text)).
Proof.
  intros s. rewrite tastingNotes_exec. split; [|split].
  - rewrite <- (exec_none_StandsAt tastingRegex TranslationStarts eq_refl
                  eq_refl tasting_starts s).
    destruct (exec tastingRegex s); split; intros H;
      try discriminate; reflexivity.
  - intros notes H.
    destruct (exec tastingRegex s) as [m|] eqn:E; [|discriminate].
    injection H as <-.
    apply (exec_some_FirstAt tastingRegex TranslationStarts eq_refl eq_refl
             tasting_starts) in E as (pre & t & y & Hs & Hm & Hfirst & _ & Hg).
    pose proof (tasting_match_ends_line t y Hm) as Hend.
    apply matchAt_sound in Hm.
    assert (Hd : MatchesAt tastingRegex t (capture y) (rest y)).
    { unfold MatchesAt. rewrite <- state_eta. assumption. }
    apply tasting_MatchesAt in Hd as (u & text & Ht & Hp & Hc).
    exists pre, u, text, (rest y). rewrite <- Ht.
    split; [assumption|]. split; [assumption|]. split; [assumption|].
    split; [assumption|]. unfold capture1. rewrite Hg, Hc. reflexivity.
  - intros pre u text post Hs Hfirst (l1 & w1 & l2 & w2 & -> & F1 & A1 & F2
                                       & A2 & Hne & Hnl) Hst Hend.
    rewrite (exec_FirstAt tastingRegex TranslationStarts eq_refl eq_refl
               tasting_starts s pre
               (l1 ++ w1 ++ l2 ++ w2 ++ text ++ post)
               {| rest := post; capture := Some text |}).
    + reflexivity.
    + rewrite Hs. repeat rewrite <- app_assoc. reflexivity.
    + assumption.
    + apply tasting_matchAt; assumption.
Qed.

(** X5.  The Tasting Notes card shows the placeholder when the notes are
    undefined or empty.  Otherwise it shows one badge per piece of the notes
    between commas, in order: one more badge than the notes have commas,
    each the trimmed piece (so without white space at its ends and without a
    comma, and empty when the piece is blank), and the pieces joined with
    commas are the notes again. *)
Theorem tastingCard_badges : forall notes : option JSString,
  (notes = None \/ notes = Some [] ->
   tastingCard notes = TastingPlaceholder tastingPlaceholder) /\
  (forall text, notes = Some text -> text <> [] ->
     exists pieces,
       tastingCard notes = TastingBadges (map trim pieces) /\
       joinWith comma pieces = text /\
       length pieces = S (count_occ N.eq_dec text comma) /\
       (forall badge, In badge (map trim pieces) ->
                      Trimmed badge /\ ~ In comma badge)) /\
  (forall p v, CoffeeProductView p = Some v ->
     tastingNotes (parseAnalysis (analysis p)) = notes ->
     tasting v = tastingCard notes).
Proof.
  intros notes. split; [|split].
  - unfold tastingPlaceholder.
    intros [->| ->]; cbn [tastingCard truthyStr]; reflexivity.
  - intros text -> Hne. exists (splitOn comma text).
    split; [destruct text; [contradiction|];
            cbn [tastingCard truthyStr]; reflexivity|].
    split; [apply splitOn_join|]. split; [apply splitOn_length|].
    intros badge Hin. apply in_map_iff in Hin as (piece & <- & Hp).
    split; [apply trim_Trimmed|].
    intros Hc. apply In_trim in Hc. revert Hc.
    apply (splitOn_no_sep comma text). assumption.
  - intros p v Hv <-. apply CoffeeProductView_tasting. assumption.
Qed.

(** X6.  The Roast Level card for a level within the scale: when the first
    match of the roast phrase has N between 1 and 5, the card shows five
    circles of which the first N are filled and the others are not, and the
    label N followed by "/5". *)
Theorem roastCard_scale : forall s ds,
  FirstRoastMatch s ds ->
  (1 <= decimalValue ds <= 5)%Z ->
  let N := Z.to_nat (decimalValue ds) in
  roastLevel (parseAnalysis s) = Some (Finite (decimalValue ds)) /\
  roastCard (roastLevel (parseAnalysis s))
  = RoastScale (repeat true N ++ repeat false (5 - N))
               [NumberChild (Finite (decimalValue ds)); TextChild (str "/5")] /\
  (forall p v, analysis p = s -> CoffeeProductView p = Some v ->
     roast v = RoastScale (repeat true N ++ repeat false (5 - N))
                 [NumberChild (Finite (decimalValue ds));
                  TextChild (str "/5")]).
Proof.
  intros s ds Hf Hr N. subst N.
  destruct (FirstRoastMatch_digits _ _ Hf) as [Hne Hd].
  pose proof (parseInt_digits ds Hne Hd) as Hp.
  rewrite roundToDouble_exact in Hp by lia.
  assert (Hl : roastLevel (parseAnalysis s)
               = Some (Finite (decimalValue ds))).
  { rewrite roastLevel_exec. apply exec_roast_some in Hf as (m & E & Hg).
    rewrite E. unfold capture1. rewrite Hg, Hp. reflexivity. }
  split; [assumption|]. split.
  - rewrite Hl. apply roastCard_scale_finite. assumption.
  - intros p v <- Hv.
    assert (Hrv : roast v = roastCard (roastLevel (parseAnalysis (analysis p)))).
    { revert Hv. unfold CoffeeProductView.
      destruct (isOpen p); cbn [negb]; [|discriminate].
      intros H. injection H as <-. reflexivity. }
    rewrite Hrv, Hl. apply roastCard_scale_finite. assumption.
Qed.

Lemma roastCard_scale_witness :
  roastCard (roastLevel (parseAnalysis (str "Roast level Profile: 3/5")))
  = RoastScale [true; true; true; false; false]
               [NumberChild (Finite 3); TextChild (str "/5")].
Proof.
  refine (proj1 (proj2
            (roastCard_scale (str "Roast level Profile: 3/5") (str "3") _ _))).
  - exists 0. split; [|intros; lia].
    exists [], (str "Roast level Profile: 3/5"), []. split; [reflexivity|].
    split; [reflexivity|].
    exists (str "Roast"), (str " "), (str "level"), (str " "),
           (str "Profile:"), (str " ").
    repeat split; try reflexivity. discriminate.
  - vm_compute. split; discriminate.
Defined.

(** X18.  The origin is the rest of the line.  Where the first "Primary
    coffee origin:" label is followed, behind its white space, by a
    character that is not white space, the text taken is the rest of that
    line.  [origin] is that text, trimmed, when no "Specific
    farm/region/processing detail:" label with text stands in the analysis;
    and when the first such label is followed in the same way by the rest of
    a line, [origin] is the two trimmed texts with " - " between them,
    wherever the two labels stand.  The Origin card shows [origin]. *)
Theorem origin_rest_of_line : forall s pre u text post,
  s = pre ++ u ++ post -> FirstAt OriginStarts s pre ->
  OriginLine u text -> stopsAt isWhiteSpace text -> endsLine post ->
  ((forall pre', ~ StandsAt DetailStarts s pre') ->
   origin (parseAnalysis s) = Some (trim text)) /\
  (forall pre2 u2 detail post2,
     s = pre2 ++ u2 ++ post2 -> FirstAt DetailStarts s pre2 ->
     DetailLine u2 detail -> stopsAt isWhiteSpace detail -> endsLine post2 ->
     origin (parseAnalysis s)
     = Some (trim text ++ str " - " ++ trim detail)) /\
  (forall p v, analysis p = s -> CoffeeProductView p = Some v ->
     originText v = originCard (origin (parseAnalysis s))).
Proof.
  intros s pre u text post Hs Hfirst Hline Hst Hend.
  assert (Ho : exec originRegex s
               = Some {| index := length pre;
                         matched := firstn (length (u ++ post) - length post)
                                           (u ++ post);
                         group1 := Some text |}).
  { apply (exec_FirstAt originRegex OriginStarts eq_refl eq_refl
             origin_starts s pre (u ++ post)
             {| rest := post; capture := Some text |});
      [assumption | assumption |].
    apply origin_line_matchAt; assumption. }
  rewrite origin_exec_line, Ho. cbn [capture1 group1].
  split; [|split].
  - intros Hnone.
    apply (exec_none_StandsAt regionRegex DetailStarts eq_refl eq_refl
             detail_starts s) in Hnone.
    rewrite Hnone. reflexivity.
  - intros pre2 u2 detail post2 Hs2 Hfirst2 Hline2 Hst2 Hend2.
    rewrite (exec_FirstAt regionRegex DetailStarts eq_refl eq_refl
               detail_starts s pre2 (u2 ++ post2)
               {| rest := post2; capture := Some detail |});
      [reflexivity | assumption | assumption |].
    apply detail_line_matchAt; assumption.
  - intros p v <- Hv. rewrite (CoffeeProductView_origin p v Hv).
    rewrite origin_exec_line, Ho. reflexivity.
Qed.

Lemma origin_rest_of_line_witness :
  origin (parseAnalysis (str "Primary coffee origin: " ++ str "BRAZIL"))
  = Some (trim (str "BRAZIL")).
Proof.
  refine (proj1 (origin_rest_of_line
                   (str "Primary coffee origin: " ++ str "BRAZIL")
                   [] (str "Primary coffee origin: " ++ str "BRAZIL")
                   (str "BRAZIL") [] _ _ _ _ _) _).
  - rewrite app_nil_r. reflexivity.
  - split; [|intros; simpl; lia].
    exists (str "Primary coffee origin: " ++ str "BRAZIL"), [].
    split; [rewrite app_nil_r; reflexivity|].
    exists (str "BRAZIL").
    exists (str "Primary"), (str " "), (str "coffee"), (str " "),
           (str "origin:"), (str " ").
    repeat split; try reflexivity. discriminate.
  - exists (str "Primary"), (str " "), (str "coffee"), (str " "),
           (str "origin:"), (str " ").
    repeat split; try reflexivity. discriminate.
  - reflexivity.
  - left. reflexivity.
  - intros pre' (u' & t & Hs & (detail & Hd)).
    assert (Hn : exec regionRegex (str "Primary coffee origin: " ++ str "BRAZIL")
                 = None) by (vm_compute; reflexivity).
    apply (proj1 (exec_none_StandsAt regionRegex DetailStarts eq_refl eq_refl
                    detail_starts _) Hn pre').
    exists u', t. split; [assumption|]. exists detail. assumption.
Defined.

End ExtractionProperties.

(* ================================================================== *)
(** ** The chat endpoint, uploads and submissions: supporting facts *)
(* ================================================================== *)

Module EndpointFacts.
Import MatcherFacts PatternFacts RoastLevelFacts LazyFacts BodyFacts SearchFacts.

Lemma Forall2_exact_noFlags l p :
  Forall2 (fun ch pc => Canonicalize noFlags ch = Canonicalize noFlags pc) l p ->
  l = p.
Proof.
  unfold Canonicalize. cbn [ignoreCase noFlags].
  induction 1; [reflexivity | congruence].
Qed.

Lemma cloud_MatchesAt t cap after :
  MatchesAt cloudRegex t cap after ->
  exists c, t = c :: str "cloud" /\ isLineTerminator c = false.
Proof.
  unfold MatchesAt, cloudRegex. cbn [source flags]. intros H.
  apply Cat_Class_step in H as (c & t1 & -> & Hc & H).
  apply Cat_Lit_step in H as (l & t2 & -> & Hl & H).
  apply Forall2_exact_noFlags in Hl. subst l.
  cbn [Cat] in H. apply Derives_Seq_inv in H as (y & He & _).
  apply Derives_EndOfInput_inv in He as [He _]. simpl in He. subst t2.
  exists c. rewrite app_nil_r. split; [reflexivity|].
  apply negb_true_iff. exact Hc.
Qed.

Lemma cloud_matchAt c :
  isLineTerminator c = false ->
  matchAt cloudRegex (c :: str "cloud") = Some {| rest := []; capture := None |}.
Proof.
  intros Hc. unfold matchAt, cloudRegex. cbn [source flags].
  change (Cat [Class ClassDot; Lit (str "cloud"); EndOfInput])
    with (Seq (Class ClassDot) (Seq (Lit (str "cloud")) (Seq EndOfInput Empty))).
  rewrite compile_Class_read by (apply negb_true_iff; exact Hc).
  rewrite <- (app_nil_r (str "cloud")) at 2.
  rewrite compile_Lit_exact. reflexivity.
Qed.

Lemma length_cloud : length (str "cloud") = 5.
Proof. reflexivity. Qed.

Lemma cloud_exec base c :
  isLineTerminator c = false ->
  exec cloudRegex (base ++ c :: str "cloud")
  = Some {| index := length base; matched := c :: str "cloud";
            group1 := None |}.
Proof.
  intros Hc.
  rewrite (exec_first_match cloudRegex base (c :: str "cloud")
             {| rest := []; capture := None |});
    [|reflexivity | reflexivity | apply cloud_matchAt; assumption |].
  - cbn [rest capture length]. rewrite Nat.sub_0_r.
    change (S (length (str "cloud"))) with (length (c :: str "cloud")).
    rewrite firstn_all. reflexivity.
  - intros j Hj. apply matchAt_none. intros cap after Hm.
    apply cloud_MatchesAt in Hm as (c' & Ht & _).
    apply (f_equal (@length _)) in Ht. rewrite length_skipn, length_app in Ht.
    simpl in Ht. lia.
Qed.

Lemma cloud_exec_none s :
  (forall base c, s = base ++ c :: str "cloud" -> isLineTerminator c = true) ->
  exec cloudRegex s = None.
Proof.
  intros H. rewrite exec_plain by reflexivity.
  destruct (execFrom cloudRegex 0 s) as [m|] eqn:E; [|reflexivity].
  exfalso. apply execFrom_some in E as (k & y & _ & Hk & Hm & _).
  apply matchAt_sound in Hm.
  assert (Hd : MatchesAt cloudRegex (skipn k s) (capture y) (rest y)).
  { unfold MatchesAt. rewrite <- state_eta. assumption. }
  apply cloud_MatchesAt in Hd as (c & Ht & Hc).
  destruct (skipn_split s k Hk) as (pre & Hpre & _). rewrite Ht in Hpre.
  rewrite (H pre c Hpre) in Hc. discriminate.
Qed.

Lemma replace_cloud base c :
  isLineTerminator c = false ->
  replace (base ++ c :: str "cloud") cloudRegex (str ".site")
  = base ++ str ".site".
Proof.
  intros Hc. unfold replace. rewrite cloud_exec by assumption.
  cbn [index matched].
  rewrite firstn_app, Nat.sub_diag, firstn_all. cbn [firstn].
  rewrite app_nil_r.
  rewrite skipn_all2 by (rewrite length_app; simpl; lia).
  rewrite app_nil_r. reflexivity.
Qed.

End EndpointFacts.

Module UploadFacts.
Import ChatModalProperties HandlerFacts.

Lemma filter_idem {A} (f : A -> bool) l : filter f (filter f l) = filter f l.
Proof.
  induction l as [|a l IH]; simpl; [reflexivity|].
  destruct (f a) eqn:E; simpl; [rewrite E, IH|]; auto.
Qed.

Lemma filter_none {A} (f : A -> bool) l :
  (forall a, In a l -> f a = false) -> filter f l = [].
Proof.
  induction l as [|a l IH]; simpl; intros H; [reflexivity|].
  rewrite (H a) by auto. apply IH. auto.
Qed.
Lemma addFiles_filter dropped st :
  addFiles dropped st = addFiles (filter allowedType dropped) st.
Proof.
  unfold addFiles. fold allowedType. rewrite filter_idem. reflexivity.
Qed.

(** What a step of an upload handler leaves alone. *)
Lemma addFiles_frame dropped st :
  isDragging (fst (addFiles dropped st)) = isDragging st /\
  input (fst (addFiles dropped st)) = input st /\
  sent (fst (addFiles dropped st)) = sent st /\
  timers (fst (addFiles dropped st)) = timers st /\
  uploadedImages (fst (addFiles dropped st)) = uploadedImages st.
Proof.
  unfold addFiles. destruct (MAX_FILES <? _).
  - cbn. auto.
  - destruct (filter _ dropped); cbn; auto.
Qed.

Lemma validating_frame k files validFiles st :
  nth_error (awaiting st) k = Some (Validating files validFiles) ->
  isDragging (settle k st) = isDragging st /\
  input (settle k st) = input st /\
  sent (settle k st) = sent st /\
  timers (settle k st) = timers st.
Proof.
  intros Hk. unfold settle. rewrite Hk. cbn [resume].
  destruct files as [|file files].
  - rewrite addValidFiles_spec. cbn. auto.
  - unfold validated.
    destruct (validateFile file); destruct files as [|next files];
      rewrite ?addValidFiles_spec; cbn; auto.
Qed.

Lemma nth_error_length_lt {A} (l : list A) i v :
  nth_error l i = Some v -> i < length l.
Proof. intros H. apply nth_error_Some. congruence. Qed.

Lemma removeAt_filter {A} (l : list A) : forall i k,
  removeAt i l
  = map snd (filter (fun p => negb (fst p =? k + i))
                    (combine (seq k (length l)) l)).
Proof.
  induction l as [|a l IH]; intros i k; [destruct i; reflexivity|].
  cbn [length seq combine filter fst].
  destruct i as [|i].
  - cbn [removeAt]. rewrite Nat.add_0_r, Nat.eqb_refl. cbn [negb].
    rewrite <- (map_id l) at 1.
    assert (H : forall (l0 : list A) k0, k < k0 ->
              map snd (filter (fun p => negb (fst p =? k))
                              (combine (seq k0 (length l0)) l0)) = l0).
    { induction l0 as [|b l0 IH0]; intros k0 Hk; [reflexivity|].
      cbn [length seq combine filter fst].
      assert (E : (k0 =? k) = false) by (apply Nat.eqb_neq; lia).
      rewrite E. cbn [negb map snd]. rewrite IH0 by lia. reflexivity. }
    rewrite map_id. symmetry. apply H. lia.
  - cbn [removeAt].
    assert (E : (k =? k + S i) = false) by (apply Nat.eqb_neq; lia).
    rewrite E. cbn [negb map snd]. rewrite (IH i (S k)).
    rewrite Nat.add_succ_comm. reflexivity.
Qed.

Lemma removeAt_in_range {A} (l : list A) : forall i,
  i < length l -> removeAt i l = firstn i l ++ skipn (S i) l.
Proof.
  induction l as [|a l IH]; intros i Hi; [simpl in Hi; lia|].
  destruct i as [|i]; [reflexivity|]. cbn [removeAt firstn skipn app].
  rewrite IH by (simpl in Hi; lia). reflexivity.
Qed.

Lemma removeAt_out_of_range {A} (l : list A) : forall i,
  length l <= i -> removeAt i l = l.
Proof.
  induction l as [|a l IH]; intros i Hi; [destruct i; reflexivity|].
  destruct i as [|i]; [simpl in Hi; lia|]. cbn [removeAt].
  rewrite IH by (simpl in Hi; lia). reflexivity.
Qed.

Lemma removeAt_length_le {A} i (l : list A) :
  length (removeAt i l) <= length l.
Proof.
  revert i. induction l as [|a l IH]; intros i; destruct i; simpl; try lia.
  specialize (IH i). lia.
Qed.

Lemma nth_error_replaceAt {A} (l : list A) : forall i a,
  i < length l -> nth_error (replaceAt i a l) i = Some a.
Proof.
  induction l as [|b l IH]; intros i a Hi; [simpl in Hi; lia|].
  destruct i as [|i]; [reflexivity|]. cbn [replaceAt nth_error].
  apply IH. simpl in Hi. lia.
Qed.

End UploadFacts.

Module ModalFacts.
Import UploadFacts HandlerFacts.

Section Runs.
Variable readAsDataURL : File -> JSString.

(** An invariant of every step holds after every run. *)
Lemma modalRun_invariant (Inv : Modal -> Prop) :
  (forall e m, Inv m -> Inv (modalStep readAsDataURL e m)) ->
  forall events m, Inv m -> Inv (modalRun readAsDataURL events m).
Proof.
  intros Hstep. unfold modalRun.
  induction events as [|e events IH]; intros m Hm; simpl; auto.
Qed.

Lemma onFinish_result content uploaded m :
  analysisResult (onFinish readAsDataURL content uploaded m)
  = if truthyStr content && (0 <? length uploaded) then content
    else analysisResult m.
Proof.
  unfold onFinish. destruct (truthyStr content && (0 <? length uploaded));
    [|reflexivity].
  destruct (forallb readable uploaded); reflexivity.
Qed.

Lemma onFinish_frame content uploaded m :
  chat (onFinish readAsDataURL content uploaded m) = chat m /\
  showProductView (onFinish readAsDataURL content uploaded m)
    = showProductView m /\
  isLoading (onFinish readAsDataURL content uploaded m) = isLoading m.
Proof.
  unfold onFinish. destruct (truthyStr content && (0 <? length uploaded));
    [|auto].
  destruct (forallb readable uploaded); auto.
Qed.

End Runs.

(** *** What is sent *)








End ModalFacts.

Module BannerFacts.
Import ChatModalProperties UploadFacts HandlerFacts ModalFacts.

Lemma step_error e st :
  (forall message, e <> ChatError message) -> e <> DismissError ->
  error (step e st) = error st.
Proof.
  intros Hc Hd. destruct e; cbn [step].
  - unfold handleDrop.
    destruct (start_fields (addFiles files (setIsDragging false st)))
      as (_ & _ & -> & _).
    apply (addFiles_step files (setIsDragging false st)).
  - unfold handleFileSelect.
    destruct (start_fields (addFiles files st)) as (_ & _ & -> & _).
    apply (addFiles_step files st).
  - reflexivity.
  - reflexivity.
  - destruct (start_fields (handleFormSubmit st)) as (_ & _ & -> & _).
    unfold handleFormSubmit.
    destruct (negb (truthyStr (trim (input st)))
              && (length (uploadedImages st) =? 0)); [reflexivity|].
    destruct (0 <? length (uploadedImages st)); reflexivity.
  - unfold settle. destruct (nth_error (awaiting st) k) as [task|];
      [|reflexivity].
    destruct (resume task st) as [[st' task']|] eqn:Er; [|reflexivity].
    destruct (resume_frame _ _ _ _ Er) as (_ & He & _).
    destruct task'; cbn [setAwaiting error]; assumption.
  - reflexivity.
  - exfalso. apply (Hc message). reflexivity.
  - contradiction.
Qed.

Lemma onError_error message st :
  error (onError message st) = Some tooManyRequests \/
  error (onError message st) = Some serviceUnavailable \/
  error (onError message st) = Some genericError.
Proof.
  unfold onError, tooManyRequests, serviceUnavailable, genericError.
  destruct (includes message (str "429"));
    [left; cbn [setError error]; reflexivity|].
  destruct (includes message (str "503"));
    [right; left; cbn [setError error]; reflexivity|].
  right; right; cbn [setError error]; reflexivity.
Qed.

End BannerFacts.

Module TranscriptFacts.
Import HandlerFacts.

Example toString_12 : toString 12 = str "12".
Proof. vm_compute. reflexivity. Qed.

Lemma jpeg_is_image : startsWith (str "image/jpeg") (str "image/") = true.
Proof. vm_compute. reflexivity. Qed.

(** The attachment made of the file at index [i]. *)
Lemma attachmentsOf_nth files : forall attachments i file,
  attachmentsOf files = Some attachments ->
  nth_error files i = Some file ->
  exists compressed,
    compressImage file = Some compressed /\
    nth_error attachments i
    = Some {| attachmentName := name file;
              contentType := str "image/jpeg";
              url := compressed |}.
Proof.
  unfold attachmentsOf, imagePromises.
  induction files as [|f files IH]; intros attachments i file;
    cbn [map PromiseAll].
  - intros _ H. destruct i; discriminate.
  - destruct (imagePromise f) as [a|] eqn:Ea; [|discriminate].
    destruct (PromiseAll (map imagePromise files)) as [l|]; [|discriminate].
    intros H. injection H as <-.
    apply imagePromise_spec in Ea as (c & Hc & ->).
    destruct i as [|i]; cbn [nth_error].
    + intros H. injection H as <-. exists c. auto.
    + intros H. apply (IH l i file eq_refl H).
Qed.

Lemma filter_attachments files : forall attachments,
  attachmentsOf files = Some attachments ->
  filter (fun attachment => startsWith (contentType attachment) (str "image/"))
         attachments
  = attachments.
Proof.
  unfold attachmentsOf, imagePromises.
  induction files as [|f files IH]; intros attachments; cbn [map PromiseAll].
  - intros H. injection H as <-. reflexivity.
  - destruct (imagePromise f) as [a|] eqn:Ea; [|discriminate].
    destruct (PromiseAll (map imagePromise files)) as [l|]; [|discriminate].
    intros H. injection H as <-.
    apply imagePromise_spec in Ea as (c & Hc & ->).
    cbn [filter contentType]. rewrite jpeg_is_image, (IH l eq_refl).
    reflexivity.
Qed.

Lemma nth_error_numbered {A B} (f : nat * A -> B) (l : list A) : forall k i a,
  nth_error l i = Some a ->
  nth_error (map f (combine (seq k (length l)) l)) i = Some (f (k + i, a)).
Proof.
  induction l as [|b l IH]; intros k i a; [destruct i; discriminate|].
  cbn [length seq combine map]. destruct i as [|i]; cbn [nth_error].
  - intros H. injection H as <-. rewrite Nat.add_0_r. reflexivity.
  - intros H. rewrite (IH (S k) i a H). rewrite Nat.add_succ_comm.
    reflexivity.
Qed.

(** The images under a message that carries the attachments of [files]. *)
Lemma attachmentImages_of files attachments msg :
  attachmentsOf files = Some attachments ->
  experimental_attachments msg = Some attachments ->
  length (attachmentImages msg) = length files /\
  forall i file,
    nth_error files i = Some file ->
    exists compressed,
      compressImage file = Some compressed /\
      nth_error (attachmentImages msg) i = Some (shownImage i file compressed).
Proof.
  intros Ha Hm. unfold attachmentImages. rewrite Hm. cbv zeta.
  rewrite (filter_attachments files attachments Ha).
  destruct (attachmentsOf_spec files attachments Ha) as (_ & _ & _ & Hlen).
  split.
  - rewrite length_map, length_combine, length_seq, Nat.min_id. exact Hlen.
  - intros i file Hi.
    destruct (attachmentsOf_nth files attachments i file Ha Hi)
      as (c & Hc & Hn).
    exists c. split; [assumption|].
    rewrite (nth_error_numbered _ attachments 0 i _ Hn). reflexivity.
Qed.

End TranscriptFacts.

(* ================================================================== *)
(** ** Further properties of the chat modal *)
(* ================================================================== *)

Module ChatModalViewProperties.
Import ListFacts DoubleFacts HandlerFacts CompressionFacts ChatModalProperties
       EndpointFacts UploadFacts ModalFacts BannerFacts TranscriptFacts.

(** X7.  The address of the chat endpoint.  The configured URL is the
    environment variable, or the built-in address when the variable is
    undefined or empty.  When the URL ends in "cloud" behind one more
    character that is no line terminator (a dot or any other), these six
    characters are replaced by ".site"; otherwise the URL is taken as it is.
    The endpoint is the result followed by "/api/chat". *)
Theorem site_url_from_cloud_url : forall env : option JSString,
  let url := CONVEX_URL env in
  (env = None \/ env = Some [] -> url = defaultConvexUrl) /\
  (forall u, env = Some u -> u <> [] -> url = u) /\
  (forall base c,
     url = base ++ c :: str "cloud" -> isLineTerminator c = false ->
     CONVEX_SITE_URL env = base ++ str ".site" /\
     api env = base ++ str ".site" ++ str "/api/chat") /\
  ((forall base c,
      url = base ++ c :: str "cloud" -> isLineTerminator c = true) ->
   CONVEX_SITE_URL env = url /\ api env = url ++ str "/api/chat") /\
  api None = str "https://combative-seahorse-878.convex.site/api/chat".
Proof.
  intros env url. split; [|split; [|split; [|split]]].
  - intros [->| ->]; reflexivity.
  - intros u -> Hu. destruct u; [contradiction | reflexivity].
  - intros base c Hurl Hc. unfold api, CONVEX_SITE_URL. fold url.
    rewrite Hurl, replace_cloud by assumption.
    split; [reflexivity | rewrite <- app_assoc; reflexivity].
  - intros H. unfold api, CONVEX_SITE_URL, replace. fold url.
    rewrite cloud_exec_none by assumption. split; reflexivity.
  - vm_compute. reflexivity.
Qed.

(** Any character stands for the dot: such an address loses it. *)
Example site_url_without_a_dot :
  CONVEX_SITE_URL (Some (str "https://example.org/mycloud"))
  = str "https://example.org/m.site" /\
  CONVEX_SITE_URL (Some (str "https://example.org/chat"))
  = str "https://example.org/chat".
Proof. split; vm_compute; reflexivity. Qed.
(** X8.  What [validateFile] looks at.  Its answer depends on the MIME type,
    the size, whether the file can be read, and the first 12 bytes, and on
    nothing else: neither on the name, nor on the bytes behind the twelfth,
    nor on whether the bytes are a picture.  A file it accepts has at least
    3 bytes and at most 10*1024*1024 and could be read.  The MIME type is
    not compared with the signature: a file accepted under one allowed type
    is accepted under every allowed type. *)
Theorem validateFile_looks_at_header_only :
  (forall f g,
     type f = type g -> size f = size g -> readable f = readable g ->
     firstn 12 (bytes f) = firstn 12 (bytes g) ->
     validateFile f = validateFile g) /\
  (forall f, validateFile f = true ->
     (3 <= size f <= 10 * 1024 * 1024)%N /\ readable f = true) /\
  (forall f t, validateFile f = true -> In t ALLOWED_MIME_TYPES ->
     validateFile (withType t f) = true).
Proof.
  split; [|split].
  - intros f g Ht Hs Hr Hb. unfold validateFile, readHeader.
    rewrite Ht, Hs, Hr, Hb. reflexivity.
  - intros f H. unfold validateFile, readHeader in H.
    destruct (MAX_FILE_SIZE <? size f)%N eqn:Es; [discriminate|].
    apply N.ltb_ge in Es.
    destruct (negb (includesStr ALLOWED_MIME_TYPES (type f))); [discriminate|].
    destruct (readable f); [|discriminate].
    split; [|reflexivity]. split; [|exact Es].
    assert (Hlen : 3 <= length (firstn 12 (bytes f))).
    { destruct (isJPEG (firstn 12 (bytes f))) eqn:Ej.
      - unfold isJPEG in Ej. apply andb_true_iff in Ej as [_ E].
        apply byteIs_nth, nth_error_length_lt in E. lia.
      - destruct (isPNG (firstn 12 (bytes f))) eqn:Ep.
        + unfold isPNG in Ep. apply andb_true_iff in Ep as [_ E].
          apply byteIs_nth, nth_error_length_lt in E. lia.
        + destruct (isWEBP (firstn 12 (bytes f))) eqn:Ew; [|discriminate].
          unfold isWEBP in Ew. apply andb_true_iff in Ew as [_ E].
          apply byteIs_nth, nth_error_length_lt in E. lia. }
    rewrite length_firstn in Hlen. unfold size. lia.
  - intros f t H Hin. unfold validateFile, readHeader in *.
    cbn [withType type bytes readable size] in *.
    change (size (withType t f)) with (size f).
    destruct (MAX_FILE_SIZE <? size f)%N; [discriminate|].
    destruct (negb (includesStr ALLOWED_MIME_TYPES (type f))); [discriminate|].
    apply includesStr_In in Hin. rewrite Hin. cbn [negb]. exact H.
Qed.

(** X9.  Files of another type are ignored without a word.  Either upload
    handler does exactly what it would do had the files whose MIME type is
    not allowed never been dropped or selected: they raise no alert, do not
    count towards the limit of 5, and a batch made of such files only
    changes nothing (but the drag highlight, which a drop always ends) and
    awaits nothing.  Uploading sends no message, sets no timer, and leaves
    the input and the error banner alone: the handler as a whole, and each
    of its steps whatever happens between them. *)
Theorem upload_ignores_other_types : forall dropped st,
  handleDrop dropped st = handleDrop (filter allowedType dropped) st /\
  handleFileSelect dropped st
    = handleFileSelect (filter allowedType dropped) st /\
  (forall upload, In upload [Drop; FileSelect] ->
     alone (upload dropped) st
     = alone (upload (filter allowedType dropped)) st) /\
  ((forall file, In file dropped -> allowedType file = false) ->
   length (uploadedImages st) <= MAX_FILES ->
   handleFileSelect dropped st = (st, None) /\
   handleDrop dropped st = (setIsDragging false st, None)) /\
  (forall upload, In upload [Drop; FileSelect] ->
     sent (alone (upload dropped) st) = sent st /\
     timers (alone (upload dropped) st) = timers st /\
     input (alone (upload dropped) st) = input st /\
     error (alone (upload dropped) st) = error st) /\
  (forall e,
     (e = Drop dropped \/ e = FileSelect dropped) \/
     (exists k files validFiles,
        e = Settle k /\
        nth_error (awaiting st) k = Some (Validating files validFiles)) ->
     sent (step e st) = sent st /\ timers (step e st) = timers st /\
     input (step e st) = input st /\ error (step e st) = error st) /\
  isDragging (alone (Drop dropped) st) = false /\
  isDragging (alone (FileSelect dropped) st) = isDragging st.
Proof.
  intros dropped st.
  split; [|split; [|split; [|split; [|split; [|split; [|split]]]]]].
  - unfold handleDrop. apply addFiles_filter.
  - unfold handleFileSelect. apply addFiles_filter.
  - intros upload [<-|[<-|[]]].
    + rewrite !alone_Drop. cbv zeta. rewrite filter_idem. reflexivity.
    + rewrite !alone_FileSelect. cbv zeta. rewrite filter_idem. reflexivity.
  - intros Hnone Hlen.
    assert (Hadd : forall st0, uploadedImages st0 = uploadedImages st ->
                               addFiles dropped st0 = (st0, None)).
    { intros st0 Hu. unfold addFiles. fold allowedType.
      rewrite (filter_none allowedType dropped Hnone). cbn [length].
      rewrite Nat.add_0_r, Hu.
      assert (E : (MAX_FILES <? length (uploadedImages st)) = false)
        by (apply Nat.ltb_ge; assumption).
      rewrite E. reflexivity. }
    unfold handleFileSelect, handleDrop. rewrite !Hadd by reflexivity. auto.
  - intros upload [<-|[<-|[]]].
    + rewrite alone_Drop. cbv zeta. destruct (MAX_FILES <? _); cbn; auto.
    + rewrite alone_FileSelect. cbv zeta. destruct (MAX_FILES <? _); cbn; auto.
  - intros e [[->| ->]|(k & files & validFiles & -> & Hk)]; cbn [step].
    + unfold handleDrop.
      destruct (start_fields (addFiles dropped (setIsDragging false st)))
        as (_ & _ & -> & -> & -> & -> & _).
      destruct (addFiles_frame dropped (setIsDragging false st))
        as (_ & -> & -> & -> & _).
      destruct (addFiles_step dropped (setIsDragging false st)) as [-> _].
      auto.
    + unfold handleFileSelect.
      destruct (start_fields (addFiles dropped st))
        as (_ & _ & -> & -> & -> & -> & _).
      destruct (addFiles_frame dropped st) as (_ & -> & -> & -> & _).
      destruct (addFiles_step dropped st) as [-> _]. auto.
    + destruct (validating_frame k files validFiles st Hk)
        as (_ & -> & -> & ->).
      destruct (validating_step k files validFiles st Hk) as [-> _]. auto.
  - rewrite alone_Drop. cbv zeta. destruct (MAX_FILES <? _); reflexivity.
  - rewrite alone_FileSelect. cbv zeta. destruct (MAX_FILES <? _); reflexivity.
Qed.

(** X10.  [removeImage] keeps the images whose index is not the given one,
    in their order: an index within the list takes exactly that image out,
    so that the list gets shorter by one and the images behind it move up;
    an index past the end changes nothing.  Nothing but the list of images
    is touched. *)
Theorem removeImage_takes_out_index : forall i st,
  let l := uploadedImages st in
  uploadedImages (removeImage i st)
    = map snd (filter (fun p => negb (fst p =? i))
                      (combine (seq 0 (length l)) l)) /\
  (i < length l ->
     uploadedImages (removeImage i st) = firstn i l ++ skipn (S i) l /\
     S (length (uploadedImages (removeImage i st))) = length l /\
     (forall j, j < i ->
        nth_error (uploadedImages (removeImage i st)) j = nth_error l j) /\
     (forall j, i <= j ->
        nth_error (uploadedImages (removeImage i st)) j
        = nth_error l (S j))) /\
  (length l <= i -> removeImage i st = st) /\
  (isDragging (removeImage i st) = isDragging st /\
   error (removeImage i st) = error st /\
   input (removeImage i st) = input st /\
   sent (removeImage i st) = sent st /\
   timers (removeImage i st) = timers st /\
   alerts (removeImage i st) = alerts st /\
   awaiting (removeImage i st) = awaiting st).
Proof.
  intros i st l. unfold removeImage.
  cbn [setUploadedImages uploadedImages isDragging error input sent timers
       alerts awaiting].
  fold l. split; [|split; [|split]].
  - apply (removeAt_filter l i 0).
  - intros Hi. rewrite removeAt_in_range by assumption.
    split; [reflexivity|]. split; [|split].
    + rewrite length_app, firstn_length_le, length_skipn by lia. lia.
    + intros j Hj. rewrite nth_error_app1
        by (rewrite firstn_length_le by lia; assumption).
      rewrite nth_error_firstn.
      assert (E : (j <? i) = true) by (apply Nat.ltb_lt; assumption).
      rewrite E. reflexivity.
    + intros j Hj. rewrite nth_error_app2
        by (rewrite firstn_length_le by lia; assumption).
      rewrite firstn_length_le by lia. rewrite nth_error_skipn.
      f_equal. lia.
  - intros Hi. unfold setUploadedImages.
    rewrite (removeAt_out_of_range (uploadedImages st)) by exact Hi.
    apply State_ext; reflexivity.
  - repeat split; reflexivity.
Qed.

(** X11.  The canvas never exceeds the picture or 800 pixels, and can
    collapse.  For a picture of positive width and height, each side of the
    canvas lies between 0 and the smaller of 800 and the side of the
    picture: the picture is never enlarged.  A side of the canvas is 0
    exactly when the other side of the picture is more than 800 times as
    long; the promise of [compressImage] then resolves to "data:,", and
    otherwise to the canvas serialised as image/jpeg. *)
Theorem compressImage_canvas_bounds : forall file img,
  picture file = Some img ->
  let w := imgWidth img in
  let h := imgHeight img in
  (0 < w < 2 ^ 32)%Z -> (0 < h < 2 ^ 32)%Z ->
  let out := drawScaled img in
  (0 <= canvasWidth out <= Z.min w 800)%Z /\
  (0 <= canvasHeight out <= Z.min h 800)%Z /\
  (canvasWidth out = 0%Z <-> (w * 800 < h)%Z) /\
  (canvasHeight out = 0%Z <-> (h * 800 < w)%Z) /\
  (compressImage file = Some NoPixels <-> (w * 800 < h \/ h * 800 < w)%Z) /\
  (compressImage file = Some NoPixels \/
   compressImage file = Some (Serialised (str "image/jpeg") (double 0.8) out)).
Proof.
  intros file img Hp w h Hw Hh out.
  destruct (canvas_sides img Hw Hh) as [Hcw Hch]. fold w h out in Hcw, Hch.
  assert (Hzw : (canvasWidth out = 0 <-> w * 800 < h)%Z).
  { rewrite Hcw. destruct (Z.leb_spec w h) as [H1|H1];
      destruct (Z.ltb_spec 800 h) as [H2|H2]; cbn [andb]; try lia.
    split; intros H.
    - apply Z.div_small_iff in H; lia.
    - apply Z.div_small. lia. }
  assert (Hzh : (canvasHeight out = 0 <-> h * 800 < w)%Z).
  { rewrite Hch. destruct (Z.ltb_spec h w) as [H1|H1];
      destruct (Z.ltb_spec 800 w) as [H2|H2]; cbn [andb]; try lia.
    split; intros H.
    - apply Z.div_small_iff in H; lia.
    - apply Z.div_small. lia. }
  assert (Hbw : (0 <= canvasWidth out <= Z.min w 800)%Z).
  { rewrite Hcw. destruct (Z.leb_spec w h) as [H1|H1];
      destruct (Z.ltb_spec 800 h) as [H2|H2]; cbn [andb]; try lia.
    split; [apply Z.div_pos; lia|].
    apply Z.min_glb; apply Z.div_le_upper_bound; nia. }
  assert (Hbh : (0 <= canvasHeight out <= Z.min h 800)%Z).
  { rewrite Hch. destruct (Z.ltb_spec h w) as [H1|H1];
      destruct (Z.ltb_spec 800 w) as [H2|H2]; cbn [andb]; try lia.
    split; [apply Z.div_pos; lia|].
    apply Z.min_glb; apply Z.div_le_upper_bound; nia. }
  assert (Hout : compressImage file
                 = Some (if ((canvasWidth out =? 0) || (canvasHeight out =? 0))%Z
                         then NoPixels
                         else Serialised (str "image/jpeg") (double 0.8) out)).
  { unfold compressImage. rewrite Hp. reflexivity. }
  split; [assumption|]. split; [assumption|].
  split; [assumption|]. split; [assumption|].
  rewrite Hout. split.
  - destruct (Z.eqb_spec (canvasWidth out) 0) as [E1|E1]; cbn [orb].
    + split; [intros _; left; apply Hzw; assumption | reflexivity].
    + destruct (Z.eqb_spec (canvasHeight out) 0) as [E2|E2].
      * split; [intros _; right; apply Hzh; assumption | reflexivity].
      * split; [discriminate|]. intros [H|H]; [apply Hzw in H | apply Hzh in H];
          contradiction.
  - destruct ((canvasWidth out =? 0) || (canvasHeight out =? 0))%Z; auto.
Qed.

Lemma compressImage_canvas_bounds_witness :
  canvasWidth (drawScaled {| imgWidth := 1; imgHeight := 801 |}) = 0%Z.
Proof.
  pose (img := {| imgWidth := 1; imgHeight := 801 |}).
  pose (file := {| name := str "strip.png"; type := str "image/png";
                   bytes := [0x89; 0x50; 0x4E; 0x47]%N; readable := true;
                   picture := Some img |}).
  assert (Hw : (0 < imgWidth img < 2 ^ 32)%Z) by (cbn; lia).
  assert (Hh : (0 < imgHeight img < 2 ^ 32)%Z) by (cbn; lia).
  destruct (compressImage_canvas_bounds file img eq_refl Hw Hh)
    as (_ & _ & Hz & _).
  apply Hz. cbn. lia.
Defined.

(** X12.  Submitting typed text, and submitting nothing.  With a blank
    input and no image the form does nothing at all.  With an input that is
    not blank it sends one user message whose content is the input as typed
    (not trimmed): at once and without an attachments property when no
    image is uploaded; with one JPEG attachment per uploaded image, named
    after its file, once every picture has loaded.  No timer is set: no
    follow-up prompt is sent.  A submission that has sent its message
    clears the input and the list of images, and leaves the alerts, the
    error banner and the drag highlight as they were.  While an uploaded
    file does not load in an image element, which [validateFile] does not
    rule out, the submission waits: nothing is sent and nothing cleared. *)
Theorem submit_typed_text : forall st,
  (trim (input st) = [] -> uploadedImages st = [] ->
   handleFormSubmit st = (st, None) /\ alone Submit st = st) /\
  (trim (input st) <> [] -> uploadedImages st = [] ->
   sent (step Submit st) = sent st ++ [typedMessage (input st) None] /\
   sent (alone Submit st) = sent st ++ [typedMessage (input st) None] /\
   timers (alone Submit st) = timers st) /\
  (forall attachments,
     trim (input st) <> [] -> uploadedImages st <> [] ->
     attachmentsOf (uploadedImages st) = Some attachments ->
     sent (alone Submit st)
       = sent st ++ [typedMessage (input st) (Some attachments)] /\
     map attachmentName attachments = map name (uploadedImages st) /\
     map contentType attachments
       = map (fun _ => str "image/jpeg") (uploadedImages st) /\
     timers (alone Submit st) = timers st) /\
  (forall attachments,
     trim (input st) <> [] \/ uploadedImages st <> [] ->
     attachmentsOf (uploadedImages st) = Some attachments ->
     input (alone Submit st) = [] /\
     uploadedImages (alone Submit st) = [] /\
     alerts (alone Submit st) = alerts st /\
     error (alone Submit st) = error st /\
     isDragging (alone Submit st) = isDragging st /\
     awaiting (alone Submit st) = awaiting st) /\
  (attachmentsOf (uploadedImages st) = None ->
   alone Submit st = step Submit st /\
   sent (alone Submit st) = sent st /\
   timers (alone Submit st) = timers st /\
   input (alone Submit st) = input st /\
   uploadedImages (alone Submit st) = uploadedImages st /\
   awaiting (alone Submit st)
     = awaiting st ++ [Compressing (input st) (uploadedImages st)]) /\
  ((exists attachments, attachmentsOf (uploadedImages st) = Some attachments)
   <-> Forall loads (uploadedImages st)) /\
  (attachmentsOf (uploadedImages st) = None <->
   exists file, In file (uploadedImages st) /\ picture file = None).
Proof.
  intros st. split; [|split; [|split; [|split; [|split; [|split]]]]].
  - intros Hi Hu. split; [|apply alone_Submit_nothing; assumption].
    unfold handleFormSubmit. rewrite Hi, Hu. reflexivity.
  - intros Hi Hu. rewrite alone_Submit_text by assumption.
    split; [|split; reflexivity].
    cbn [step]. unfold handleFormSubmit. apply truthyStr_true in Hi.
    rewrite Hi, Hu. cbn [negb andb length Nat.ltb Nat.leb].
    unfold sendMessage. rewrite Hi. reflexivity.
  - intros attachments Hi Hu Ha.
    rewrite (alone_Submit_images st attachments) by assumption.
    apply truthyStr_true in Hi. rewrite Hi.
    destruct (attachmentsOf_spec _ _ Ha) as (H1 & H2 & _).
    unfold afterAppend. rewrite Hi. cbn [negb andb].
    split; [reflexivity|]. split; [assumption|]. split; [assumption|].
    reflexivity.
  - intros attachments H Ha.
    destruct (uploadedImages st) as [|f fs] eqn:Eu.
    + destruct H as [H|H]; [|contradiction].
      rewrite alone_Submit_text by assumption. repeat split; reflexivity.
    + rewrite (alone_Submit_images st attachments)
        by (rewrite ?Eu; try discriminate; assumption).
      unfold afterAppend.
      destruct (true && negb (truthyStr (trim (input st))));
        repeat split; reflexivity.
  - intros Ha.
    assert (Hu : uploadedImages st <> []).
    { intros E. rewrite E in Ha. discriminate. }
    destruct (alone_Submit_stuck st Hu Ha) as [Hs Hal].
    rewrite Hal, Hs. repeat split; reflexivity.
  - apply attachmentsOf_loads.
  - apply attachmentsOf_stuck.
Qed.

(** X13.  The Send button and the submit handler agree.  Whenever the button
    is enabled and every uploaded file loads as a picture, a submission
    sends exactly one message; when a file does not load, it sends none and
    waits.  When the button is disabled although no reply is being loaded,
    a submission would do nothing. *)
Theorem send_button_agrees_with_submit : forall m,
  (sendDisabled m = false -> Forall loads (uploadedImages (chat m)) ->
   exists msg, sent (alone Submit (chat m)) = sent (chat m) ++ [msg]) /\
  (sendDisabled m = false -> ~ Forall loads (uploadedImages (chat m)) ->
   sent (alone Submit (chat m)) = sent (chat m) /\
   awaiting (alone Submit (chat m))
     = awaiting (chat m)
       ++ [Compressing (input (chat m)) (uploadedImages (chat m))]) /\
  (sendDisabled m = true -> isLoading m = false ->
   step Submit (chat m) = chat m /\ alone Submit (chat m) = chat m) /\
  (sendDisabled m = true <->
   isLoading m = true \/
   (trim (input (chat m)) = [] /\ uploadedImages (chat m) = [])).
Proof.
  intros m. unfold sendDisabled. split; [|split; [|split]].
  - intros H Hl. apply orb_false_iff in H as [_ H].
    apply attachmentsOf_loads in Hl as (attachments & Ha).
    destruct (uploadedImages (chat m)) as [|f fs] eqn:Eu.
    + cbn [length Nat.eqb] in H. rewrite andb_true_r in H.
      apply negb_false_iff, truthyStr_true in H.
      rewrite alone_Submit_text by assumption. eexists. reflexivity.
    + rewrite (alone_Submit_images (chat m) attachments)
        by (rewrite ?Eu; try discriminate; assumption).
      eexists. unfold afterAppend.
      destruct (true && negb (truthyStr (trim (input (chat m)))));
        reflexivity.
  - intros _ Hl.
    assert (Ha : attachmentsOf (uploadedImages (chat m)) = None).
    { destruct (attachmentsOf (uploadedImages (chat m))) as [l|] eqn:E;
        [|reflexivity].
      exfalso. apply Hl. apply attachmentsOf_loads. eauto. }
    assert (Hu : uploadedImages (chat m) <> []).
    { intros E. rewrite E in Ha. discriminate. }
    destruct (alone_Submit_stuck (chat m) Hu Ha) as [Hs Hal].
    rewrite Hal, Hs. split; reflexivity.
  - intros H Hl. rewrite Hl in H. cbn [orb] in H.
    apply andb_true_iff in H as [Hi Hu].
    apply negb_true_iff, truthyStr_false in Hi. apply length_eqb_0 in Hu.
    split; [|apply alone_Submit_nothing; assumption].
    cbn [step]. unfold handleFormSubmit. rewrite Hi, Hu. reflexivity.
  - rewrite orb_true_iff, andb_true_iff, negb_true_iff, truthyStr_false,
      length_eqb_0. reflexivity.
Qed.

(** X14.  Every picture that is sent is shown.  When the form is submitted
    with uploaded images that all load, the message it sends shows under
    it, in the transcript, one image per uploaded file, in order: the
    compressed picture, with the name of the file as alternative text, or
    "Image k" for the k-th file when its name is empty.  The follow-up
    prompt and a typed message without uploads show no image. *)
Theorem sent_pictures_are_shown : forall st attachments,
  uploadedImages st <> [] ->
  attachmentsOf (uploadedImages st) = Some attachments ->
  (exists msg,
     sent (alone Submit st) = sent st ++ [msg] /\
     length (attachmentImages msg) = length (uploadedImages st) /\
     forall i file,
       nth_error (uploadedImages st) i = Some file ->
       exists compressed,
         compressImage file = Some compressed /\
         nth_error (attachmentImages msg) i
         = Some (shownImage i file compressed)) /\
  attachmentImages followUpMessage = [] /\
  (forall text, attachmentImages (typedMessage text None) = []).
Proof.
  intros st attachments Hu Ha. split; [|split; reflexivity].
  rewrite (alone_Submit_images st attachments) by assumption.
  eexists. split.
  - unfold afterAppend.
    destruct (true && negb (truthyStr (trim (input st)))); reflexivity.
  - apply (attachmentImages_of (uploadedImages st) attachments);
      [assumption|].
    destruct (truthyStr (trim (input st))); reflexivity.
Qed.

Lemma sent_pictures_are_shown_witness :
  exists msg,
    sent (alone Submit
            {| isDragging := false;
               uploadedImages :=
                 [{| name := []; type := str "image/png";
                     bytes := [0x89; 0x50; 0x4E; 0x47]%N; readable := true;
                     picture := Some {| imgWidth := 10; imgHeight := 10 |} |}];
               error := None; input := []; sent := []; timers := [];
               alerts := []; awaiting := [] |})
    = [msg] /\
    map alt (attachmentImages msg) = [str "Image 1"].
Proof.
  pose (file := {| name := []; type := str "image/png";
                   bytes := [0x89; 0x50; 0x4E; 0x47]%N; readable := true;
                   picture := Some {| imgWidth := 10; imgHeight := 10 |} |}).
  pose (st := {| isDragging := false; uploadedImages := [file];
                 error := None; input := []; sent := []; timers := [];
                 alerts := []; awaiting := [] |}).
  assert (Hu : uploadedImages st <> []) by discriminate.
  destruct (attachmentsOf (uploadedImages st)) as [attachments|] eqn:Ha;
    [|vm_compute in Ha; discriminate].
  destruct (sent_pictures_are_shown st attachments Hu Ha)
    as ((msg & Hs & Hlen & Hi) & _ & _).
  exists msg. split; [exact Hs|].
  destruct (Hi 0 file eq_refl) as (c & _ & Hn).
  destruct (attachmentImages msg) as [|img imgs]; [discriminate|].
  destruct imgs; [|discriminate].
  cbn [nth_error] in Hn. injection Hn as ->. vm_compute. reflexivity.
Defined.

(** X15.  The product view opens on a captured analysis only.  Along every
    sequence of events from the initial state: while the product view is
    shown, and so whenever it renders anything, the analysis it parses is
    not empty; a reply is captured only when its content is not empty and
    the callback sees an uploaded image, and nothing ever empties the
    captured analysis again; the View button is enabled exactly when an
    analysis has been captured and no reply is being loaded. *)
Theorem product_view_needs_analysis : forall readAsDataURL events,
  let m := modalRun readAsDataURL events initialModal in
  (showProductView m = true -> analysisResult m <> []) /\
  (forall v, productView m = Some v -> analysisResult m <> []) /\
  (forall content uploaded,
     analysisResult (onFinish readAsDataURL content uploaded m)
     = if truthyStr content && (0 <? length uploaded) then content
       else analysisResult m) /\
  (forall e, analysisResult m <> [] ->
             analysisResult (modalStep readAsDataURL e m) <> []) /\
  (viewDisabled m = false <-> analysisResult m <> [] /\ isLoading m = false).
Proof.
  intros r events m.
  assert (Hkeep : forall e m0, analysisResult m0 <> [] ->
                    analysisResult (modalStep r e m0) <> []).
  { intros e m0 H. destruct e as [e'| | |c u| | |b]; cbn [modalStep];
      try exact H.
    - rewrite onFinish_result.
      destruct (truthyStr c && (0 <? length u)) eqn:E; [|exact H].
      apply andb_true_iff in E as [E _]. apply truthyStr_true. exact E.
    - unfold clickView. destruct (viewDisabled m0); exact H. }
  assert (Hinv : showProductView m = true -> analysisResult m <> []).
  { subst m.
    apply (modalRun_invariant r
             (fun m0 => showProductView m0 = true -> analysisResult m0 <> [])).
    - intros e m0 H0. destruct e as [e'| | |c u| | |b]; cbn [modalStep];
        try exact H0.
      + destruct (onFinish_frame r c u m0) as (_ & Hs & _).
        rewrite Hs. intros Hshow. apply (Hkeep (Finish c u)).
        apply H0. exact Hshow.
      + unfold clickView, viewDisabled.
        destruct (truthyStr (analysisResult m0)) eqn:Et; cbn [negb orb].
        * intros _. destruct (isLoading m0); apply truthyStr_true; exact Et.
        * exact H0.
      + cbn [setShowProductView showProductView]. discriminate.
    - cbn [initialModal showProductView]. discriminate. }
  split; [exact Hinv|]. split; [|split; [|split]].
  - intros v Hv. apply Hinv. unfold productView, CoffeeProductView in Hv.
    cbn [isOpen] in Hv. destruct (showProductView m); [reflexivity|].
    discriminate.
  - intros content uploaded. apply onFinish_result.
  - intros e. apply Hkeep.
  - unfold viewDisabled. rewrite orb_false_iff, negb_false_iff, truthyStr_true.
    reflexivity.
Qed.


(** X17.  The life of the error banner.  Along every sequence of events from
    the initial state the banner is hidden or shows one of the three fixed
    messages.  Only the failure of a chat request and the button of the
    banner change it: an upload, the removal of an image, typing, a
    submission, a timer, the end of a reply and the product view leave it as
    it is, so an error stays on display until it is dismissed or replaced by
    the next one.  The button hides it. *)
Theorem error_banner_lifecycle : forall readAsDataURL events,
  let m := modalRun readAsDataURL events initialModal in
  (errorBanner (chat m) = None \/
   errorBanner (chat m) = Some tooManyRequests \/
   errorBanner (chat m) = Some serviceUnavailable \/
   errorBanner (chat m) = Some genericError) /\
  (forall e,
     (forall message, e <> Handled (ChatError message)) ->
     e <> Handled DismissError ->
     errorBanner (chat (modalStep readAsDataURL e m)) = errorBanner (chat m)) /\
  errorBanner (chat (modalStep readAsDataURL (Handled DismissError) m)) = None.
Proof.
  intros r events m.
  assert (Hframe : forall e m0,
            (forall message, e <> Handled (ChatError message)) ->
            e <> Handled DismissError ->
            error (chat (modalStep r e m0)) = error (chat m0)).
  { intros e m0 Hc Hd. destruct e as [e'| | |c u| | |b]; cbn [modalStep];
      try reflexivity.
    - cbn [setChat chat]. apply step_error.
      + intros message ->. apply (Hc message). reflexivity.
      + intros ->. apply Hd. reflexivity.
    - destruct (onFinish_frame r c u m0) as (Hch & _). rewrite Hch.
      reflexivity.
    - unfold clickView. destruct (viewDisabled m0); reflexivity. }
  assert (Hinv : error (chat m) = None \/
                 error (chat m) = Some tooManyRequests \/
                 error (chat m) = Some serviceUnavailable \/
                 error (chat m) = Some genericError).
  { subst m.
    apply (modalRun_invariant r
             (fun m0 => error (chat m0) = None \/
                        error (chat m0) = Some tooManyRequests \/
                        error (chat m0) = Some serviceUnavailable \/
                        error (chat m0) = Some genericError)).
    - intros e m0 H0.
      destruct e as [e'| | |c u| | |b];
        try (rewrite Hframe by discriminate; exact H0).
      destruct e'; try (rewrite Hframe by discriminate; exact H0).
      + right. cbn [modalStep setChat chat step]. apply onError_error.
      + left. reflexivity.
    - left. reflexivity. }
  split; [|split].
  - unfold errorBanner.
    destruct Hinv as [->|[->|[->| ->]]];
      [left; reflexivity | right; left | right; right; left
       | right; right; right]; vm_compute; reflexivity.
  - intros e Hc Hd. unfold errorBanner. rewrite Hframe by assumption.
    reflexivity.
  - reflexivity.
Qed.

(** X19.  Uploads that do not overlap keep the limit.  When an upload
    handler, drag-and-drop or file selection, runs to its end before
    anything else happens: if the number of images already uploaded plus
    the number of incoming files of an allowed MIME type exceeds 5, the
    whole batch is refused, with one alert and the list of uploaded images
    unchanged; otherwise exactly the incoming files that pass
    [validateFile] are appended, in their order.  Either way a list of at
    most 5 images stays a list of at most 5, and so it does along every
    sequence of events from the initial state in which each handler has
    come to its end, or waits for a picture that never loads, before the
    next event. *)
Theorem uploads_in_turn_keep_at_most_5 : forall st dropped,
  let files := filter allowedType dropped in
  (forall upload, In upload [Drop; FileSelect] ->
     (5 < length (uploadedImages st) + length files ->
        uploadedImages (alone (upload dropped) st) = uploadedImages st /\
        alerts (alone (upload dropped) st) = alerts st ++ [limitMessage]) /\
     (length (uploadedImages st) + length files <= 5 ->
        uploadedImages (alone (upload dropped) st)
          = uploadedImages st ++ filter validateFile files) /\
     (length (uploadedImages st) <= 5 ->
        length (uploadedImages (alone (upload dropped) st)) <= 5) /\
     awaiting (alone (upload dropped) st) = awaiting st) /\
  (forall events, length (uploadedImages (runEach events initialState)) <= 5).
Proof.
  intros st dropped files.
  assert (Hh : forall upload st0 dropped0,
    In upload [Drop; FileSelect] ->
    (5 < length (uploadedImages st0)
         + length (filter allowedType dropped0) ->
       uploadedImages (alone (upload dropped0) st0) = uploadedImages st0 /\
       alerts (alone (upload dropped0) st0) = alerts st0 ++ [limitMessage]) /\
    (length (uploadedImages st0) + length (filter allowedType dropped0) <= 5 ->
       uploadedImages (alone (upload dropped0) st0)
         = uploadedImages st0
           ++ filter validateFile (filter allowedType dropped0)) /\
    (length (uploadedImages st0) <= 5 ->
       length (uploadedImages (alone (upload dropped0) st0)) <= 5) /\
    awaiting (alone (upload dropped0) st0) = awaiting st0).
  { intros upload st0 dropped0 Hin.
    assert (E : exists st1,
              uploadedImages st1 = uploadedImages st0 /\
              alerts st1 = alerts st0 /\ awaiting st1 = awaiting st0 /\
              alone (upload dropped0) st0
              = if 5 <? length (uploadedImages st0)
                        + length (filter allowedType dropped0)
                then alert limitMessage st1
                else uploaded (filter validateFile (filter allowedType dropped0))
                              (filter isRejected (filter allowedType dropped0))
                              st1).
    { destruct Hin as [<-|[<-|[]]].
      - exists (setIsDragging false st0). rewrite alone_Drop.
        repeat split; reflexivity.
      - exists st0. rewrite alone_FileSelect. repeat split; reflexivity. }
    destruct E as (st1 & Hu & Ha & Hw & ->).
    destruct (5 <? _) eqn:E5.
    - apply Nat.ltb_lt in E5. cbn [alert uploadedImages alerts awaiting].
      rewrite Hu, Ha, Hw. repeat split; auto; lia.
    - apply Nat.ltb_ge in E5. cbn [uploaded uploadedImages alerts awaiting].
      rewrite Hu, Hw. repeat split; auto; try lia.
      intros _. rewrite length_app.
      pose proof (filter_length_le validateFile
                    (filter allowedType dropped0)). lia. }
  split; [intros upload Hin; apply Hh; assumption|].
  intros events.
  assert (Hinv : forall st0,
            InTurn st0 -> InTurn (runEach events st0)).
  { unfold runEach. induction events as [|e events IH]; intros st0 H0;
      [assumption|].
    cbn [fold_left]. apply IH. destruct H0 as [H5 Hw].
    destruct e.
    - destruct (Hh Drop st0 files0 (or_introl eq_refl)) as (_ & _ & H & Ha).
      split; [apply H; assumption | rewrite Ha; assumption].
    - destruct (Hh FileSelect st0 files0 (or_intror (or_introl eq_refl)))
        as (_ & _ & H & Ha).
      split; [apply H; assumption | rewrite Ha; assumption].
    - split; [|assumption]. unfold alone, run. cbn.
      pose proof (removeAt_length_le i (uploadedImages st0)). lia.
    - split; assumption.
    - destruct (attachmentsOf (uploadedImages st0)) as [attachments|] eqn:Ea.
      + destruct (uploadedImages st0) as [|f fs] eqn:Eu.
        * destruct (trim (input st0)) as [|c t] eqn:Et.
          -- rewrite alone_Submit_nothing by assumption.
             split; [rewrite Eu; cbn; lia | assumption].
          -- rewrite alone_Submit_text by (rewrite ?Et; try discriminate; assumption).
             split; [cbn; lia | assumption].
        * rewrite (alone_Submit_images st0 attachments)
            by (rewrite ?Eu; try discriminate; assumption).
          unfold afterAppend.
          destruct (true && negb (truthyStr (trim (input st0))));
            (split; [cbn; lia | assumption]).
      + assert (Hu : uploadedImages st0 <> []).
        { intros E. rewrite E in Ea. discriminate. }
        destruct (alone_Submit_stuck st0 Hu Ea) as [Hs Hal].
        rewrite Hal, Hs. split; [assumption|].
        cbn [setAwaiting awaiting]. apply Forall_app. split; [assumption|].
        constructor; [|constructor]. exact Ea.
    - assert (Hs : alone (Settle k) st0 = st0).
      { unfold alone, run. cbn [awaits repeat fold_left step]. unfold settle.
        destruct (nth_error (awaiting st0) k) as [task|] eqn:Ek;
          [|reflexivity].
        rewrite Forall_forall in Hw.
        pose proof (Hw task (nth_error_In _ _ Ek)) as Ht.
        destruct task as [? ?|i u|? ?]; try contradiction.
        cbn [Stuck] in Ht. cbn [resume]. unfold attachmentsOf in Ht.
        rewrite Ht. reflexivity. }
      rewrite Hs. split; assumption.
    - split; assumption.
    - unfold alone, run. cbn [awaits repeat fold_left step]. unfold onError.
      destruct (includes message (str "429")); [split; assumption|].
      destruct (includes message (str "503")); split; assumption.
    - split; assumption. }
  apply Hinv. split; [cbn; lia | constructor].
Qed.

Lemma uploads_in_turn_keep_at_most_5_witness :
  uploadedImages
    (alone (Drop
       [{| name := str "e.png"; type := str "image/png";
           bytes := [0x89; 0x50; 0x4E; 0x47]%N; readable := true;
           picture := Some {| imgWidth := 10; imgHeight := 10 |} |};
        {| name := str "f.png"; type := str "image/png";
           bytes := [0x89; 0x50; 0x4E; 0x47]%N; readable := true;
           picture := Some {| imgWidth := 10; imgHeight := 10 |} |}])
       (setUploadedImages
          (fun _ => repeat
             {| name := str "a.png"; type := str "image/png";
                bytes := [0x89; 0x50; 0x4E; 0x47]%N; readable := true;
                picture := Some {| imgWidth := 10; imgHeight := 10 |} |} 4)
          initialState))
  = repeat {| name := str "a.png"; type := str "image/png";
              bytes := [0x89; 0x50; 0x4E; 0x47]%N; readable := true;
              picture := Some {| imgWidth := 10; imgHeight := 10 |} |} 4.
Proof.
  pose (png := fun n => {| name := n; type := str "image/png";
                           bytes := [0x89; 0x50; 0x4E; 0x47]%N;
                           readable := true;
                           picture := Some {| imgWidth := 10;
                                              imgHeight := 10 |} |}).
  pose (st := setUploadedImages (fun _ => repeat (png (str "a.png")) 4)
                                initialState).
  pose (dropped := [png (str "e.png"); png (str "f.png")]).
  destruct (uploads_in_turn_keep_at_most_5 st dropped) as (H & _).
  destruct (H Drop (or_introl eq_refl)) as (Hover & _ & _).
  assert (Hgt : 5 < length (uploadedImages st)
                    + length (filter allowedType dropped))
    by (vm_compute; lia).
  destruct (Hover Hgt) as [Hu _]. exact Hu.
Defined.

(** X20.  An images-only submission whose pictures load.  When the form is
    submitted with at least one uploaded image and an input that is empty
    after trimming, and every uploaded file loads as a picture, the user
    message handed to the chat has exactly COFFEE_ANALYSIS_PROMPT as its
    content and one attachment per uploaded file, in order, each with
    content type image/jpeg and the name of its file; a timeout of 100 ms is
    set, and when it fires a second user message with exactly
    FOLLOW_UP_ANALYSIS_PROMPT as its content is sent after the first.
    Whatever happens in between, the handler that waits for the pictures
    sends the first message when they have loaded, and sets the timer when
    [append] has returned. *)
Theorem submit_images_only : forall st attachments,
  uploadedImages st <> [] ->
  trim (input st) = [] ->
  attachmentsOf (uploadedImages st) = Some attachments ->
  sent (alone Submit st) = sent st ++ [analysisMessage attachments] /\
  timers (alone Submit st) = timers st ++ [(100, followUpMessage)] /\
  sent (fireTimers (alone Submit st))
    = sent st ++ [analysisMessage attachments]
      ++ map snd (timers st) ++ [followUpMessage] /\
  content (analysisMessage attachments) = COFFEE_ANALYSIS_PROMPT /\
  content followUpMessage = FOLLOW_UP_ANALYSIS_PROMPT /\
  experimental_attachments (analysisMessage attachments) = Some attachments /\
  map contentType attachments
    = map (fun _ => str "image/jpeg") (uploadedImages st) /\
  map attachmentName attachments = map name (uploadedImages st) /\
  awaiting (step Submit st)
    = awaiting st ++ [Compressing (input st) (uploadedImages st)] /\
  (forall st' k,
     nth_error (awaiting st') k
       = Some (Compressing (input st) (uploadedImages st)) ->
     sent (settle k st') = sent st' ++ [analysisMessage attachments] /\
     nth_error (awaiting (settle k st')) k
       = Some (Appending (input st) true)) /\
  (forall st' k,
     nth_error (awaiting st') k = Some (Appending (input st) true) ->
     sent (settle k st') = sent st' /\
     timers (settle k st') = timers st' ++ [(100, followUpMessage)]).
Proof.
  intros st attachments Hu Hi Ha.
  assert (Hs : sent (alone Submit st)
               = sent st ++ [analysisMessage attachments] /\
               timers (alone Submit st)
               = timers st ++ [(100, followUpMessage)]).
  { rewrite (alone_Submit_images st attachments) by assumption.
    unfold afterAppend. rewrite Hi. split; reflexivity. }
  destruct Hs as [Hs Ht].
  destruct (attachmentsOf_spec _ _ Ha) as (H1 & H2 & _).
  split; [assumption|]. split; [assumption|].
  split.
  { unfold fireTimers. cbn [sent]. rewrite Hs, Ht, map_app.
    rewrite <- !app_assoc. reflexivity. }
  split; [reflexivity|]. split; [reflexivity|]. split; [reflexivity|].
  split; [assumption|]. split; [assumption|].
  split.
  { cbn [step]. unfold handleFormSubmit. rewrite Hi.
    destruct (uploadedImages st) as [|f fs]; [contradiction|]. reflexivity. }
  split.
  - intros st' k Hk. unfold settle. rewrite Hk. cbn [resume].
    unfold attachmentsOf in Ha. rewrite Ha. unfold sendMessage. rewrite Hi.
    cbn [truthyStr negb andb setAwaiting append sent awaiting].
    split; [reflexivity|].
    apply nth_error_replaceAt. apply nth_error_Some. congruence.
  - intros st' k Hk. unfold settle. rewrite Hk. cbn [resume].
    unfold afterAppend. rewrite Hi. split; reflexivity.
Qed.

Lemma submit_images_only_witness :
  exists attachments,
    sent (fireTimers (alone Submit
      {| isDragging := false;
         uploadedImages :=
           [{| name := str "bag.jpg"; type := str "image/jpeg";
               bytes := [0xFF; 0xD8; 0xFF]%N; readable := true;
               picture := Some {| imgWidth := 1200; imgHeight := 900 |} |}];
         error := None; input := str "  "; sent := []; timers := [];
         alerts := []; awaiting := [] |}))
    = [analysisMessage attachments; followUpMessage] /\
    map attachmentName attachments = [str "bag.jpg"].
Proof.
  pose (file := {| name := str "bag.jpg"; type := str "image/jpeg";
                   bytes := [0xFF; 0xD8; 0xFF]%N; readable := true;
                   picture := Some {| imgWidth := 1200; imgHeight := 900 |} |}).
  pose (st := {| isDragging := false; uploadedImages := [file];
                 error := None; input := str "  "; sent := []; timers := [];
                 alerts := []; awaiting := [] |}).
  assert (H1 : uploadedImages st <> []) by discriminate.
  assert (H2 : trim (input st) = []) by (vm_compute; reflexivity).
  destruct (attachmentsOf (uploadedImages st)) as [attachments|] eqn:Ha;
    [|vm_compute in Ha; discriminate].
  destruct (submit_images_only st attachments H1 H2 Ha)
    as (_ & _ & H & _ & _ & _ & _ & Hn & _).
  exists attachments. split; [exact H | exact Hn].
Defined.

End ChatModalViewProperties.
